(** * A shallow embedding of the static-site content compiler
    ([scripts/build-content.mjs]): inline and block rendering, the
    hand-rolled Markdown structurer with its anchor-id registry and
    subsection stack, the page assembler and the corpus collector.

    JavaScript strings are modelled as [string], and the model is exact on
    ASCII text (every code unit below 128): there [toLowerCase] maps [A-Z]
    to [a-z], the regular-expression class [\s] (also used by [trim]) is
    TAB, LF, VT, FF, CR and SPACE, and the line terminators that [.] does
    not match are LF and CR.  Outside ASCII JavaScript has further white
    space (U+00A0, U+FEFF, U+2028, ...), further line terminators (U+2028,
    U+2029) and further letters with a lower case, which the model does not
    have; the statements that depend on these classes are made for ASCII
    text, [isAsciiText]. *)

From Stdlib Require Import String Ascii List Arith Lia ZArith Bool.
From Stdlib Require Import Numbers.DecimalString Numbers.DecimalNat.
From Stdlib Require Import Sorting.Permutation Sorting.Sorted.
Import ListNotations.

Open Scope list_scope.
Open Scope string_scope.

(** ** Characters *)

Definition chr (n : nat) : string := String (ascii_of_nat n) EmptyString.

(** The double quote, the line feed and the carriage return. *)
Definition QUOT : string := chr 34.
Definition LF : string := chr 10.
Definition CR : string := chr 13.

Definition codeIs (n : nat) (c : ascii) : bool := Nat.eqb (nat_of_ascii c) n.

(** The ASCII characters. *)
Definition isAsciiChar (c : ascii) : bool := Nat.ltb (nat_of_ascii c) 128.

(** The white space of [\s] and [trim] among the ASCII characters. *)
Definition isWhitespace (c : ascii) : bool :=
  let n := nat_of_ascii c in
  (Nat.leb 9 n && Nat.leb n 13) || Nat.eqb n 32.

Definition isDigit (c : ascii) : bool :=
  let n := nat_of_ascii c in Nat.leb 48 n && Nat.leb n 57.

Definition isLowerAlpha (c : ascii) : bool :=
  let n := nat_of_ascii c in Nat.leb 97 n && Nat.leb n 122.

Definition isUpperAlpha (c : ascii) : bool :=
  let n := nat_of_ascii c in Nat.leb 65 n && Nat.leb n 90.

(** The line terminators among the ASCII characters. *)
Definition isLineTerminator (c : ascii) : bool := codeIs 10 c || codeIs 13 c.

(** [toLowerCase] on an ASCII character. *)
Definition toLowerChar (c : ascii) : ascii :=
  if isUpperAlpha c then ascii_of_nat (nat_of_ascii c + 32) else c.

(** ** String primitives ([String.prototype] methods used by the script) *)

Fixpoint smap (f : ascii -> ascii) (s : string) : string :=
  match s with
  | EmptyString => EmptyString
  | String c s' => String (f c) (smap f s')
  end.

Fixpoint sfilter (p : ascii -> bool) (s : string) : string :=
  match s with
  | EmptyString => EmptyString
  | String c s' => if p c then String c (sfilter p s') else sfilter p s'
  end.

Fixpoint sforallb (p : ascii -> bool) (s : string) : bool :=
  match s with
  | EmptyString => true
  | String c s' => p c && sforallb p s'
  end.

Fixpoint sexistsb (p : ascii -> bool) (s : string) : bool :=
  match s with
  | EmptyString => false
  | String c s' => p c || sexistsb p s'
  end.

Definition isEmpty (s : string) : bool :=
  match s with EmptyString => true | _ => false end.

(** Text made of ASCII characters only. *)
Definition isAsciiText (s : string) : bool := sforallb isAsciiChar s.

Definition toLowerCase (s : string) : string := smap toLowerChar s.

(** Number of leading characters satisfying [p] (a greedy [p+] / [p*]). *)
Fixpoint spanLen (p : ascii -> bool) (s : string) : nat :=
  match s with
  | String c s' => if p c then S (spanLen p s') else 0
  | EmptyString => 0
  end.

Fixpoint sdrop (n : nat) (s : string) : string :=
  match n, s with
  | S k, String _ s' => sdrop k s'
  | _, _ => s
  end.

Fixpoint stake (n : nat) (s : string) : string :=
  match n, s with
  | S k, String c s' => String c (stake k s')
  | _, _ => EmptyString
  end.

Definition startsWith (p s : string) : bool := String.prefix p s.

Fixpoint lastChar (s : string) : option ascii :=
  match s with
  | EmptyString => None
  | String c EmptyString => Some c
  | String _ s' => lastChar s'
  end.

Definition trimStart (s : string) : string := sdrop (spanLen isWhitespace s) s.

Fixpoint trimEnd (s : string) : string :=
  match s with
  | EmptyString => EmptyString
  | String c s' =>
      let t := trimEnd s' in
      if isWhitespace c && isEmpty t then EmptyString else String c t
  end.

Definition trim (s : string) : string := trimEnd (trimStart s).

(** [s.replaceAll(c, rep)] for a one-character pattern [c]. *)
Fixpoint replaceAllChar (n : nat) (rep : string) (s : string) : string :=
  match s with
  | EmptyString => EmptyString
  | String c s' =>
      if codeIs n c then rep ++ replaceAllChar n rep s'
      else String c (replaceAllChar n rep s')
  end.

(** [s.replace(/re/g, ...)] for a pattern that never matches the empty
    string.  The matcher [m] is tried at the current position; on a match it
    gives the replacement text and the number of characters consumed, and the
    scan resumes after the match ([skip] counts the characters of the match
    still to be passed over).  Where it fails the character is copied. *)
Fixpoint replaceG (m : string -> option (string * nat)) (skip : nat) (s : string)
  : string :=
  match s with
  | EmptyString => EmptyString
  | String c s' =>
      match skip with
      | S k => replaceG m k s'
      | O =>
          match m s with
          | Some (rep, n) => rep ++ replaceG m (n - 1) s'
          | None => String c (replaceG m 0 s')
          end
      end
  end.

(** The same scan for a replacer callback that updates a variable of its
    closure (the state [st]). *)
Fixpoint replaceGSt {St : Type} (m : St -> string -> option (string * nat * St))
    (skip : nat) (st : St) (s : string) : string * St :=
  match s with
  | EmptyString => (EmptyString, st)
  | String c s' =>
      match skip with
      | S k => replaceGSt m k st s'
      | O =>
          match m st s with
          | Some (rep, n, st') =>
              let '(out, st'') := replaceGSt m (n - 1) st' s' in
              (rep ++ out, st'')
          | None =>
              let '(out, st'') := replaceGSt m 0 st s' in
              (String c out, st'')
          end
      end
  end.

(** [parts.join(sep)]. *)
Fixpoint join (sep : string) (parts : list string) : string :=
  match parts with
  | [] => EmptyString
  | [x] => x
  | x :: rest => x ++ sep ++ join sep rest
  end.

(** [s.split('\n')]: always at least one part. *)
Fixpoint splitLines (s : string) : list string :=
  match s with
  | EmptyString => [EmptyString]
  | String c s' =>
      if codeIs 10 c then EmptyString :: splitLines s'
      else match splitLines s' with
           | l :: rest => String c l :: rest
           | [] => [String c EmptyString]
           end
  end.

(** [s.replace(/\r\n/g, '\n')]. *)
Definition normalizeNewlines (s : string) : string :=
  replaceG (fun t => if startsWith (CR ++ LF) t then Some (LF, 2) else None) 0 s.

(** [String(n)] for a non-negative integer. *)
Definition showNat (n : nat) : string := NilEmpty.string_of_uint (Nat.to_uint n).

(** ** Escaping *)

Definition escapeHtml (value : string) : string :=
  replaceAllChar 39 "&#39;"
    (replaceAllChar 34 "&quot;"
       (replaceAllChar 62 "&gt;"
          (replaceAllChar 60 "&lt;"
             (replaceAllChar 38 "&amp;" value)))).

Definition escapeAttr (value : string) : string := escapeHtml value.

Definition xmlEscape (value : string) : string :=
  replaceAllChar 39 "&apos;"
    (replaceAllChar 34 "&quot;"
       (replaceAllChar 62 "&gt;"
          (replaceAllChar 60 "&lt;"
             (replaceAllChar 38 "&amp;" value)))).

(** ** slugify *)

Definition isSlugChar (c : ascii) : bool :=
  isLowerAlpha c || isDigit c || isWhitespace c || codeIs 45 c.

Definition collapseRuns (p : ascii -> bool) (rep : string) (s : string) : string :=
  replaceG (fun t => match spanLen p t with
                     | O => None
                     | n => Some (rep, n)
                     end) 0 s.

Definition slugify (value : string) : string :=
  collapseRuns (codeIs 45) "-"
    (collapseRuns isWhitespace "-"
       (trim (sfilter isSlugChar (toLowerCase value)))).

(** ** The inline renderer *)

Definition notCode (n : nat) (c : ascii) : bool := negb (codeIs n c).

(** Value of a run of decimal digits ([Number(index)]). *)
Definition digitsValue (s : string) : nat :=
  (fix go (acc : nat) (t : string) : nat :=
     match t with
     | EmptyString => acc
     | String c t' => go (10 * acc + (nat_of_ascii c - 48)) t'
     end) 0 s.

(** [/`([^`]+)`/g] with the callback that pushes [<code>..</code>] onto
    [codeSnippets] and returns the placeholder token. *)
Definition codeSpanMatch (codeSnippets : list string) (t : string)
  : option (string * nat * list string) :=
  if startsWith "`" t then
    let rest := sdrop 1 t in
    let n := spanLen (notCode 96) rest in
    if negb (Nat.eqb n 0) && startsWith "`" (sdrop n rest) then
      let code := stake n rest in
      let token := "__CODE_" ++ showNat (List.length codeSnippets) ++ "__" in
      let snippet := "<code>" ++ code ++ "</code>" in
      Some (token, n + 2, List.app codeSnippets [snippet])
    else None
  else None.

(** [/\[([^\]]+)\]\((https?:\/\/[^\s)]+)\)/g] with its callback. *)
Definition linkMatch (t : string) : option (string * nat) :=
  if startsWith "[" t then
    let r1 := sdrop 1 t in
    let n := spanLen (notCode 93) r1 in
    let r2 := sdrop n r1 in
    if negb (Nat.eqb n 0) && startsWith "](http" r2 then
      let r3 := sdrop 6 r2 in
      let s := if startsWith "s" r3 then 1 else 0 in
      let r4 := sdrop s r3 in
      if startsWith "://" r4 then
        let r5 := sdrop 3 r4 in
        let m := spanLen (fun c => negb (isWhitespace c || codeIs 41 c)) r5 in
        if negb (Nat.eqb m 0) && startsWith ")" (sdrop m r5) then
          let label := stake n r1 in
          let href := stake (4 + s + 3 + m) (sdrop 2 r2) in
          Some ("<a href=" ++ QUOT ++ escapeAttr href ++ QUOT ++ ">" ++ label ++ "</a>",
                1 + n + 2 + 4 + s + 3 + m + 1)
        else None
      else None
    else None
  else None.

(** [/\*\*([^*]+)\*\*/g] replaced by [<strong>$1</strong>]. *)
Definition boldMatch (t : string) : option (string * nat) :=
  if startsWith "**" t then
    let rest := sdrop 2 t in
    let n := spanLen (notCode 42) rest in
    if negb (Nat.eqb n 0) && startsWith "**" (sdrop n rest) then
      Some ("<strong>" ++ stake n rest ++ "</strong>", n + 4)
    else None
  else None.

(** [/\*([^*]+)\*/g] replaced by [<em>$1</em>]. *)
Definition italicMatch (t : string) : option (string * nat) :=
  if startsWith "*" t then
    let rest := sdrop 1 t in
    let n := spanLen (notCode 42) rest in
    if negb (Nat.eqb n 0) && startsWith "*" (sdrop n rest) then
      Some ("<em>" ++ stake n rest ++ "</em>", n + 2)
    else None
  else None.

(** [/__CODE_(\d+)__/g] with the callback [codeSnippets[Number(index)] || '']. *)
Definition restoreMatch (codeSnippets : list string) (t : string)
  : option (string * nat) :=
  if startsWith "__CODE_" t then
    let rest := sdrop 7 t in
    let n := spanLen isDigit rest in
    if negb (Nat.eqb n 0) && startsWith "__" (sdrop n rest) then
      Some (match nth_error codeSnippets (digitsValue (stake n rest)) with
            | Some snippet => snippet
            | None => ""
            end, 7 + n + 2)
    else None
  else None.

Definition renderInline (raw : string) : string :=
  let '(escaped, codeSnippets) := replaceGSt codeSpanMatch 0 [] (escapeHtml raw) in
  let withLinks := replaceG linkMatch 0 escaped in
  let withBold := replaceG boldMatch 0 withLinks in
  let withItalic := replaceG italicMatch 0 withBold in
  replaceG (restoreMatch codeSnippets) 0 withItalic.

(** The five passes of [renderInline], named, in the order the code applies
    them to the escaped text. *)
Definition passCode (escapedRaw : string) : string * list string :=
  replaceGSt codeSpanMatch 0 [] escapedRaw.
Definition passLinks (s : string) : string := replaceG linkMatch 0 s.
Definition passBold (s : string) : string := replaceG boldMatch 0 s.
Definition passItalic (s : string) : string := replaceG italicMatch 0 s.
Definition passRestore (codeSnippets : list string) (s : string) : string :=
  replaceG (restoreMatch codeSnippets) 0 s.

(** ** Blocks and the block renderer *)

Inductive Block : Type :=
| BParagraph (text : string)
| BHeading (level : nat) (text : string) (id : string)
| BUl (items : list string)
| BOl (items : list string)
| BBlockquote (text : string)
| BCode (lang : string) (code : string).

Definition renderItems (items : list string) : string :=
  join "" (map (fun item => "<li>" ++ renderInline item ++ "</li>") items).

Definition renderBlock (block : Block) : string :=
  match block with
  | BParagraph text => "<p>" ++ renderInline text ++ "</p>"
  | BHeading lvl text id =>
      let level := Nat.min (Nat.max lvl 1) 4 in
      "<h" ++ showNat level ++ " id=" ++ QUOT ++ escapeAttr id ++ QUOT ++ ">"
        ++ renderInline text ++ "</h" ++ showNat level ++ ">"
  | BUl items => "<ul>" ++ renderItems items ++ "</ul>"
  | BOl items => "<ol>" ++ renderItems items ++ "</ol>"
  | BBlockquote text => "<blockquote><p>" ++ renderInline text ++ "</p></blockquote>"
  | BCode lang code =>
      let langClass :=
        if isEmpty lang then ""
        else " class=" ++ QUOT ++ "language-" ++ escapeAttr lang ++ QUOT in
      "<pre><code" ++ langClass ++ ">" ++ escapeHtml code ++ "</code></pre>"
  end.

(** ** The Markdown structurer: line patterns *)

Definition charAt (n : nat) (s : string) : option ascii := String.get n s.

Definition wsAt (n : nat) (s : string) : bool :=
  match charAt n s with Some c => isWhitespace c | None => false end.

(** [line.match(/^(#{1,6})\s+(.+)$/)]: the level and the second group.  The
    greedy [\s+] gives characters back to [(.+)] only when nothing follows
    the white space; [.] matches no line terminator. *)
Definition matchHeading (line : string) : option (nat * string) :=
  let k := spanLen (codeIs 35) line in
  if Nat.leb 1 k && Nat.leb k 6 then
    let rest := sdrop k line in
    let w := spanLen isWhitespace rest in
    let r := sdrop w rest in
    if Nat.eqb w 0 then None
    else if sexistsb isLineTerminator r then None
    else if negb (isEmpty r) then Some (k, r)
    else if Nat.leb 2 w && negb (sexistsb isLineTerminator (sdrop (w - 1) rest))
         then Some (k, sdrop (w - 1) rest)
    else None
  else None.

(** [/^#{1,6}\s+/.test(line)]. *)
Definition testHeadingStart (line : string) : bool :=
  let k := spanLen (codeIs 35) line in
  Nat.leb 1 k && Nat.leb k 6 && wsAt k line.

(** [/^-\s+/.test(line)] and the text left by [line.replace(/^-\s+/, '')]. *)
Definition testBullet (line : string) : bool := startsWith "-" line && wsAt 1 line.
Definition stripBullet (line : string) : string :=
  if testBullet line then trimStart (sdrop 1 line) else line.

(** [/^\d+\.\s+/.test(line)] and [line.replace(/^\d+\.\s+/, '')]. *)
Definition testOrdered (line : string) : bool :=
  let d := spanLen isDigit line in
  Nat.leb 1 d && startsWith "." (sdrop d line) && wsAt (S d) line.
Definition stripOrdered (line : string) : string :=
  if testOrdered line then trimStart (sdrop (S (spanLen isDigit line)) line) else line.

(** [/^>\s?/.test(line)] and [line.replace(/^>\s?/, '')]. *)
Definition testQuote (line : string) : bool := startsWith ">" line.
Definition stripQuote (line : string) : string :=
  if testQuote line then (if wsAt 1 line then sdrop 2 line else sdrop 1 line) else line.

(** [/^```/.test(line)] and [line.replace(/^```/, '')]. *)
Definition testFence (line : string) : bool := startsWith "```" line.
Definition stripFence (line : string) : string :=
  if testFence line then sdrop 3 line else line.

Definition isBoundary (line : string) : bool :=
  testHeadingStart line || testBullet line || testOrdered line
  || testQuote line || testFence line.

Definition normalizeChapterTitle (title : string) : string :=
  trim (stripOrdered title).

(** ** The Markdown structurer: data

    Subsection objects are shared between the tree under a chapter and
    [subsectionStack], and are mutated through the stack
    ([parent.children.push]).  They live in a store, [heap], and are named
    by their position in it. *)

Record SubNode : Type := mkSubNode {
  sn_id : string;
  sn_level : nat;
  sn_title : string;
  sn_children : list nat
}.

Record ChapterCell : Type := mkChapterCell {
  cc_title : string;
  cc_id : string;
  cc_blocks : list Block;
  cc_subsections : list nat
}.

Record ParseState : Type := mkParseState {
  introBlocks : list Block;
  chapters : list ChapterCell;
  usedIds : list string;
  activeChapter : option nat;    (* position in [chapters], or null *)
  subsectionStack : list nat;    (* references into [heap], top first *)
  heap : list SubNode
}.

Definition initialState : ParseState :=
  mkParseState [] [] [] None [] [].

(** What [parseMarkdown] returns, with the references followed. *)
#[warnings="-register-all"]
Inductive Subsection : Type :=
| mkSubsection (id : string) (level : nat) (title : string)
               (children : list Subsection).

Definition sub_id (s : Subsection) : string :=
  match s with mkSubsection id _ _ _ => id end.
Definition sub_level (s : Subsection) : nat :=
  match s with mkSubsection _ level _ _ => level end.
Definition sub_title (s : Subsection) : string :=
  match s with mkSubsection _ _ title _ => title end.
Definition sub_children (s : Subsection) : list Subsection :=
  match s with mkSubsection _ _ _ children => children end.

Record Chapter : Type := mkChapter {
  ch_title : string;
  ch_id : string;
  ch_blocks : list Block;
  ch_subsections : list Subsection
}.

Record Outline : Type := mkOutline {
  o_introBlocks : list Block;
  o_chapters : list Chapter
}.

(** ** The anchor-id registry *)

Definition hasId (ids : list string) (id : string) : bool :=
  existsb (String.eqb id) ids.

(** The [while (usedIds.has(id))] loop; [fuel] bounds the iterations and
    [None] means the bound was reached. *)
Fixpoint uniqueIdLoop (fuel : nat) (used : list string) (base id : string) (n : nat)
  : option string :=
  if hasId used id then
    match fuel with
    | O => None
    | S f => uniqueIdLoop f used base (base ++ "-" ++ showNat n) (S n)
    end
  else Some id.

Definition idBase (prefix text fallback : string) : string :=
  let slug := slugify text in
  prefix ++ "-" ++ (if isEmpty slug then fallback else slug).

Definition uniqueId (used : list string) (prefix text fallback : string)
  : option (string * list string) :=
  let base := idBase prefix text fallback in
  match uniqueIdLoop (List.length used) used base base 2 with
  | Some id => Some (id, List.app used [id])
  | None => None
  end.

(** ** The Markdown structurer: the loop *)

Fixpoint updateAt {A : Type} (n : nat) (f : A -> A) (l : list A) : option (list A) :=
  match n, l with
  | O, x :: rest => Some (f x :: rest)
  | S k, x :: rest =>
      match updateAt k f rest with
      | Some rest' => Some (x :: rest')
      | None => None
      end
  | _, [] => None
  end.

Definition addBlock (block : Block) (c : ChapterCell) : ChapterCell :=
  mkChapterCell (cc_title c) (cc_id c) (List.app (cc_blocks c) [block]) (cc_subsections c).

Definition addSubsection (r : nat) (c : ChapterCell) : ChapterCell :=
  mkChapterCell (cc_title c) (cc_id c) (cc_blocks c) (List.app (cc_subsections c) [r]).

Definition addChild (r : nat) (n : SubNode) : SubNode :=
  mkSubNode (sn_id n) (sn_level n) (sn_title n) (List.app (sn_children n) [r]).

Definition pushBlock (block : Block) (st : ParseState) : option ParseState :=
  match activeChapter st with
  | Some a =>
      match updateAt a (addBlock block) (chapters st) with
      | Some chapters' =>
          Some (mkParseState (introBlocks st) chapters' (usedIds st)
                  (activeChapter st) (subsectionStack st) (heap st))
      | None => None
      end
  | None =>
      Some (mkParseState (List.app (introBlocks st) [block]) (chapters st) (usedIds st)
              (activeChapter st) (subsectionStack st) (heap st))
  end.

(** [while (stack.length && stack[stack.length - 1].level >= level) stack.pop()]. *)
Fixpoint popStack (hp : list SubNode) (level : nat) (stack : list nat)
  : option (list nat) :=
  match stack with
  | [] => Some []
  | top :: below =>
      match nth_error hp top with
      | Some node =>
          if Nat.leb level (sn_level node) then popStack hp level below
          else Some stack
      | None => None
      end
  end.

(** The [level >= 3] branch under an active chapter: allocate the
    subsection, pop, attach to the parent or to the chapter, push. *)
Definition attachSubsection (a : nat) (id : string) (level : nat) (text : string)
    (st : ParseState) : option ParseState :=
  let r := List.length (heap st) in
  let hp := List.app (heap st) [mkSubNode id level text []] in
  match popStack hp level (subsectionStack st) with
  | Some stack =>
      match stack with
      | parent :: _ =>
          match updateAt parent (addChild r) hp with
          | Some hp' =>
              Some (mkParseState (introBlocks st) (chapters st) (usedIds st)
                      (activeChapter st) (r :: stack) hp')
          | None => None
          end
      | [] =>
          match updateAt a (addSubsection r) (chapters st) with
          | Some chapters' =>
              Some (mkParseState (introBlocks st) chapters' (usedIds st)
                      (activeChapter st) [r] hp)
          | None => None
          end
      end
  | None => None
  end.

(** The [if (heading) { ... }] branch for a heading at line index [i]. *)
Definition processHeading (i level : nat) (text : string) (st : ParseState)
  : option ParseState :=
  if Nat.eqb level 2 then
    let title := normalizeChapterTitle text in
    let ordinal := showNat (List.length (chapters st) + 1) in
    match uniqueId (usedIds st) ("chapter-" ++ ordinal) title ordinal with
    | Some (id, used') =>
        Some (mkParseState (introBlocks st)
                (List.app (chapters st) [mkChapterCell title id [] []])
                used' (Some (List.length (chapters st))) [] (heap st))
    | None => None
    end
  else
    match uniqueId (usedIds st) "section" text (showNat (i + 1)) with
    | Some (id, used') =>
        let st1 := mkParseState (introBlocks st) (chapters st) used'
                     (activeChapter st) (subsectionStack st) (heap st) in
        let st2 :=
          match activeChapter st1 with
          | Some a =>
              if Nat.leb 3 level then attachSubsection a id level text st1
              else Some st1
          | None => Some st1
          end in
        match st2 with
        | Some st2' => pushBlock (BHeading level text id) st2'
        | None => None
        end
    | None => None
    end.

(** Leading elements of [lines] that satisfy [p] ([while (i < lines.length
    && p(lines[i])) i += 1]). *)
Fixpoint takeLines (p : string -> bool) (lines : list string) : list string :=
  match lines with
  | l :: rest => if p l then l :: takeLines p rest else []
  | [] => []
  end.

(** The paragraph loop over the lines after the first: the trimmed lines
    absorbed, and whether the loop ended on a blank line (which it consumes). *)
Fixpoint paragraphLines (lines : list string) : list string * bool :=
  match lines with
  | [] => ([], false)
  | l :: rest =>
      let current := trim l in
      if isEmpty current then ([], true)
      else if isBoundary current then ([], false)
      else let '(more, blank) := paragraphLines rest in (current :: more, blank)
  end.

(** One iteration of the [for] loop at index [i], where [raw] is [lines[i]]
    and [rest] the lines after it: the number of lines the iteration
    consumes and the state it leaves. *)
Definition parseStep (i : nat) (raw : string) (rest : list string) (st : ParseState)
  : option (nat * ParseState) :=
  let line := trim raw in
  if isEmpty line then Some (1, st)
  else
    match matchHeading line with
    | Some (level, text) =>
        match processHeading i level (trim text) st with
        | Some st' => Some (1, st')
        | None => None
        end
    | None =>
        if testFence line then
          let lang := toLowerCase (trim (stripFence line)) in
          let codeLines := takeLines (fun l => negb (testFence (trim l))) rest in
          let closing := if Nat.ltb (List.length codeLines) (List.length rest) then 1 else 0 in
          match pushBlock (BCode lang (join LF codeLines)) st with
          | Some st' => Some (1 + List.length codeLines + closing, st')
          | None => None
          end
        else if testBullet line then
          let taken := takeLines (fun l => testBullet (trim l)) (raw :: rest) in
          match pushBlock (BUl (map (fun l => stripBullet (trim l)) taken)) st with
          | Some st' => Some (List.length taken, st')
          | None => None
          end
        else if testOrdered line then
          let taken := takeLines (fun l => testOrdered (trim l)) (raw :: rest) in
          match pushBlock (BOl (map (fun l => stripOrdered (trim l)) taken)) st with
          | Some st' => Some (List.length taken, st')
          | None => None
          end
        else if testQuote line then
          let taken := takeLines (fun l => testQuote (trim l)) (raw :: rest) in
          match pushBlock (BBlockquote (join " " (map (fun l => stripQuote (trim l)) taken))) st with
          | Some st' => Some (List.length taken, st')
          | None => None
          end
        else
          let '(more, blank) := paragraphLines rest in
          match pushBlock (BParagraph (join " " (line :: more))) st with
          | Some st' => Some (1 + List.length more + (if blank then 1 else 0), st')
          | None => None
          end
    end.

(** The [for (let i = 0; i < lines.length; )] loop.  [lines] is the part of
    the array from index [i] on; [skip] counts the lines the last iteration
    consumed beyond its first. *)
Fixpoint parseLoop (skip i : nat) (lines : list string) (st : ParseState)
  : option ParseState :=
  match lines with
  | [] => Some st
  | raw :: rest =>
      match skip with
      | S k => parseLoop k (S i) rest st
      | O =>
          match parseStep i raw rest st with
          | Some (n, st') => parseLoop (n - 1) (S i) rest st'
          | None => None
          end
      end
  end.

(** Following the references of the store. *)
Fixpoint mapOpt {A B : Type} (f : A -> option B) (l : list A) : option (list B) :=
  match l with
  | [] => Some []
  | x :: rest =>
      match f x, mapOpt f rest with
      | Some y, Some ys => Some (y :: ys)
      | _, _ => None
      end
  end.

Fixpoint resolveSub (fuel : nat) (hp : list SubNode) (r : nat) : option Subsection :=
  match fuel with
  | O => None
  | S f =>
      match nth_error hp r with
      | Some node =>
          match mapOpt (resolveSub f hp) (sn_children node) with
          | Some children =>
              Some (mkSubsection (sn_id node) (sn_level node) (sn_title node) children)
          | None => None
          end
      | None => None
      end
  end.

Definition resolveChapter (hp : list SubNode) (c : ChapterCell) : option Chapter :=
  match mapOpt (resolveSub (List.length hp) hp) (cc_subsections c) with
  | Some subs => Some (mkChapter (cc_title c) (cc_id c) (cc_blocks c) subs)
  | None => None
  end.

Definition bodyLines (markdown : string) : list string :=
  splitLines (normalizeNewlines markdown).

Definition parseState (markdown : string) : option ParseState :=
  parseLoop 0 0 (bodyLines markdown) initialState.

Definition parseMarkdown (markdown : string) : option Outline :=
  match parseState markdown with
  | Some st =>
      match mapOpt (resolveChapter (heap st)) (chapters st) with
      | Some chs => Some (mkOutline (introBlocks st) chs)
      | None => None
      end
  | None => None
  end.

(** ** The page assembler *)

Record Post : Type := mkPost {
  post_title : string;
  post_date : string;
  post_prettyDate : string;
  post_description : string;
  post_category : string;
  post_categorySlug : string;
  post_slug : string;
  post_urlPath : string;
  post_numberChapters : bool;
  post_showContents : bool
}.

(** [site.config.json]; a missing key is [None]. *)
Record Config : Type := mkConfig {
  siteTitle : option string;
  siteUrl : option string;
  siteDescription : option string
}.

(** [value || fallback] for a string or undefined [value]. *)
Definition orElse (value : option string) (fallback : string) : string :=
  match value with
  | Some s => if isEmpty s then fallback else s
  | None => fallback
  end.

(** Template text is written with [~] standing for the double quote. *)
Definition tpl (s : string) : string := replaceAllChar 126 QUOT s.

(** [parts.filter(Boolean)] on an array of strings. *)
Definition filterBoolean (parts : list string) : list string :=
  filter (fun s => negb (isEmpty s)) parts.

(** [array.map((x, index) => ...)]. *)
Fixpoint mapi {A B : Type} (f : A -> nat -> B) (index : nat) (l : list A) : list B :=
  match l with
  | [] => []
  | x :: rest => f x index :: mapi f (S index) rest
  end.

Definition tocOlOpen (depth : nat) : string :=
  tpl "              <ol class=~toc-sub depth-" ++ showNat depth ++ tpl "~>".

Definition tocOlClose : string := "              </ol>".

Definition tocLiOpen (level : nat) : string :=
  tpl "                <li class=~toc-sub-item level-" ++ showNat (Nat.min level 6) ++ tpl "~>".

Definition tocLink (id title : string) : string :=
  tpl "                  <a href=~#" ++ escapeAttr id ++ tpl "~>" ++ renderInline title ++ "</a>".

Definition tocLiClose : string := "                </li>".

(** What one [nodes.forEach] iteration pushes onto [lines] at [depth]; the
    nested list is the string that the recursive call returns. *)
Fixpoint tocNodeLines (depth : nat) (node : Subsection) {struct node} : list string :=
  match node with
  | mkSubsection id level title children =>
      let nested :=
        match children with
        | [] => []
        | _ :: _ =>
            [join LF (List.app (tocOlOpen (S depth) :: flat_map (tocNodeLines (S depth)) children)
                               [tocOlClose])]
        end in
      List.app (tocLiOpen level :: tocLink id title :: nested) [tocLiClose]
  end.

Definition renderTocSubsections (nodes : list Subsection) (depth : nat) : string :=
  match nodes with
  | [] => ""
  | _ :: _ =>
      join LF (List.app (tocOlOpen depth :: flat_map (tocNodeLines depth) nodes) [tocOlClose])
  end.

Definition chapterLabel (post : Post) (title : string) (index : nat) : string :=
  if post_numberChapters post then showNat (index + 1) ++ ". " ++ renderInline title
  else renderInline title.

Definition renderChapter (post : Post) (chapter : Chapter) (index : nat) : string :=
  let blocksHtml := join (LF ++ "            ") (map renderBlock (ch_blocks chapter)) in
  join LF (filterBoolean
    [ tpl "          <section id=~" ++ escapeAttr (ch_id chapter) ++ tpl "~ class=~chapter~>";
      "            <h2>" ++ chapterLabel post (ch_title chapter) index ++ "</h2>";
      if isEmpty blocksHtml then "" else "            " ++ blocksHtml;
      "          </section>" ]).

Definition introHtml (parsed : Outline) : string :=
  join (LF ++ "          ") (map renderBlock (o_introBlocks parsed)).

Definition chapterHtml (post : Post) (parsed : Outline) : string :=
  join (LF ++ LF) (mapi (renderChapter post) 0 (o_chapters parsed)).

Definition renderTocChapter (post : Post) (chapter : Chapter) (index : nat) : string :=
  let subsections := renderTocSubsections (ch_subsections chapter) 1 in
  join LF (filterBoolean
    [ "            <li>";
      tpl "              <a href=~#" ++ escapeAttr (ch_id chapter) ++ tpl "~>"
        ++ chapterLabel post (ch_title chapter) index ++ "</a>";
      subsections;
      "            </li>" ]).

Definition noChaptersEntry : string := tpl "            <li><a href=~#~>No chapters</a></li>".

Definition tocHtml (post : Post) (parsed : Outline) : string :=
  match o_chapters parsed with
  | [] => noChaptersEntry
  | _ :: _ => join LF (mapi (renderTocChapter post) 0 (o_chapters parsed))
  end.

Definition asideOpen : string := tpl "
        <aside class=~toc open~ aria-label=~Table of contents~>
          <button class=~toc-toggle~ type=~button~ aria-expanded=~true~ aria-controls=~toc-list~ aria-label=~Toggle contents~>
            <span class=~toc-toggle-icon~ aria-hidden=~true~></span>
          </button>
          <div class=~toc-panel~ id=~toc-list~>
            <h2>Contents</h2>
            <ol class=~toc-list~>
".

Definition asideClose : string := "
            </ol>
          </div>
        </aside>".

Definition tocAsideHtml (post : Post) (parsed : Outline) : string :=
  if post_showContents post then asideOpen ++ tocHtml post parsed ++ asideClose
  else "".

Definition pageSeg0 : string := tpl "<!doctype html>
<html lang=~en~>
  <head>
    <meta charset=~UTF-8~ />
    <meta name=~viewport~ content=~width=device-width, initial-scale=1.0~ />
    <title>".

Definition pageSeg1 : string := tpl " | ".

Definition pageSeg2 : string := tpl "</title>
    <meta
      name=~description~
      content=~".

Definition pageSeg3 : string := tpl "~
    />
    <meta name=~color-scheme~ content=~light dark~ />
    <script>
      (function () {
        var theme = 'light';
        try {
          var saved = localStorage.getItem('theme');
          if (saved === 'light' || saved === 'dark') {
            theme = saved;
          } else if (window.matchMedia('(prefers-color-scheme: dark)').matches) {
            theme = 'dark';
          }
        } catch (_error) {}
        var root = document.documentElement;
        root.setAttribute('data-theme', theme);
        root.style.backgroundColor = theme === 'dark' ? '#151515' : '#f2f0e8';
        root.style.colorScheme = theme;
      })();
    </script>
    <link rel=~preconnect~ href=~https://fonts.googleapis.com~ />
    <link rel=~preconnect~ href=~https://fonts.gstatic.com~ crossorigin />
    <link
      href=~https://fonts.googleapis.com/css2?family=Newsreader:opsz,wght@6..72,300;6..72,400;6..72,500;6..72,700&family=IBM+Plex+Sans:wght@400;500;600&display=swap~
      rel=~stylesheet~
    />
    <link rel=~stylesheet~ href=~../../styles.css~ />
  </head>
  <body class=~page-essay~>
    <div class=~grain~ aria-hidden=~true~></div>
    <div class=~essay-shell~>
      <header class=~essay-header~>
        <div class=~essay-meta-row~>
          <a class=~home-link~ href=~../../~>".

Definition pageSeg4 : string := tpl "</a>
          <button id=~theme-toggle~ class=~theme-toggle~ type=~button~ aria-label=~Toggle color theme~ aria-pressed=~false~></button>
        </div>
        <h1>".

Definition pageSeg5 : string := tpl "</h1>
        <p class=~dek~>".

Definition pageSeg6 : string := tpl "</p>
        <p class=~meta~>".

Definition pageSeg7 : string := tpl "</p>
      </header>

      <div class=~essay-layout~>
".

Definition pageSeg8 : string := tpl "

        <article class=~essay-content~>
          ".

Definition pageSeg9 : string := tpl "

".

Definition pageSeg10 : string := tpl "
        </article>
      </div>
    </div>
    <script src=~../../theme.js~ defer></script>
    <script src=~../../script.js~ defer></script>
  </body>
</html>
".

Definition assemblePage (post : Post) (config : Config) (parsed : Outline) : string :=
  pageSeg0 ++ escapeHtml (post_title post)
  ++ pageSeg1 ++ escapeHtml (orElse (siteTitle config) "Site")
  ++ pageSeg2 ++ escapeAttr (post_description post)
  ++ pageSeg3 ++ escapeHtml (orElse (siteTitle config) "Home")
  ++ pageSeg4 ++ renderInline (post_title post)
  ++ pageSeg5 ++ renderInline (post_description post)
  ++ pageSeg6 ++ escapeHtml (post_prettyDate post)
  ++ pageSeg7 ++ tocAsideHtml post parsed
  ++ pageSeg8 ++ introHtml parsed
  ++ pageSeg9 ++ chapterHtml post parsed
  ++ pageSeg10.

Definition buildPostHtml (post : Post) (config : Config) (markdown : string)
  : option string :=
  match parseMarkdown markdown with
  | Some parsed => Some (assemblePage post config parsed)
  | None => None
  end.

(** ** The front-matter parser *)

(** The errors the build throws, named after what they report: the two
    front-matter delimiter errors, a line without a colon, a missing or empty
    required field, a flag that is neither true nor false, a date that does
    not parse, and a generated URL path met twice.  [Stuck] is not an error
    of the script: it marks a run of the embedding that reached a fuel bound
    or a dangling reference. *)
Inductive BuildError : Type :=
| MissingFrontMatter
| UnterminatedFrontMatter
| InvalidFrontMatterLine (line : string)
| MissingField (fieldName : string)
| InvalidBooleanFlag (fieldName : string)
| InvalidDate (date : string)
| DuplicateOutputPath (urlPath : string)
| Stuck.

(** [s.indexOf(pat)] and [s.indexOf(pat, from)]. *)
Fixpoint indexOf (pat s : string) : option nat :=
  if startsWith pat s then Some 0
  else match s with
       | EmptyString => None
       | String _ s' =>
           match indexOf pat s' with
           | Some n => Some (S n)
           | None => None
           end
       end.

Definition indexOfFrom (pat : string) (from : nat) (s : string) : option nat :=
  if Nat.leb from (String.length s) then
    match indexOf pat (sdrop from s) with
    | Some n => Some (from + n)
    | None => None
    end
  else None.

Definition endsWith (p s : string) : bool :=
  Nat.leb (String.length p) (String.length s)
  && String.eqb (sdrop (String.length s - String.length p) s) p.

(** [value.slice(1, -1)]. *)
Definition sliceInner (value : string) : string :=
  stake (String.length value - 2) (sdrop 1 value).

(** The object [meta]: the binding written last for a key is the one read. *)
Definition Meta : Type := list (string * string).

Definition metaSet (key value : string) (meta : Meta) : Meta := (key, value) :: meta.

Fixpoint metaGet (key : string) (meta : Meta) : option string :=
  match meta with
  | [] => None
  | (k, v) :: rest => if String.eqb k key then Some v else metaGet key rest
  end.

Definition unquote (value : string) : string :=
  if (startsWith QUOT value && endsWith QUOT value)
     || (startsWith "'" value && endsWith "'" value)
  then sliceInner value else value.

Fixpoint parseMetaLines (lines : list string) (meta : Meta) : BuildError + Meta :=
  match lines with
  | [] => inr meta
  | line :: rest =>
      if isEmpty (trim line) then parseMetaLines rest meta
      else match indexOf ":" line with
           | None => inl (InvalidFrontMatterLine line)
           | Some split =>
               let key := trim (stake split line) in
               let value := unquote (trim (sdrop (split + 1) line)) in
               parseMetaLines rest (metaSet key value meta)
           end
  end.

Definition parseFrontMatter (content : string) : BuildError + (Meta * string) :=
  let source := normalizeNewlines content in
  if negb (startsWith ("---" ++ LF) source) then inl MissingFrontMatter
  else match indexOfFrom (LF ++ "---" ++ LF) 4 source with
       | None => inl UnterminatedFrontMatter
       | Some e =>
           match parseMetaLines (splitLines (stake (e - 4) (sdrop 4 source))) [] with
           | inl err => inl err
           | inr meta =>
               let rest := sdrop (e + 5) source in
               inr (meta, sdrop (spanLen (codeIs 10) rest) rest)
           end
       end.

Definition requireString (value : option string) (fieldName : string)
  : BuildError + string :=
  match value with
  | Some v => if isEmpty (trim v) then inl (MissingField fieldName) else inr (trim v)
  | None => inl (MissingField fieldName)
  end.

Definition parseBooleanFlag (value : option string) (fieldName : string)
    (defaultValue : bool) : BuildError + bool :=
  match value with
  | None => inr defaultValue
  | Some v =>
      if isEmpty v then inr defaultValue
      else
        let normalized := toLowerCase (trim v) in
        if String.eqb normalized "true" then inr true
        else if String.eqb normalized "false" then inr false
        else inl (InvalidBooleanFlag fieldName)
  end.

(** ** The corpus collector *)

(** The host functions the script calls: [Date.parse] of
    [`${date}T00:00:00Z`] ([None] for NaN), the two date formatters and
    [JSON.stringify(posts, null, 2)]. *)
Record Platform : Type := mkPlatform {
  dateParse : string -> option Z;
  toPrettyDate : string -> string;
  toRfc822Date : string -> string;
  stringifyPosts : list Post -> string
}.

(** What [readdir] and [readFile] find under [categories/]. *)
Record PostDir : Type := mkPostDir {
  pd_name : string;
  pd_isDirectory : bool;
  pd_content : option string     (* [content.md], when it can be read *)
}.

Record CategoryDir : Type := mkCategoryDir {
  cd_name : string;
  cd_isDirectory : bool;
  cd_entries : list PostDir
}.

(** A file written by [writeFileAtomic]: path below the repository root,
    and content. *)
Definition File : Type := (string * string)%type.

Record CollectState : Type := mkCollectState {
  posts : list Post;
  seenUrlPaths : list string;
  written : list File
}.

(** The outcome of a run: it returns, or it throws after the writes made so
    far. *)
Inductive Run (A : Type) : Type :=
| Done (value : A) (files : list File)
| Threw (error : BuildError) (files : list File).
Arguments Done {A} value files.
Arguments Threw {A} error files.

Definition urlPathOf (categorySlug slug : string) : string :=
  categorySlug ++ "/" ++ slug ++ "/".

Definition htmlPathOf (categorySlug slug : string) : string :=
  "build/" ++ categorySlug ++ "/" ++ slug ++ "/index.html".

(** The part of the loop body from [parseFrontMatter] to the construction
    of [post]. *)
Definition readPost (P : Platform) (categorySlug slug contentRaw : string)
  : BuildError + (Post * string) :=
  match parseFrontMatter contentRaw with
  | inl e => inl e
  | inr (meta, body) =>
  match requireString (metaGet "title" meta) "title" with
  | inl e => inl e
  | inr title =>
  match requireString (metaGet "description" meta) "description" with
  | inl e => inl e
  | inr description =>
  match requireString (Some (orElse (metaGet "category" meta) categorySlug)) "category" with
  | inl e => inl e
  | inr category =>
  match requireString (metaGet "date" meta) "date" with
  | inl e => inl e
  | inr date =>
  match parseBooleanFlag (metaGet "numberChapters" meta) "numberChapters" false with
  | inl e => inl e
  | inr numberChapters =>
  match parseBooleanFlag (metaGet "showContents" meta) "showContents" true with
  | inl e => inl e
  | inr showContents =>
  match dateParse P date with
  | None => inl (InvalidDate date)
  | Some _ =>
      inr (mkPost title date (toPrettyDate P date) description category
             categorySlug slug (urlPathOf categorySlug slug)
             numberChapters showContents, body)
  end end end end end end end end.

(** One iteration of the inner loop: what happens to the state, or the error
    thrown. *)
Definition processPost (P : Platform) (config : Config) (categorySlug : string)
    (postDir : PostDir) (st : CollectState) : BuildError + CollectState :=
  if negb (pd_isDirectory postDir) then inr st
  else
    match pd_content postDir with
    | None => inr st
    | Some contentRaw =>
        match readPost P categorySlug (pd_name postDir) contentRaw with
        | inl e => inl e
        | inr (post, body) =>
            if hasId (seenUrlPaths st) (post_urlPath post) then
              inl (DuplicateOutputPath (post_urlPath post))
            else
              match buildPostHtml post config body with
              | None => inl Stuck
              | Some html =>
                  inr (mkCollectState
                         (List.app (posts st) [post])
                         (List.app (seenUrlPaths st) [post_urlPath post])
                         (List.app (written st)
                            [(htmlPathOf categorySlug (pd_name postDir), html)]))
              end
        end
    end.

(** The two nested [for ... of] loops; an error leaves the loops with the
    state reached before the failing iteration. *)
Fixpoint processPostDirs (P : Platform) (config : Config) (categorySlug : string)
    (postDirs : list PostDir) (st : CollectState) : option BuildError * CollectState :=
  match postDirs with
  | [] => (None, st)
  | postDir :: rest =>
      match processPost P config categorySlug postDir st with
      | inl e => (Some e, st)
      | inr st' => processPostDirs P config categorySlug rest st'
      end
  end.

Fixpoint processCategoryDirs (P : Platform) (config : Config)
    (categoryDirs : list CategoryDir) (st : CollectState)
  : option BuildError * CollectState :=
  match categoryDirs with
  | [] => (None, st)
  | categoryDir :: rest =>
      if negb (cd_isDirectory categoryDir) then processCategoryDirs P config rest st
      else
        match processPostDirs P config (cd_name categoryDir) (cd_entries categoryDir) st with
        | (Some e, st') => (Some e, st')
        | (None, st') => processCategoryDirs P config rest st'
        end
  end.

(** The comparator [(a, b) => new Date(b) - new Date(a)]; a NaN result
    counts as 0 in [Array.prototype.sort]. *)
Definition compareByDate (P : Platform) (a b : Post) : Z :=
  match dateParse P (post_date b), dateParse P (post_date a) with
  | Some tb, Some ta => (tb - ta)%Z
  | _, _ => 0%Z
  end.

(** [Array.prototype.sort] is a stable sort: an element is placed in front
    of the first later element it must not follow. *)
Fixpoint insertSorted {A : Type} (cmp : A -> A -> Z) (x : A) (l : list A) : list A :=
  match l with
  | [] => [x]
  | y :: rest => if Z.leb (cmp x y) 0 then x :: l else y :: insertSorted cmp x rest
  end.

Fixpoint arraySort {A : Type} (cmp : A -> A -> Z) (l : list A) : list A :=
  match l with
  | [] => []
  | x :: rest => insertSorted cmp x (arraySort cmp rest)
  end.

Definition sortPosts (P : Platform) (unsorted : list Post) : list Post :=
  arraySort (compareByDate P) unsorted.

(** [collectPosts]: [categoryDirs] is [None] when [categories/] cannot be
    listed. *)
Definition collectPosts (P : Platform) (config : Config)
    (categoryDirs : option (list CategoryDir)) : Run (list Post) :=
  match categoryDirs with
  | None => Done [] []
  | Some dirs =>
      match processCategoryDirs P config dirs (mkCollectState [] [] []) with
      | (Some e, st) => Threw e (written st)
      | (None, st) => Done (sortPosts P (posts st)) (written st)
      end
  end.

(** ** The RSS feed and [main] *)

(** [(config.siteUrl || '').replace(/\/$/, '')]. *)
Definition stripTrailingSlash (s : string) : string :=
  if endsWith "/" s then stake (String.length s - 1) s else s.

Definition rssItem (P : Platform) (siteUrl : string) (post : Post) : string :=
  let link := siteUrl ++ "/" ++ post_urlPath post in
  join LF
    [ "    <item>";
      "      <title>" ++ xmlEscape (post_title post) ++ "</title>";
      "      <link>" ++ xmlEscape link ++ "</link>";
      "      <guid>" ++ xmlEscape link ++ "</guid>";
      "      <pubDate>" ++ xmlEscape (toRfc822Date P (post_date post)) ++ "</pubDate>";
      "      <description>" ++ xmlEscape (post_description post) ++ "</description>";
      "    </item>" ].

Definition rssItems (P : Platform) (config : Config) (sorted : list Post) : list string :=
  map (rssItem P (stripTrailingSlash (orElse (siteUrl config) ""))) sorted.

Definition renderRss (P : Platform) (config : Config) (sorted : list Post) : string :=
  let siteUrl := stripTrailingSlash (orElse (siteUrl config) "") in
  join LF
    [ tpl "<?xml version=~1.0~ encoding=~UTF-8~ ?>";
      tpl "<rss version=~2.0~>";
      "  <channel>";
      "    <title>" ++ xmlEscape (orElse (siteTitle config) "Site") ++ "</title>";
      "    <link>" ++ xmlEscape (siteUrl ++ "/") ++ "</link>";
      "    <description>" ++ xmlEscape (orElse (siteDescription config) "") ++ "</description>";
      "    <language>en-us</language>";
      join LF (rssItems P config sorted);
      "  </channel>";
      "</rss>";
      "" ].

(** [main] from the call of [collectPosts] on: the pages, then the index
    and the feed.  What [main] does before, reading the configuration and
    copying the static assets, is not part of the model: [config] is the
    configuration read, and the files listed are those that [collectPosts]
    and the two last calls write. *)
Definition main (P : Platform) (config : Config)
    (categoryDirs : option (list CategoryDir)) : Run unit :=
  match collectPosts P config categoryDirs with
  | Threw e files => Threw e files
  | Done sorted files =>
      Done tt (List.app files
                 [ ("build/content/posts.json", stringifyPosts P sorted ++ LF);
                   ("build/rss.xml", renderRss P config sorted) ])
  end.

(** ** A host for worked examples

    Calendar dates [YYYY-MM-DD] in the proleptic Gregorian calendar, the
    [en-US] long date and the [toUTCString] form of midnight UTC.  This
    host agrees with Node on the dates of the calendar; it rejects every
    other string, also those that [Date.parse] reads leniently (a day
    number up to 31 in a shorter month, which Node carries over into the
    next month).  The properties are proved for every [Platform]; this one
    is used only to evaluate examples, all of them on dates of the
    calendar. *)

Definition allDigits (s : string) : bool := negb (isEmpty s) && sforallb isDigit s.

Definition isLeapYear (y : nat) : bool :=
  (Nat.eqb (y mod 4) 0 && negb (Nat.eqb (y mod 100) 0)) || Nat.eqb (y mod 400) 0.

Definition daysInMonth (y m : nat) : nat :=
  match m with
  | 2 => if isLeapYear y then 29 else 28
  | 4 | 6 | 9 | 11 => 30
  | _ => 31
  end.

(** Year, month and day of a well-formed date. *)
Definition isoFields (date : string) : option (nat * nat * nat) :=
  let y := stake 4 date in
  let m := stake 2 (sdrop 5 date) in
  let d := stake 2 (sdrop 8 date) in
  if Nat.eqb (String.length date) 10
     && allDigits y && allDigits m && allDigits d
     && startsWith "-" (sdrop 4 date) && startsWith "-" (sdrop 7 date)
  then
    let yv := digitsValue y in
    let mv := digitsValue m in
    let dv := digitsValue d in
    if Nat.leb 1 mv && Nat.leb mv 12 && Nat.leb 1 dv && Nat.leb dv (daysInMonth yv mv)
    then Some (yv, mv, dv) else None
  else None.

(** Days since 1970-01-01. *)
Definition daysFromCivil (y m d : nat) : Z :=
  let y' := (if Nat.leb m 2 then Z.of_nat y - 1 else Z.of_nat y)%Z in
  let era := (y' / 400)%Z in
  let yoe := (y' - era * 400)%Z in
  let mp := (if Nat.leb m 2 then Z.of_nat m + 9 else Z.of_nat m - 3)%Z in
  let doy := ((153 * mp + 2) / 5 + Z.of_nat d - 1)%Z in
  let doe := (yoe * 365 + yoe / 4 - yoe / 100 + doy)%Z in
  (era * 146097 + doe - 719468)%Z.

Definition isoDateParse (date : string) : option Z :=
  match isoFields date with
  | Some (y, m, d) => Some (daysFromCivil y m d * 86400000)%Z
  | None => None
  end.

Definition monthName (m : nat) : string :=
  nth (m - 1)
    ["January"; "February"; "March"; "April"; "May"; "June"; "July";
     "August"; "September"; "October"; "November"; "December"] "".

Definition dayName (days : Z) : string :=
  nth (Z.to_nat ((days + 4) mod 7))
    ["Sun"; "Mon"; "Tue"; "Wed"; "Thu"; "Fri"; "Sat"] "".

Definition isoPrettyDate (date : string) : string :=
  match isoFields date with
  | Some (y, m, d) => monthName m ++ " " ++ showNat d ++ ", " ++ showNat y
  | None => "Invalid Date"
  end.

Definition isoRfc822Date (date : string) : string :=
  match isoFields date with
  | Some (y, m, d) =>
      dayName (daysFromCivil y m d) ++ ", " ++ stake 2 (sdrop 8 date) ++ " "
        ++ stake 3 (monthName m) ++ " " ++ stake 4 date ++ " 00:00:00 GMT"
  | None => "Invalid Date"
  end.

(** The titles and URL paths, one per line, stand in for the JSON text. *)
Definition listPosts (sorted : list Post) : string :=
  join LF (map (fun p => post_urlPath p ++ " " ++ post_title p) sorted).

Definition isoPlatform : Platform :=
  mkPlatform isoDateParse isoPrettyDate isoRfc822Date listPosts.

(** ** Vocabulary of the properties *)

(** [s] has no character of code [n]. *)
Definition noChar (n : nat) (s : string) : Prop := sforallb (notCode n) s = true.

(** [sub] occurs in [s]. *)
Definition Contains (sub s : string) : Prop :=
  exists before after, s = before ++ sub ++ after.

(** The anchor ids of the headings among [blocks], in order. *)
Definition blockIds (blocks : list Block) : list string :=
  flat_map (fun b => match b with BHeading _ _ id => [id] | _ => [] end) blocks.

Definition cellIds (c : ChapterCell) : list string := cc_id c :: blockIds (cc_blocks c).

Definition stateIds (st : ParseState) : list string :=
  List.app (blockIds (introBlocks st)) (flat_map cellIds (chapters st)).

Definition chapterIds (c : Chapter) : list string := ch_id c :: blockIds (ch_blocks c).

(** Every anchor id of an outline, in document order: the headings of the
    intro, then each chapter's own id followed by its headings. *)
Definition outlineIds (o : Outline) : list string :=
  List.app (blockIds (o_introBlocks o)) (flat_map chapterIds (o_chapters o)).

(** Every block of an outline, in document order. *)
Definition outlineBlocks (o : Outline) : list Block :=
  List.app (o_introBlocks o) (flat_map ch_blocks (o_chapters o)).

(** [id] is [base], or [base] with a suffix [-n] for some [n] from 2 on. *)
Definition idHasBase (id base : string) : Prop :=
  id = base \/ exists n, 2 <= n /\ id = base ++ "-" ++ showNat n.

(** The string [base] that [uniqueId] starts from for a heading with text
    [text] at line index [i], in state [st]. *)
Definition headingBase (i level : nat) (text : string) (st : ParseState) : string :=
  if Nat.eqb level 2 then
    let ordinal := showNat (List.length (chapters st) + 1) in
    idBase ("chapter-" ++ ordinal) (normalizeChapterTitle text) ordinal
  else idBase "section" text (showNat (i + 1)).

(** Each child of a subsection has a strictly greater level, all the way
    down. *)
#[warnings="-register-all"]
Inductive LevelsIncrease : Subsection -> Prop :=
| LevelsIncrease_node id level title children :
    Forall (fun c => level < sub_level c) children ->
    Forall LevelsIncrease children ->
    LevelsIncrease (mkSubsection id level title children).

(** [AtDepth d n forest]: [n] sits at depth [d] of the trees of [forest],
    the roots being at depth 1. *)
Inductive AtDepth : nat -> Subsection -> list Subsection -> Prop :=
| AtDepth_root n forest : In n forest -> AtDepth 1 n forest
| AtDepth_below d n m forest :
    In m forest -> AtDepth d n (sub_children m) -> AtDepth (S d) n forest.

(** The invariant of the structurer's loop. *)
Definition activeOk (st : ParseState) : Prop :=
  match activeChapter st with
  | None => chapters st = []
  | Some a => S a = List.length (chapters st)
  end.

Definition refsBelow (bound : nat) (refs : list nat) : Prop :=
  Forall (fun r => r < bound) refs.

Definition heapOk (hp : list SubNode) : Prop :=
  forall p node, nth_error hp p = Some node ->
    Forall (fun c => p < c /\ c < List.length hp) (sn_children node).

Definition levelsOk (hp : list SubNode) : Prop :=
  forall p node c cnode,
    nth_error hp p = Some node -> In c (sn_children node) ->
    nth_error hp c = Some cnode -> sn_level node < sn_level cnode.

Record WF (st : ParseState) : Prop := mkWF {
  wf_active : activeOk st;
  wf_stack : refsBelow (List.length (heap st)) (subsectionStack st);
  wf_subs : Forall (fun c => refsBelow (List.length (heap st)) (cc_subsections c))
              (chapters st);
  wf_heap : heapOk (heap st);
  wf_levels : levelsOk (heap st);
  wf_nodup : NoDup (stateIds st);
  wf_used : incl (stateIds st) (usedIds st)
}.

(** A line that the loop would take as a level-2 heading. *)
Definition isChapterLine (raw : string) : bool :=
  match matchHeading (trim raw) with
  | Some (level, _) => Nat.eqb level 2
  | None => false
  end.

(** The timestamp the comparator reads from a post. *)
Definition postTime (P : Platform) (p : Post) : Z :=
  match dateParse P (post_date p) with
  | Some t => t
  | None => 0%Z
  end.

Definition validDate (P : Platform) (p : Post) : Prop :=
  dateParse P (post_date p) <> None.

(** The documents that the two loops of [collectPosts] read, in the order
    they are met: category slug, post slug, text of [content.md]. *)
Definition Document : Type := (string * string * string)%type.

Definition documentsOf (categoryDir : CategoryDir) : list Document :=
  if cd_isDirectory categoryDir then
    flat_map (fun postDir =>
                if pd_isDirectory postDir then
                  match pd_content postDir with
                  | Some contentRaw => [(cd_name categoryDir, pd_name postDir, contentRaw)]
                  | None => []
                  end
                else [])
             (cd_entries categoryDir)
  else [].

Definition sourceDocuments (categoryDirs : list CategoryDir) : list Document :=
  flat_map documentsOf categoryDirs.

Definition docPair (d : Document) : string * string := (fst (fst d), snd (fst d)).

Definition docUrlPath (d : Document) : string := urlPathOf (fst (fst d)) (snd (fst d)).



(** A document whose front matter is accepted. *)
Definition documentOk (P : Platform) (d : Document) : Prop :=
  exists post body, readPost P (fst (fst d)) (snd (fst d)) (snd d) = inr (post, body).

Definition postPair (p : Post) : string * string := (post_categorySlug p, post_slug p).

(** The errors that reject a document by itself. *)
Definition isDocumentError (e : BuildError) : bool :=
  match e with
  | DuplicateOutputPath _ | Stuck => false
  | _ => true
  end.

(** What holds of the collector's state between two documents. *)
Record CollectInv (P : Platform) (st : CollectState) : Prop := mkCollectInv {
  ci_seen : seenUrlPaths st = map post_urlPath (posts st);
  ci_nodup : NoDup (seenUrlPaths st);
  ci_dates : Forall (validDate P) (posts st);
  ci_pages : forall p, In p (posts st) ->
      post_urlPath p = urlPathOf (post_categorySlug p) (post_slug p)
      /\ exists html, In (htmlPathOf (post_categorySlug p) (post_slug p), html) (written st)
}.

(** Order and selection by a numeric key. *)
Definition descendingBy {A : Type} (key : A -> Z) (a b : A) : Prop := (key b <= key a)%Z.

Definition keyIs {A : Type} (key : A -> Z) (t : Z) (x : A) : bool := Z.eqb (key x) t.

(** The state reached after the documents [docs], and the error, if any:
    the two loops of [collectPosts] seen as one pass over the documents. *)
Fixpoint processDocs (P : Platform) (config : Config) (docs : list Document)
    (st : CollectState) : option BuildError * CollectState :=
  match docs with
  | [] => (None, st)
  | (categorySlug, slug, contentRaw) :: rest =>
      match processPost P config categorySlug (mkPostDir slug true (Some contentRaw)) st with
      | inl e => (Some e, st)
      | inr st' => processDocs P config rest st'
      end
  end.

(** ** Worked examples *)

Definition exampleDoc (title date : string) : string :=
  "---" ++ LF ++ "title: " ++ title ++ LF ++ "description: A test" ++ LF
    ++ "date: " ++ date ++ LF ++ "---" ++ LF ++ "## First" ++ LF ++ "text".

Definition exampleConfig : Config :=
  mkConfig (Some "Site") (Some "https://example.org/") None.

Definition examplePost (title date pretty slug : string) : Post :=
  mkPost title date pretty "A test" "essays" "essays" slug
    (urlPathOf "essays" slug) false true.

(** Two documents, the older one met first. *)
Definition twoDated : list CategoryDir :=
  [mkCategoryDir "essays" true
     [mkPostDir "january" true (Some (exampleDoc "January" "2026-01-01"));
      mkPostDir "february" true (Some (exampleDoc "February" "2026-02-01"))]].

(** ** Vocabulary of the further properties *)

(** What [escapeHtml] makes of one character. *)
Definition escapeChar (c : ascii) : string :=
  if codeIs 38 c then "&amp;"
  else if codeIs 60 c then "&lt;"
  else if codeIs 62 c then "&gt;"
  else if codeIs 34 c then "&quot;"
  else if codeIs 39 c then "&#39;"
  else String c EmptyString.

Fixpoint sflatMap (f : ascii -> string) (s : string) : string :=
  match s with
  | EmptyString => EmptyString
  | String c s' => f c ++ sflatMap f s'
  end.

(** The five characters that [escapeHtml] replaces. *)
Definition isHtmlSensitive (c : ascii) : bool :=
  codeIs 38 c || codeIs 60 c || codeIs 62 c || codeIs 34 c || codeIs 39 c.

(** The characters of a slug. *)
Definition isSlugOut (c : ascii) : bool := isLowerAlpha c || isDigit c || codeIs 45 c.

(** No two neighbouring characters of [s] both satisfy [p]. *)
Fixpoint noAdjacent (p : ascii -> bool) (s : string) : bool :=
  match s with
  | EmptyString => true
  | String a t =>
      match t with
      | EmptyString => true
      | String b _ => negb (p a && p b)
      end && noAdjacent p t
  end.

(** [s] is empty or starts with a character that does not satisfy [p]. *)
Definition headNot (p : ascii -> bool) (s : string) : bool :=
  match s with
  | EmptyString => true
  | String a _ => negb (p a)
  end.

(** The matcher inside [collapseRuns]. *)
Definition runMatcher (p : ascii -> bool) (rep : string) (t : string)
  : option (string * nat) :=
  match spanLen p t with
  | O => None
  | n => Some (rep, n)
  end.

(** The characters that start an inline construct or an entity. *)
Definition isInlineMarkup (c : ascii) : bool :=
  isHtmlSensitive c || codeIs 96 c || codeIs 91 c || codeIs 42 c || codeIs 95 c.

(** Title and anchor id of each chapter, in order. *)
Definition chapterHeaders (st : ParseState) : list (string * string) :=
  map (fun c => (cc_title c, cc_id c)) (chapters st).

(** [P] holds of a subsection and of all its descendants. *)
#[warnings="-register-all"]
Inductive AllNodes (P : Subsection -> Prop) : Subsection -> Prop :=
| AllNodes_node id level title children :
    P (mkSubsection id level title children) ->
    Forall (AllNodes P) children ->
    AllNodes P (mkSubsection id level title children).

(** A line that opens or continues a paragraph: not blank, and not the
    start of another block. *)
Definition isPlainLine (raw : string) : bool :=
  negb (isEmpty (trim raw)) && negb (isBoundary (trim raw)).

Definition docHtmlPath (d : Document) : string := htmlPathOf (fst (fst d)) (snd (fst d)).

(** Document [d] is accepted as post [fst pf] and rendered to the page file
    [snd pf]. *)
Definition rendered (P : Platform) (config : Config) (d : Document) (pf : Post * File)
  : Prop :=
  exists body html,
    readPost P (fst (fst d)) (snd (fst d)) (snd d) = inr (fst pf, body)
    /\ buildPostHtml (fst pf) config body = Some html
    /\ snd pf = (docHtmlPath d, html).

(** The fields of a post that [collectPosts] has validated. *)
Definition trimmedField (s : string) : Prop := isEmpty s = false /\ trim s = s.

Definition wellFormedPost (P : Platform) (p : Post) : Prop :=
  trimmedField (post_title p) /\ trimmedField (post_description p)
  /\ trimmedField (post_category p) /\ trimmedField (post_date p)
  /\ validDate P p
  /\ post_urlPath p = urlPathOf (post_categorySlug p) (post_slug p).

Definition withSiteUrl (config : Config) (url : string) : Config :=
  mkConfig (siteTitle config) (Some url) (siteDescription config).

(** What holds of every entry of the [meta] object that [parseFrontMatter]
    returns. *)
Definition metaEntryOk (kv : string * string) : Prop :=
  trim (fst kv) = fst kv /\ noChar 58 (fst kv) /\ noChar 10 (snd kv).

(** A front matter block written one [key: value] per line, followed by
    the body. *)
Definition frontMatterLine (kv : string * string) : string :=
  fst kv ++ ": " ++ snd kv.

Definition frontMatterText (kvs : list (string * string)) (body : string) : string :=
  ("---" ++ LF) ++ join LF (map frontMatterLine kvs) ++ (LF ++ "---" ++ LF) ++ body.

(** The key [__proto__] is left out: assigning a string to it does not
    add a property to the object. *)
Definition plainKey (k : string) : Prop :=
  trim k = k /\ noChar 58 k /\ noChar 10 k /\ noChar 13 k /\ k <> "__proto__"
  /\ isAsciiText k = true.

Definition plainValue (v : string) : Prop :=
  trim v = v /\ unquote v = v /\ noChar 10 v /\ noChar 13 v /\ isAsciiText v = true.






(** ** The subsection tree, read off the headings

    The headings of a chapter that become subsections, as leaves in the
    order of the chapter's blocks, and the forest they make: a heading goes
    below the last tree of the forest as long as the root of that tree has
    a smaller level, and there below the last child with a smaller level,
    and so on; where the last tree has no smaller level, or there is none,
    the heading is appended.  So the parent of a heading is the nearest
    heading before it with a smaller level, and headings are siblings only
    while no heading of their level or a smaller one has come between. *)
Definition sectionHeadings (blocks : list Block) : list Subsection :=
  flat_map (fun b => match b with
                     | BHeading level text id =>
                         if Nat.leb 3 level then [mkSubsection id level text []] else []
                     | _ => []
                     end) blocks.

Fixpoint updLast {A : Type} (f : A -> list A) (dflt : list A) (l : list A) : list A :=
  match l with
  | [] => dflt
  | x :: rest =>
      match rest with
      | [] => f x
      | _ :: _ => x :: updLast f dflt rest
      end
  end.

Fixpoint placeBelow (h t : Subsection) {struct t} : Subsection :=
  match t with
  | mkSubsection id level title children =>
      mkSubsection id level title
        (updLast (fun c => if Nat.ltb (sub_level c) (sub_level h)
                           then [placeBelow h c] else [c; h])
                 [h] children)
  end.

Definition insertHeading (h : Subsection) (forest : list Subsection) : list Subsection :=
  updLast (fun c => if Nat.ltb (sub_level c) (sub_level h) then [placeBelow h c] else [c; h])
          [h] forest.

Definition forestOf (headings : list Subsection) : list Subsection :=
  fold_left (fun forest h => insertHeading h forest) headings [].

(** [Denotes hp lo hi r t]: following the references from [r] in the store
    [hp] gives the tree [t], and every position visited is in [lo, hi). *)
Inductive Denotes (hp : list SubNode) (lo hi : nat) : nat -> Subsection -> Prop :=
| Denotes_node r node kids :
    lo <= r -> r < hi -> nth_error hp r = Some node ->
    DenotesAll hp lo hi (sn_children node) kids ->
    Denotes hp lo hi r (mkSubsection (sn_id node) (sn_level node) (sn_title node) kids)
with DenotesAll (hp : list SubNode) (lo hi : nat) : list nat -> list Subsection -> Prop :=
| DenotesAll_nil : DenotesAll hp lo hi [] []
| DenotesAll_cons r t rs ts :
    Denotes hp lo hi r t -> DenotesAll hp lo hi rs ts ->
    DenotesAll hp lo hi (r :: rs) (t :: ts).

Scheme Denotes_mut := Minimality for Denotes Sort Prop
  with DenotesAll_mut := Minimality for DenotesAll Sort Prop.

(** [Spine hp lo refs stack forest]: the references [refs] denote [forest],
    and [stack] (bottom first) is the chain of last children from the last
    of [refs] down to a leaf; the subsections before a stack entry lie
    below it in the store. *)
Inductive Spine (hp : list SubNode) : nat -> list nat -> list nat -> list Subsection -> Prop :=
| Spine_leaf lo : Spine hp lo [] [] []
| Spine_step lo init s stack node Finit Fkids :
    lo <= s ->
    DenotesAll hp lo s init Finit ->
    nth_error hp s = Some node ->
    Spine hp (S s) (sn_children node) stack Fkids ->
    Spine hp lo (List.app init [s]) (s :: stack)
      (List.app Finit [mkSubsection (sn_id node) (sn_level node) (sn_title node) Fkids]).

(** The entries of the stack (bottom first) that the pop loop keeps for an
    incoming [level], and the levels going up along the stack. *)
Fixpoint keepOf (hp : list SubNode) (level : nat) (stack : list nat) : list nat :=
  match stack with
  | [] => []
  | s :: rest =>
      match nth_error hp s with
      | Some node =>
          if Nat.ltb (sn_level node) level then s :: keepOf hp level rest else []
      | None => []
      end
  end.

Fixpoint ascending (hp : list SubNode) (lower : nat) (stack : list nat) : Prop :=
  match stack with
  | [] => True
  | s :: rest =>
      exists node, nth_error hp s = Some node /\ lower <= sn_level node
                   /\ ascending hp (S (sn_level node)) rest
  end.

(** What the loop keeps true of the chapters: the subsections of a chapter
    that is closed denote, below position [bound] of the store, the forest
    of its headings; those of the active chapter do so at or above it,
    with the stack as their spine. *)
Definition forestsOk (st : ParseState) : Prop :=
  exists bound,
    bound <= List.length (heap st)
    /\ (forall k c, nth_error (chapters st) k = Some c -> activeChapter st <> Some k ->
          DenotesAll (heap st) 0 bound (cc_subsections c)
            (forestOf (sectionHeadings (cc_blocks c))))
    /\ (forall a c, activeChapter st = Some a -> nth_error (chapters st) a = Some c ->
          Spine (heap st) bound (cc_subsections c) (rev (subsectionStack st))
            (forestOf (sectionHeadings (cc_blocks c)))).


(** ** The table of contents, line by line *)

(** The lines of the markup of a nested list, as they read in the page:
    the line that opens the list rendered at [depth], the line that opens
    the item of a subsection of level [level], and the line of its link. *)
Definition tocListLine (depth : nat) : string :=
  "              <ol class=" ++ QUOT ++ "toc-sub depth-" ++ showNat depth ++ QUOT ++ ">".

Definition tocItemLine (level : nat) : string :=
  "                <li class=" ++ QUOT ++ "toc-sub-item level-" ++ showNat level ++ QUOT ++ ">".

Definition tocLinkLine (id title : string) : string :=
  "                  <a href=" ++ QUOT ++ "#" ++ escapeAttr id ++ QUOT ++ ">"
  ++ renderInline title ++ "</a>".

(** Nesting read off rendered lines: a line whose markup starts with
    [<ol] opens a list, one that starts with [</ol>] closes the list
    opened last.  [openLists lines] is the stack of the opening lines of
    the lists still open after [lines], the innermost first. *)
Definition isOlOpen (line : string) : bool := startsWith "<ol" (trimStart line).

Definition isOlClose (line : string) : bool := startsWith "</ol>" (trimStart line).

Definition olStep (stack : list string) (line : string) : list string :=
  if isOlOpen line then line :: stack
  else if isOlClose line then tl stack
  else stack.

Definition openLists (lines : list string) : list string := fold_left olStep lines [].

(** The lines that one subsection contributes at [depth], the nested list
    given line by line. *)
Fixpoint tocFlat (depth : nat) (node : Subsection) {struct node} : list string :=
  match node with
  | mkSubsection id level title children =>
      let nested :=
        match children with
        | [] => []
        | _ :: _ =>
            List.app (tocOlOpen (S depth) :: flat_map (tocFlat (S depth)) children)
                     [tocOlClose]
        end in
      List.app (tocLiOpen level :: tocLink id title :: nested) [tocLiClose]
  end.

(** Neither the id nor the title holds a line feed. *)
Definition onOneLine (id title : string) : Prop := noChar 10 id /\ noChar 10 title.
(** * Properties *)

(** ** Strings *)

Lemma sappend_assoc (a b c : string) : (a ++ b) ++ c = a ++ (b ++ c).
Proof. induction a as [|ch a IH]; simpl; [reflexivity | now rewrite IH]. Qed.

Lemma sappend_empty_r (a : string) : a ++ "" = a.
Proof. induction a as [|ch a IH]; simpl; [reflexivity | now rewrite IH]. Qed.

Lemma sappend_length (a b : string) :
  String.length (a ++ b) = String.length a + String.length b.
Proof. induction a as [|ch a IH]; simpl; [reflexivity | now rewrite IH]. Qed.

Lemma sappend_inv_head (a b c : string) : a ++ b = a ++ c -> b = c.
Proof.
  induction a as [|ch a IH]; simpl; intros H; [exact H | ].
  injection H as H. now apply IH.
Qed.

Lemma sforallb_app (p : ascii -> bool) (a b : string) :
  sforallb p (a ++ b) = sforallb p a && sforallb p b.
Proof.
  induction a as [|ch a IH]; simpl; [reflexivity | ].
  now rewrite IH, andb_assoc.
Qed.

Lemma startsWith_app (p s : string) : startsWith p (p ++ s) = true.
Proof.
  unfold startsWith. induction p as [|ch p IH]; simpl.
  - now destruct s.
  - destruct (ascii_dec ch ch) as [_|ne]; [exact IH | now elim ne].
Qed.

(** [String(n)] is injective. *)
Lemma showNat_inj (n m : nat) : showNat n = showNat m -> n = m.
Proof.
  unfold showNat. intros H.
  apply Unsigned.to_uint_inj.
  assert (E : NilEmpty.uint_of_string (NilEmpty.string_of_uint (Nat.to_uint n))
              = NilEmpty.uint_of_string (NilEmpty.string_of_uint (Nat.to_uint m)))
    by now rewrite H.
  rewrite !NilEmpty.usu in E. now injection E.
Qed.

(** ** Escaping leaves no markup character *)

Lemma replaceAllChar_removes (n : nat) (rep s : string) :
  noChar n rep -> noChar n (replaceAllChar n rep s).
Proof.
  unfold noChar. intros Hrep. induction s as [|c s IH]; simpl; [reflexivity | ].
  destruct (codeIs n c) eqn:E.
  - now rewrite sforallb_app, Hrep, IH.
  - simpl. unfold notCode at 1. now rewrite E, IH.
Qed.

Lemma replaceAllChar_keeps (m n : nat) (rep s : string) :
  noChar m rep -> noChar m s -> noChar m (replaceAllChar n rep s).
Proof.
  unfold noChar. intros Hrep. induction s as [|c s IH]; simpl; [reflexivity | ].
  intros H. apply andb_true_iff in H as [Hc Hs].
  destruct (codeIs n c).
  - now rewrite sforallb_app, Hrep, IH.
  - simpl. now rewrite Hc, IH.
Qed.

Local Ltac no_char :=
  repeat first
    [ apply replaceAllChar_removes; reflexivity
    | apply replaceAllChar_keeps; [reflexivity | ] ].

Lemma escapeHtml_no_markup (s : string) :
  noChar 60 (escapeHtml s) /\ noChar 62 (escapeHtml s)
  /\ noChar 34 (escapeHtml s) /\ noChar 39 (escapeHtml s).
Proof. unfold escapeHtml. repeat split; no_char. Qed.

(** C5.  The renderer is injection-safe on the two inputs of the
    specification: [<script>&</script>] comes out as entity text without a
    single [<] or [>], and the code span around [<b>] comes out as escaped
    angle brackets inside a [code] element.  In general the escaping pass
    that every input goes through first leaves none of the characters
    [<], [>], double quote and apostrophe. *)
Theorem renderInline_injection_safe :
  renderInline "<script>&</script>" = "&lt;script&gt;&amp;&lt;/script&gt;"
  /\ noChar 60 (renderInline "<script>&</script>")
  /\ noChar 62 (renderInline "<script>&</script>")
  /\ renderInline "`<b>`" = "<code>&lt;b&gt;</code>"
  /\ (forall raw, noChar 60 (escapeHtml raw) /\ noChar 62 (escapeHtml raw)
                  /\ noChar 34 (escapeHtml raw) /\ noChar 39 (escapeHtml raw)).
Proof.
  split; [vm_compute; reflexivity | ].
  split; [vm_compute; reflexivity | ].
  split; [vm_compute; reflexivity | ].
  split; [vm_compute; reflexivity | ].
  exact escapeHtml_no_markup.
Qed.

(** C4.  The passes run in the order escape, code spans, links, bold,
    italic, restore; but a link target is taken from the text that is
    already escaped and is escaped again by [escapeAttr]: the ampersand of
    [http://x?a=1&b=2] reaches the page as [&amp;amp;], while the same
    character in a code span is escaped once. *)
Theorem renderInline_link_target_escaped_twice :
  (forall raw,
      renderInline raw
      = passRestore (snd (passCode (escapeHtml raw)))
          (passItalic (passBold (passLinks (fst (passCode (escapeHtml raw)))))))
  /\ renderInline "[a](http://x?a=1&b=2)"
     = "<a href=" ++ QUOT ++ "http://x?a=1&amp;amp;b=2" ++ QUOT ++ ">a</a>"
  /\ escapeAttr "http://x?a=1&b=2" = "http://x?a=1&amp;b=2"
  /\ renderInline "`a&b`" = "<code>a&amp;b</code>".
Proof.
  split.
  - intros raw. unfold renderInline, passRestore, passItalic, passBold, passLinks, passCode.
    now destruct (replaceGSt codeSpanMatch 0 [] (escapeHtml raw)).
  - repeat split; vm_compute; reflexivity.
Qed.

(** C10.  A heading block of level 5 or 6 is rendered as an [h4] element
    (the tag level is the block level clamped to 1..4), with the anchor id
    as its [id] attribute; the level kept in the outline is the original
    one, which is what the table of contents shows.  *)
Theorem renderBlock_heading_clamped :
  (forall text id,
      renderBlock (BHeading 5 text id)
      = "<h4 id=" ++ QUOT ++ escapeAttr id ++ QUOT ++ ">" ++ renderInline text ++ "</h4>"
      /\ renderBlock (BHeading 6 text id)
         = "<h4 id=" ++ QUOT ++ escapeAttr id ++ QUOT ++ ">" ++ renderInline text ++ "</h4>")
  /\ (forall level text id,
         exists tag, tag = Nat.min (Nat.max level 1) 4 /\ 1 <= tag <= 4
           /\ renderBlock (BHeading level text id)
              = "<h" ++ showNat tag ++ " id=" ++ QUOT ++ escapeAttr id ++ QUOT ++ ">"
                  ++ renderInline text ++ "</h" ++ showNat tag ++ ">")
  /\ parseMarkdown ("## C" ++ LF ++ "##### Deep" ++ LF ++ "###### Deeper")
     = Some (mkOutline []
               [mkChapter "C" "chapter-1-c"
                  [BHeading 5 "Deep" "section-deep"; BHeading 6 "Deeper" "section-deeper"]
                  [mkSubsection "section-deep" 5 "Deep"
                     [mkSubsection "section-deeper" 6 "Deeper" []]]])
  /\ tocLiOpen 5 = tpl "                <li class=~toc-sub-item level-5~>"
  /\ renderBlock (BHeading 5 "Deep" "section-deep")
     = "<h4 id=" ++ QUOT ++ "section-deep" ++ QUOT ++ ">Deep</h4>".
Proof.
  split; [intros text id; split; reflexivity | ].
  split.
  - intros level text id. exists (Nat.min (Nat.max level 1) 4).
    split; [reflexivity | ]. split; [lia | reflexivity].
  - repeat split; vm_compute; reflexivity.
Qed.

(** ** The anchor-id registry *)

Lemma hasId_In (ids : list string) (id : string) : hasId ids id = true <-> In id ids.
Proof.
  unfold hasId. rewrite existsb_exists. split.
  - intros [x [Hin Heq]]. apply String.eqb_eq in Heq. now subst.
  - intros Hin. exists id. split; [exact Hin | apply String.eqb_refl].
Qed.

Lemma hasId_false (ids : list string) (id : string) : hasId ids id = false <-> ~ In id ids.
Proof.
  rewrite <- hasId_In. destruct (hasId ids id); split; intros H;
    solve [ easy | elim H; reflexivity ].
Qed.

Lemma uniqueIdLoop_some fuel used base :
  forall cand n id,
    uniqueIdLoop fuel used base cand n = Some id ->
    hasId used id = false
    /\ (id = cand \/ exists k, n <= k /\ id = base ++ "-" ++ showNat k).
Proof.
  induction fuel as [|fuel IH]; intros cand n id; simpl;
    destruct (hasId used cand) eqn:E; intros H; try discriminate.
  - injection H as <-. split; [exact E | now left].
  - apply IH in H as [Hfree [-> | [k [Hk ->]]]]; split; try exact Hfree; right.
    + exists n. split; [lia | reflexivity].
    + exists k. split; [lia | reflexivity].
  - injection H as <-. split; [exact E | now left].
Qed.

Lemma uniqueIdLoop_none fuel used base :
  forall cand n,
    uniqueIdLoop fuel used base cand n = None ->
    hasId used cand = true
    /\ forall k, n <= k < n + fuel -> hasId used (base ++ "-" ++ showNat k) = true.
Proof.
  induction fuel as [|fuel IH]; intros cand n; simpl;
    destruct (hasId used cand) eqn:E; intros H; try discriminate.
  - split; [reflexivity | intros k Hk; lia].
  - apply IH in H as [Hn Hrest]. split; [reflexivity | ].
    intros k Hk. destruct (Nat.eq_dec k n) as [-> | Hne]; [exact Hn | ].
    apply Hrest. lia.
Qed.

Lemma suffixed_inj (base : string) (n m : nat) :
  base ++ "-" ++ showNat n = base ++ "-" ++ showNat m -> n = m.
Proof.
  intros H. apply sappend_inv_head in H. apply (sappend_inv_head "-") in H.
  now apply showNat_inj.
Qed.

Lemma suffixed_neq (base suffix : string) : base <> base ++ "-" ++ suffix.
Proof.
  intros H. apply (f_equal String.length) in H.
  rewrite !sappend_length in H. simpl in H. lia.
Qed.

Lemma suffixed_NoDup (base : string) (start len : nat) :
  NoDup (map (fun k => base ++ "-" ++ showNat k) (seq start len)).
Proof.
  revert start. induction len as [|len IH]; intros start; simpl; constructor.
  - rewrite in_map_iff. intros [k [Hk Hin]]. apply suffixed_inj in Hk.
    apply in_seq in Hin. lia.
  - apply IH.
Qed.

(** The search always ends within the bound: the candidates are pairwise
    different, so they cannot all be in use. *)
Lemma uniqueIdLoop_total (used : list string) (base : string) :
  exists id, uniqueIdLoop (List.length used) used base base 2 = Some id.
Proof.
  destruct (uniqueIdLoop (List.length used) used base base 2) as [id|] eqn:E;
    [now exists id | exfalso].
  apply uniqueIdLoop_none in E as [Hbase Hrest].
  set (cands := base :: map (fun k => base ++ "-" ++ showNat k) (seq 2 (List.length used))).
  assert (Hnd : NoDup cands).
  { constructor; [ | apply suffixed_NoDup].
    rewrite in_map_iff. intros [k [Hk _]]. symmetry in Hk. now apply suffixed_neq in Hk. }
  assert (Hincl : incl cands used).
  { intros x [<- | Hin]; [now apply hasId_In | ].
    apply in_map_iff in Hin as [k [<- Hin]]. apply in_seq in Hin.
    apply hasId_In, Hrest. lia. }
  pose proof (NoDup_incl_length Hnd Hincl) as Hlen.
  unfold cands in Hlen. simpl in Hlen. rewrite length_map, length_seq in Hlen. lia.
Qed.

Lemma uniqueId_total used prefix text fallback :
  exists id, uniqueId used prefix text fallback = Some (id, List.app used [id]).
Proof.
  unfold uniqueId.
  destruct (uniqueIdLoop_total used (idBase prefix text fallback)) as [id ->].
  now exists id.
Qed.

Lemma uniqueId_spec used prefix text fallback id used' :
  uniqueId used prefix text fallback = Some (id, used') ->
  used' = List.app used [id] /\ ~ In id used
  /\ idHasBase id (idBase prefix text fallback).
Proof.
  unfold uniqueId.
  destruct (uniqueIdLoop _ used _ _ 2) as [id0|] eqn:E; [ | discriminate].
  intros H. injection H as <- <-.
  apply uniqueIdLoop_some in E as [Hfree Hshape].
  split; [reflexivity | ]. split; [now apply hasId_false | exact Hshape].
Qed.

(** ** Lists updated in place *)

Lemma updateAt_length {A} (f : A -> A) :
  forall n l l', updateAt n f l = Some l' -> List.length l' = List.length l.
Proof.
  induction n as [|n IH]; intros [|x l] l'; simpl; try discriminate.
  - intros H. now injection H as <-.
  - destruct (updateAt n f l) as [r|] eqn:E; [ | discriminate].
    intros H. injection H as <-. simpl. f_equal. now apply IH.
Qed.

Lemma updateAt_nth {A} (f : A -> A) :
  forall n l l', updateAt n f l = Some l' ->
    forall k, nth_error l' k
              = if Nat.eqb k n then option_map f (nth_error l k) else nth_error l k.
Proof.
  induction n as [|n IH]; intros [|x l] l'; simpl; try discriminate.
  - intros H. injection H as <-. now intros [|k].
  - destruct (updateAt n f l) as [r|] eqn:E; [ | discriminate].
    intros H. injection H as <-. intros [|k]; simpl; [reflexivity | ].
    now apply IH.
Qed.

Lemma updateAt_total {A} (f : A -> A) :
  forall n l, n < List.length l -> exists l', updateAt n f l = Some l'.
Proof.
  induction n as [|n IH]; intros [|x l]; simpl; intros H; try lia.
  - now eexists.
  - destruct (IH l) as [r ->]; [lia | now eexists].
Qed.

Lemma updateAt_last {A} (f : A -> A) (init : list A) (x : A) :
  updateAt (List.length init) f (List.app init [x]) = Some (List.app init [f x]).
Proof. induction init as [|y init IH]; simpl; [reflexivity | now rewrite IH]. Qed.

Lemma updateAt_map {A B} (f : A -> A) (g : A -> B) :
  (forall x, g (f x) = g x) ->
  forall n l l', updateAt n f l = Some l' -> map g l' = map g l.
Proof.
  intros Hg. induction n as [|n IH]; intros [|x l] l'; simpl; try discriminate.
  - intros H. injection H as <-. simpl. now rewrite Hg.
  - destruct (updateAt n f l) as [r|] eqn:E; [ | discriminate].
    intros H. injection H as <-. simpl. f_equal. now apply IH.
Qed.

Lemma split_last {A} (l : list A) (a : nat) :
  S a = List.length l -> exists init x, l = List.app init [x] /\ List.length init = a.
Proof.
  intros H. destruct (exists_last (l := l)) as [init [x ->]].
  - intros ->. discriminate.
  - exists init, x. split; [reflexivity | ].
    rewrite length_app in H. simpl in H. lia.
Qed.

Lemma flat_map_map {A B C} (f : A -> B) (g : B -> list C) (l : list A) :
  flat_map g (map f l) = flat_map (fun x => g (f x)) l.
Proof. induction l as [|x l IH]; simpl; [reflexivity | now rewrite IH]. Qed.

Lemma blockIds_app (a b : list Block) :
  blockIds (List.app a b) = List.app (blockIds a) (blockIds b).
Proof. unfold blockIds. apply flat_map_app. Qed.

(** ** [pushBlock] *)

Lemma pushBlock_spec (block : Block) (st : ParseState) :
  activeOk st ->
  exists st',
    pushBlock block st = Some st'
    /\ usedIds st' = usedIds st
    /\ activeChapter st' = activeChapter st
    /\ subsectionStack st' = subsectionStack st
    /\ heap st' = heap st
    /\ List.length (chapters st') = List.length (chapters st)
    /\ map cc_subsections (chapters st') = map cc_subsections (chapters st)
    /\ stateIds st' = List.app (stateIds st) (blockIds [block])
    /\ (activeChapter st = None ->
        introBlocks st' = List.app (introBlocks st) [block] /\ chapters st' = chapters st).
Proof.
  unfold activeOk, pushBlock. destruct (activeChapter st) as [a|] eqn:Ea; intros Hact.
  - destruct (split_last _ _ Hact) as [init [last [Hch Hlen]]].
    rewrite Hch, <- Hlen, updateAt_last. eexists. split; [reflexivity | ]. simpl.
    repeat split; try easy.
    + rewrite !length_app. reflexivity.
    + rewrite !map_app. reflexivity.
    + unfold stateIds. simpl. rewrite Hch, !flat_map_app. simpl.
      rewrite blockIds_app, <- !app_assoc. simpl.
      destruct block; simpl; now rewrite ?app_nil_r.
  - eexists. split; [reflexivity | ]. simpl. repeat split; try easy.
    unfold stateIds. simpl. rewrite Hact. simpl.
    rewrite blockIds_app. destruct block; simpl; now rewrite ?app_nil_r.
Qed.

Lemma pushBlock_wf (block : Block) (st : ParseState) :
  WF st ->
  NoDup (List.app (stateIds st) (blockIds [block])) ->
  incl (blockIds [block]) (usedIds st) ->
  exists st',
    pushBlock block st = Some st' /\ WF st'
    /\ (activeChapter st = None ->
        introBlocks st' = List.app (introBlocks st) [block] /\ chapters st' = chapters st)
    /\ activeChapter st' = activeChapter st.
Proof.
  intros W Hnd Hin.
  destruct (pushBlock_spec block st (wf_active _ W))
    as [st' [Hp [Hu [Ha [Hs [Hh [Hl [Hm [Hi Hnone]]]]]]]]].
  exists st'. split; [exact Hp | ]. split; [ | now split].
  constructor.
  - pose proof (wf_active _ W) as Hact. unfold activeOk in *. rewrite Ha.
    destruct (activeChapter st).
    + now rewrite Hl.
    + destruct (Hnone eq_refl) as [_ ->]. exact Hact.
  - rewrite Hh, Hs. apply W.
  - rewrite Hh. apply Forall_map. rewrite Hm. apply Forall_map. apply W.
  - rewrite Hh. apply W.
  - rewrite Hh. apply W.
  - now rewrite Hi.
  - rewrite Hi, Hu. apply incl_app; [apply W | exact Hin].
Qed.

(** A block that is not a heading carries no anchor id. *)
Lemma pushBlock_plain_wf (block : Block) (st : ParseState) :
  WF st -> blockIds [block] = [] ->
  exists st',
    pushBlock block st = Some st' /\ WF st'
    /\ (activeChapter st = None ->
        introBlocks st' = List.app (introBlocks st) [block] /\ chapters st' = chapters st)
    /\ activeChapter st' = activeChapter st.
Proof.
  intros W Hb. apply pushBlock_wf; [exact W | | ]; rewrite Hb.
  - rewrite app_nil_r. apply W.
  - intros x [].
Qed.

(** ** The subsection stack and the store *)

Lemma popStack_spec (hp : list SubNode) (level : nat) (P : nat -> Prop) :
  forall stack,
    refsBelow (List.length hp) stack -> Forall P stack ->
    exists stack',
      popStack hp level stack = Some stack'
      /\ Forall P stack'
      /\ match stack' with
         | parent :: _ =>
             exists node, nth_error hp parent = Some node /\ sn_level node < level
         | [] => True
         end.
Proof.
  induction stack as [|top below IH]; simpl; intros Hb HP.
  - now exists [].
  - inversion Hb as [|? ? Htop Hbelow]; subst. inversion HP as [|? ? HPtop HPbelow]; subst.
    destruct (nth_error hp top) as [node|] eqn:E.
    + destruct (Nat.leb level (sn_level node)) eqn:L.
      * now apply IH.
      * exists (top :: below). split; [reflexivity | ]. split; [exact HP | ].
        exists node. split; [exact E | ]. apply Nat.leb_gt in L. exact L.
    + apply nth_error_None in E. lia.
Qed.

Lemma nth_error_snoc {A} (l : list A) (x : A) (k : nat) :
  nth_error (List.app l [x]) k
  = if Nat.ltb k (List.length l) then nth_error l k
    else if Nat.eqb k (List.length l) then Some x else None.
Proof.
  destruct (Nat.ltb k (List.length l)) eqn:L.
  - apply Nat.ltb_lt in L. now apply nth_error_app1.
  - apply Nat.ltb_ge in L. rewrite nth_error_app2 by exact L.
    destruct (Nat.eqb k (List.length l)) eqn:E.
    + apply Nat.eqb_eq in E. subst. now rewrite Nat.sub_diag.
    + apply Nat.eqb_neq in E. apply nth_error_None. simpl. lia.
Qed.

Lemma heapOk_snoc (hp : list SubNode) id level title :
  heapOk hp -> heapOk (List.app hp [mkSubNode id level title []]).
Proof.
  intros H p node. rewrite nth_error_snoc, length_app. simpl.
  destruct (Nat.ltb p (List.length hp)).
  - intros E. apply H in E. eapply Forall_impl; [ | exact E]. simpl. intros c. lia.
  - destruct (Nat.eqb p (List.length hp)); [ | discriminate].
    intros E. injection E as <-. constructor.
Qed.

Lemma levelsOk_snoc (hp : list SubNode) id level title :
  heapOk hp -> levelsOk hp -> levelsOk (List.app hp [mkSubNode id level title []]).
Proof.
  intros Hh Hl p node c cnode. rewrite !nth_error_snoc.
  destruct (Nat.ltb p (List.length hp)).
  - intros Ep Hin. pose proof (Hh _ _ Ep) as Hc. rewrite Forall_forall in Hc.
    destruct (Hc _ Hin) as [_ Hlt]. apply Nat.ltb_lt in Hlt. rewrite Hlt.
    intros Ec. eapply Hl; eassumption.
  - destruct (Nat.eqb p (List.length hp)); [ | discriminate].
    intros E. injection E as <-. intros [].
Qed.

Lemma heapOk_addChild (hp hp' : list SubNode) (parent r : nat) :
  heapOk hp -> parent < r -> r < List.length hp ->
  updateAt parent (addChild r) hp = Some hp' -> heapOk hp'.
Proof.
  intros Hh Hpr Hr Hu p node. rewrite (updateAt_length _ _ _ _ Hu), (updateAt_nth _ _ _ _ Hu).
  destruct (Nat.eqb p parent) eqn:E.
  - apply Nat.eqb_eq in E. subst p.
    destruct (nth_error hp parent) as [old|] eqn:Eo; [ | discriminate].
    simpl. intros H. injection H as <-. simpl.
    apply Forall_app. split; [now apply Hh | ]. constructor; [lia | constructor].
  - apply Hh.
Qed.

Lemma levelsOk_addChild (hp hp' : list SubNode) (parent r : nat) pnode rnode :
  levelsOk hp ->
  nth_error hp parent = Some pnode -> nth_error hp r = Some rnode ->
  sn_level pnode < sn_level rnode ->
  updateAt parent (addChild r) hp = Some hp' -> levelsOk hp'.
Proof.
  intros Hl Ep Er Hlt Hu.
  assert (Hlevel : forall k n', nth_error hp' k = Some n' ->
            exists n, nth_error hp k = Some n /\ sn_level n' = sn_level n
                      /\ (k <> parent -> n' = n)).
  { intros k n'. rewrite (updateAt_nth _ _ _ _ Hu).
    destruct (Nat.eqb k parent) eqn:E.
    - apply Nat.eqb_eq in E. subst k. rewrite Ep. simpl.
      intros H. injection H as <-. exists pnode. now repeat split.
    - intros H. exists n'. apply Nat.eqb_neq in E. now repeat split. }
  intros p node c cnode Hp Hin Hc.
  destruct (Hlevel _ _ Hc) as [cold [Hcold [-> _]]].
  destruct (Nat.eq_dec p parent) as [-> | Hne].
  - rewrite (updateAt_nth _ _ _ _ Hu), Nat.eqb_refl, Ep in Hp. simpl in Hp.
    injection Hp as <-. simpl in *. apply in_app_or in Hin as [Hin | [<- | []]].
    + eapply Hl; eassumption.
    + rewrite Er in Hcold. now injection Hcold as <-.
  - destruct (Hlevel _ _ Hp) as [pold [Hpold [_ Hsame]]].
    rewrite (Hsame Hne) in *. eapply Hl; eassumption.
Qed.

Lemma refsBelow_weaken (n m : nat) (refs : list nat) :
  n <= m -> refsBelow n refs -> refsBelow m refs.
Proof. intros Hle. apply Forall_impl. intros r. lia. Qed.

Lemma attachSubsection_wf (a : nat) id level text (st : ParseState) :
  WF st -> activeChapter st = Some a ->
  exists st',
    attachSubsection a id level text st = Some st' /\ WF st'
    /\ stateIds st' = stateIds st /\ usedIds st' = usedIds st
    /\ activeChapter st' = activeChapter st
    /\ introBlocks st' = introBlocks st.
Proof.
  intros W Ha. unfold attachSubsection.
  set (new := mkSubNode id level text []).
  set (hp := List.app (heap st) [new]).
  assert (Hlen : List.length hp = S (List.length (heap st)))
    by (unfold hp; rewrite length_app; simpl; lia).
  assert (Hnew : nth_error hp (List.length (heap st)) = Some new).
  { unfold hp. now rewrite nth_error_snoc, Nat.ltb_irrefl, Nat.eqb_refl. }
  assert (Hhp : heapOk hp) by (apply heapOk_snoc, W).
  assert (Hlv : levelsOk hp) by (apply levelsOk_snoc; apply W).
  destruct (popStack_spec hp level (fun r => r < List.length (heap st)) (subsectionStack st))
    as [stack [-> [Hold Htop]]].
  { eapply refsBelow_weaken; [ | apply W]. lia. }
  { apply W. }
  pose proof (wf_active _ W) as Hact. unfold activeOk in Hact. rewrite Ha in Hact.
  destruct stack as [|parent below].
  - destruct (updateAt_total (addSubsection (List.length (heap st))) a (chapters st))
      as [chapters' Hu]; [lia | ].
    rewrite Hu. eexists. split; [reflexivity | ].
    assert (Hids : flat_map cellIds chapters' = flat_map cellIds (chapters st)).
    { rewrite !flat_map_concat_map. f_equal.
      now apply (updateAt_map (addSubsection (List.length (heap st))) cellIds) with (n := a). }
    split; [ | unfold stateIds; simpl; now rewrite Hids].
    constructor; simpl.
    + unfold activeOk. simpl. rewrite Ha. now rewrite (updateAt_length _ _ _ _ Hu).
    + constructor; [lia | constructor].
    + rewrite Hlen. apply Forall_forall. intros c Hc.
      apply In_nth_error in Hc as [k Hk].
      rewrite (updateAt_nth _ _ _ _ Hu) in Hk.
      pose proof (wf_subs _ W) as Hs. rewrite Forall_forall in Hs.
      destruct (Nat.eqb k a).
      * destruct (nth_error (chapters st) k) as [old|] eqn:Eo; [ | discriminate].
        simpl in Hk. injection Hk as <-. simpl. apply Forall_app. split.
        -- eapply refsBelow_weaken; [ | apply Hs; eapply nth_error_In; exact Eo]. lia.
        -- constructor; [lia | constructor].
      * eapply refsBelow_weaken; [ | apply Hs; eapply nth_error_In; exact Hk]. lia.
    + exact Hhp.
    + exact Hlv.
    + unfold stateIds. simpl. rewrite Hids. apply W.
    + unfold stateIds. simpl. rewrite Hids. apply W.
  - destruct Htop as [pnode [Hp Hlt]].
    inversion Hold as [|? ? Hparent Hbelow]; subst.
    destruct (updateAt_total (addChild (List.length (heap st))) parent hp)
      as [hp' Hu]; [lia | ].
    rewrite Hu. eexists. split; [reflexivity | ].
    split; [ | now unfold stateIds].
    pose proof (updateAt_length _ _ _ _ Hu) as Hlen'.
    constructor; simpl.
    + unfold activeOk. simpl. now rewrite Ha.
    + rewrite Hlen', Hlen. constructor; [lia | ].
      eapply refsBelow_weaken; [ | exact Hold]. lia.
    + rewrite Hlen', Hlen. eapply Forall_impl; [ | apply W].
      intros c. apply refsBelow_weaken. lia.
    + eapply heapOk_addChild; [exact Hhp | exact Hparent | lia | exact Hu].
    + eapply levelsOk_addChild; [exact Hlv | exact Hp | exact Hnew | exact Hlt | exact Hu].
    + apply W.
    + apply W.
Qed.

(** ** The loop keeps its invariant and never gets stuck *)

Lemma NoDup_snoc {A} (l : list A) (x : A) :
  NoDup l -> ~ In x l -> NoDup (List.app l [x]).
Proof.
  intros Hnd Hx. induction Hnd as [|y l Hy Hnd IH]; simpl.
  - constructor; [intros [] | constructor].
  - constructor.
    + rewrite in_app_iff. intros [H | [-> | []]]; [now apply Hy | apply Hx; now left].
    + apply IH. intros H. apply Hx. now right.
Qed.

Lemma initialState_wf : WF initialState.
Proof.
  constructor; simpl; try constructor.
  - intros p node. now destruct p.
  - intros p node c cnode. now destruct p.
  - intros x [].
Qed.

Lemma processHeading_wf (i level : nat) (text : string) (st : ParseState) :
  WF st ->
  exists st',
    processHeading i level text st = Some st' /\ WF st'
    /\ (Nat.eqb level 2 = false -> activeChapter st' = activeChapter st)
    /\ exists id, stateIds st' = List.app (stateIds st) [id]
                  /\ idHasBase id (headingBase i level text st).
Proof.
  intros W. unfold processHeading, headingBase. destruct (Nat.eqb level 2) eqn:L2.
  - destruct (uniqueId_total (usedIds st)
                ("chapter-" ++ showNat (List.length (chapters st) + 1))
                (normalizeChapterTitle text)
                (showNat (List.length (chapters st) + 1))) as [id Hu].
    rewrite Hu. apply uniqueId_spec in Hu as [_ [Hfree Hbase]].
    eexists. split; [reflexivity | ].
    assert (Hids : forall intro hp stack act,
               stateIds (mkParseState intro
                           (List.app (chapters st)
                              [mkChapterCell (normalizeChapterTitle text) id [] []])
                           (List.app (usedIds st) [id]) act stack hp)
               = List.app (List.app (blockIds intro) (flat_map cellIds (chapters st))) [id]).
    { intros. unfold stateIds. simpl. rewrite flat_map_app. simpl.
      now rewrite app_assoc. }
    split; [ | split; [discriminate | exists id; split; [apply Hids | exact Hbase]]].
    constructor; simpl.
    + unfold activeOk. simpl. rewrite length_app. simpl. lia.
    + constructor.
    + apply Forall_app. split; [apply W | ]. constructor; [constructor | constructor].
    + apply W.
    + apply W.
    + rewrite Hids. apply NoDup_snoc; [apply W | ].
      intros Hin. apply Hfree. now apply (wf_used _ W).
    + rewrite Hids. apply incl_app.
      * apply incl_appl. apply W.
      * apply incl_appr. apply incl_refl.
  - destruct (uniqueId_total (usedIds st) "section" text (showNat (i + 1))) as [id Hu].
    rewrite Hu. apply uniqueId_spec in Hu as [_ [Hfree Hbase]].
    set (st1 := mkParseState (introBlocks st) (chapters st) (List.app (usedIds st) [id])
                  (activeChapter st) (subsectionStack st) (heap st)).
    assert (W1 : WF st1).
    { constructor; try apply W. apply incl_appl. apply W. }
    assert (H2 : exists st2,
               match activeChapter st1 with
               | Some a =>
                   if Nat.leb 3 level then attachSubsection a id level text st1
                   else Some st1
               | None => Some st1
               end = Some st2
               /\ WF st2 /\ stateIds st2 = stateIds st1 /\ usedIds st2 = usedIds st1
               /\ activeChapter st2 = activeChapter st1).
    { destruct (activeChapter st1) as [a|] eqn:Ea.
      - destruct (Nat.leb 3 level).
        + destruct (attachSubsection_wf a id level text st1 W1 Ea)
            as [st2 [H [Hw [Hs [Hus [Hac _]]]]]].
          exists st2. rewrite Ea in Hac.
          split; [exact H | ]. split; [exact Hw | ]. now split; [ | split].
        + exists st1. split; [reflexivity | ]. split; [exact W1 | ]. now split; [ | split].
      - exists st1. split; [reflexivity | ]. split; [exact W1 | ]. now split; [ | split]. }
    destruct H2 as [st2 [-> [W2 [Hs2 [Hu2 Ha2]]]]].
    destruct (pushBlock_spec (BHeading level text id) st2 (wf_active _ W2))
      as [st3 [Hp3 [_ [_ [_ [_ [_ [_ [Hids3 _]]]]]]]]].
    destruct (pushBlock_wf (BHeading level text id) st2 W2) as [st' [Hp [W' [_ Ha']]]].
    + simpl. rewrite Hs2. apply NoDup_snoc; [apply W | ].
      intros Hin. apply Hfree. now apply (wf_used _ W).
    + simpl. rewrite Hu2. simpl. intros x [<- | []]. apply in_or_app. right. now left.
    + exists st'. split; [exact Hp | ]. split; [exact W' | ].
      split; [intros _; now rewrite Ha', Ha2 | ].
      exists id. split; [ | exact Hbase].
      rewrite Hp in Hp3. injection Hp3 as <-. now rewrite Hids3, Hs2.
Qed.

Lemma parseStep_wf (i : nat) (raw : string) (rest : list string) (st : ParseState) :
  WF st ->
  exists n st',
    parseStep i raw rest st = Some (n, st') /\ WF st'
    /\ (isChapterLine raw = false -> activeChapter st' = activeChapter st).
Proof.
  intros W. unfold parseStep, isChapterLine.
  destruct (isEmpty (trim raw)); [now exists 1, st | ].
  destruct (matchHeading (trim raw)) as [[level text]|].
  - destruct (processHeading_wf i level (trim text) st W) as [st' [-> [W' [Ha _]]]].
    now exists 1, st'.
  - assert (Hplain : forall block (n : nat),
               blockIds [block] = [] ->
               exists (n' : nat) (st' : ParseState),
                 match pushBlock block st with
                 | Some st' => Some (n, st')
                 | None => None
                 end = Some (n', st') /\ WF st'
                 /\ (false = false -> activeChapter st' = activeChapter st)).
    { intros block n Hb.
      destruct (pushBlock_plain_wf block st W Hb) as [st' [-> [W' [_ Ha]]]].
      now exists n, st'. }
    destruct (testFence (trim raw)); [now apply Hplain | ].
    destruct (testBullet (trim raw)); [now apply Hplain | ].
    destruct (testOrdered (trim raw)); [now apply Hplain | ].
    destruct (testQuote (trim raw)); [now apply Hplain | ].
    destruct (paragraphLines rest) as [more blank]. now apply Hplain.
Qed.

Lemma parseLoop_wf (lines : list string) :
  forall skip i st,
    WF st ->
    exists st',
      parseLoop skip i lines st = Some st' /\ WF st'
      /\ (Forall (fun l => isChapterLine l = false) lines ->
          activeChapter st' = activeChapter st).
Proof.
  induction lines as [|raw rest IH]; intros skip i st W; simpl.
  - now exists st.
  - destruct skip as [|k].
    + destruct (parseStep_wf i raw rest st W) as [n [st1 [-> [W1 Ha1]]]].
      destruct (IH (n - 1) (S i) st1 W1) as [st' [H [W' Ha']]].
      exists st'. split; [exact H | ]. split; [exact W' | ].
      intros Hall. inversion Hall; subst. rewrite Ha', Ha1; easy.
    + destruct (IH k (S i) st W) as [st' [H [W' Ha']]].
      exists st'. split; [exact H | ]. split; [exact W' | ].
      intros Hall. inversion Hall; subst. now apply Ha'.
Qed.

(** ** Following the references *)

Lemma mapOpt_total {A B} (f : A -> option B) (l : list A) :
  Forall (fun x => exists y, f x = Some y) l -> exists ys, mapOpt f l = Some ys.
Proof.
  induction 1 as [|x l [y Hy] _ [ys IH]]; simpl.
  - now eexists.
  - rewrite Hy, IH. now eexists.
Qed.

Lemma mapOpt_Forall2 {A B} (f : A -> option B) :
  forall l ys, mapOpt f l = Some ys -> Forall2 (fun x y => f x = Some y) l ys.
Proof.
  induction l as [|x l IH]; simpl; intros ys.
  - intros H. injection H as <-. constructor.
  - destruct (f x) as [y|] eqn:E; [ | discriminate].
    destruct (mapOpt f l) as [ys'|]; [ | discriminate].
    intros H. injection H as <-. constructor; [exact E | now apply IH].
Qed.

Lemma resolveSub_total (hp : list SubNode) :
  heapOk hp ->
  forall fuel r, r < List.length hp -> List.length hp - r <= fuel ->
    exists t, resolveSub fuel hp r = Some t.
Proof.
  intros Hh. induction fuel as [|fuel IH]; intros r Hr Hf; [lia | ]. simpl.
  destruct (nth_error hp r) as [node|] eqn:E.
  - destruct (mapOpt_total (resolveSub fuel hp) (sn_children node)) as [cs ->].
    + eapply Forall_impl; [ | apply (Hh _ _ E)]. simpl. intros c [Hc1 Hc2].
      apply IH; lia.
    + now eexists.
  - apply nth_error_None in E. lia.
Qed.

Lemma resolveSub_levels (hp : list SubNode) :
  levelsOk hp ->
  forall fuel r t, resolveSub fuel hp r = Some t ->
    LevelsIncrease t
    /\ exists node, nth_error hp r = Some node /\ sub_level t = sn_level node.
Proof.
  intros Hl. induction fuel as [|fuel IH]; intros r t; simpl; [discriminate | ].
  destruct (nth_error hp r) as [node|] eqn:E; [ | discriminate].
  destruct (mapOpt (resolveSub fuel hp) (sn_children node)) as [cs|] eqn:Ec; [ | discriminate].
  intros H. injection H as <-. apply mapOpt_Forall2 in Ec.
  split; [ | now exists node].
  assert (Hgen : forall refs ts,
             Forall2 (fun x y => resolveSub fuel hp x = Some y) refs ts ->
             incl refs (sn_children node) ->
             Forall (fun c => sn_level node < sub_level c) ts
             /\ Forall LevelsIncrease ts).
  { induction 1 as [|c t refs ts Hct _ IHc]; intros Hincl.
    - split; constructor.
    - destruct IHc as [IH1 IH2]; [intros x Hx; apply Hincl; now right | ].
      destruct (IH _ _ Hct) as [Ht [cnode [Hcn Hlev]]].
      split; constructor; try assumption.
      rewrite Hlev. eapply Hl; [exact E | apply Hincl; now left | exact Hcn]. }
  destruct (Hgen _ _ Ec (incl_refl _)) as [H1 H2].
  now constructor.
Qed.

Lemma resolveChapter_total (st : ParseState) :
  WF st ->
  exists chs,
    mapOpt (resolveChapter (heap st)) (chapters st) = Some chs
    /\ Forall2 (fun c ch => resolveChapter (heap st) c = Some ch) (chapters st) chs.
Proof.
  intros W.
  destruct (mapOpt_total (resolveChapter (heap st)) (chapters st)) as [chs H].
  - eapply Forall_impl; [ | apply (wf_subs _ W)]. simpl. intros c Hc.
    unfold resolveChapter.
    destruct (mapOpt_total (resolveSub (List.length (heap st)) (heap st)) (cc_subsections c))
      as [subs ->]; [ | now eexists].
    eapply Forall_impl; [ | exact Hc]. simpl. intros r Hr.
    apply resolveSub_total; [apply W | exact Hr | lia].
  - exists chs. split; [exact H | now apply mapOpt_Forall2].
Qed.

(** [parseMarkdown] returns an outline for every body, and the outline is
    the final state of the loop with the references followed. *)
Lemma parseMarkdown_total (markdown : string) :
  exists st o,
    parseState markdown = Some st /\ WF st
    /\ parseMarkdown markdown = Some o
    /\ o_introBlocks o = introBlocks st
    /\ Forall2 (fun c ch => resolveChapter (heap st) c = Some ch) (chapters st) (o_chapters o).
Proof.
  unfold parseMarkdown, parseState.
  destruct (parseLoop_wf (bodyLines markdown) 0 0 initialState initialState_wf)
    as [st [-> [W _]]].
  destruct (resolveChapter_total st W) as [chs [-> Hchs]].
  exists st. eexists.
  split; [reflexivity | ]. split; [exact W | ]. split; [reflexivity | ].
  split; [reflexivity | exact Hchs].
Qed.

(** Every iteration of the loop moves the cursor forward. *)
Lemma parseStep_consumes (i : nat) (raw : string) (rest : list string)
    (st st' : ParseState) (n : nat) :
  parseStep i raw rest st = Some (n, st') -> 1 <= n.
Proof.
  unfold parseStep.
  destruct (isEmpty (trim raw)); [intros H; injection H as <- _; lia | ].
  destruct (matchHeading (trim raw)) as [[level text]|].
  - destruct (processHeading i level (trim text) st); [ | discriminate].
    intros H. injection H as <- _. lia.
  - destruct (testFence (trim raw)).
    { destruct (pushBlock _ st); [ | discriminate]. intros H. injection H as <- _. lia. }
    destruct (testBullet (trim raw)) eqn:B.
    { destruct (pushBlock _ st); [ | discriminate]. intros H. injection H as <- _.
      simpl. rewrite B. simpl. lia. }
    destruct (testOrdered (trim raw)) eqn:O.
    { destruct (pushBlock _ st); [ | discriminate]. intros H. injection H as <- _.
      simpl. rewrite O. simpl. lia. }
    destruct (testQuote (trim raw)) eqn:Q.
    { destruct (pushBlock _ st); [ | discriminate]. intros H. injection H as <- _.
      simpl. rewrite Q. simpl. lia. }
    destruct (paragraphLines rest) as [more blank].
    destruct (pushBlock _ st); [ | discriminate]. intros H. injection H as <- _. lia.
Qed.

(** ** Anchor ids *)

Lemma resolveChapter_fields (hp : list SubNode) (c : ChapterCell) (ch : Chapter) :
  resolveChapter hp c = Some ch ->
  ch_title ch = cc_title c /\ ch_id ch = cc_id c /\ ch_blocks ch = cc_blocks c
  /\ mapOpt (resolveSub (List.length hp) hp) (cc_subsections c) = Some (ch_subsections ch).
Proof.
  unfold resolveChapter.
  destruct (mapOpt _ (cc_subsections c)) as [subs|]; [ | discriminate].
  intros H. now injection H as <-.
Qed.

Lemma resolved_ids (hp : list SubNode) (cells : list ChapterCell) (chs : list Chapter) :
  Forall2 (fun c ch => resolveChapter hp c = Some ch) cells chs ->
  flat_map chapterIds chs = flat_map cellIds cells.
Proof.
  induction 1 as [|c ch cells chs H _ IH]; simpl; [reflexivity | ].
  apply resolveChapter_fields in H as [_ [Hid [Hb _]]].
  unfold chapterIds at 1, cellIds at 1. rewrite Hid, Hb. simpl. now f_equal; f_equal.
Qed.

Lemma parseStep_heading (i : nat) (raw : string) (rest : list string) (st : ParseState)
    (level : nat) (text : string) :
  WF st -> matchHeading (trim raw) = Some (level, text) ->
  exists st' id,
    parseStep i raw rest st = Some (1, st') /\ WF st'
    /\ stateIds st' = List.app (stateIds st) [id]
    /\ idHasBase id (headingBase i level (trim text) st).
Proof.
  intros W Hm. unfold parseStep.
  destruct (isEmpty (trim raw)) eqn:E.
  - destruct (trim raw); [discriminate Hm | discriminate E].
  - rewrite Hm.
    destruct (processHeading_wf i level (trim text) st W)
      as [st' [-> [W' [_ [id [Hids Hbase]]]]]].
    now exists st', id.
Qed.

(** C1.  Every body is parsed to an outline, and no two anchor ids of the
    outline (ids of chapters and of heading blocks, intro included) are
    equal.  In the body with a level-1 heading Overview, a chapter, and a
    level-3 heading Overview, the two headings get [section-overview] and
    [section-overview-2]. *)
Theorem anchor_ids_unique :
  (forall markdown, exists o, parseMarkdown markdown = Some o /\ NoDup (outlineIds o))
  /\ (exists o,
        parseMarkdown ("# Overview" ++ LF ++ "## Chapter" ++ LF ++ "### Overview") = Some o
        /\ outlineIds o = ["section-overview"; "chapter-1-chapter"; "section-overview-2"]
        /\ o_introBlocks o = [BHeading 1 "Overview" "section-overview"]
        /\ map ch_blocks (o_chapters o) = [[BHeading 3 "Overview" "section-overview-2"]]).
Proof.
  split.
  - intros markdown.
    destruct (parseMarkdown_total markdown) as [st [o [_ [W [Ho [Hi Hc]]]]]].
    exists o. split; [exact Ho | ].
    unfold outlineIds. rewrite Hi, (resolved_ids _ _ _ Hc). apply (wf_nodup _ W).
  - eexists. split; [vm_compute; reflexivity | ]. repeat split.
Qed.

(** C2, as the code has it.  A heading line of ASCII text whose slug is
    not empty gets an anchor id whose base is the slug prefixed with
    [section-], or, for a level-2 heading, the slug of the chapter title
    (the heading text without a leading numbering) prefixed with
    [chapter-N-], N being the chapter's ordinal.  The body [## First],
    [text] gives one chapter First with anchor [chapter-1-first], no intro
    block and the paragraph [text]. *)
Theorem heading_id_prefix :
  (forall i raw rest st level text,
      isAsciiText raw = true ->
      WF st -> matchHeading (trim raw) = Some (level, text) ->
      isEmpty (slugify (if Nat.eqb level 2 then normalizeChapterTitle (trim text)
                        else trim text)) = false ->
      exists st' id,
        parseStep i raw rest st = Some (1, st')
        /\ stateIds st' = List.app (stateIds st) [id]
        /\ idHasBase id
             (if Nat.eqb level 2
              then "chapter-" ++ showNat (List.length (chapters st) + 1) ++ "-"
                     ++ slugify (normalizeChapterTitle (trim text))
              else "section-" ++ slugify (trim text)))
  /\ parseMarkdown ("## First" ++ LF ++ "text")
     = Some (mkOutline [] [mkChapter "First" "chapter-1-first" [BParagraph "text"] []]).
Proof.
  split; [ | vm_compute; reflexivity].
  intros i raw rest st level text _ W Hm Hslug.
  destruct (parseStep_heading i raw rest st level text W Hm)
    as [st' [id [Hp [_ [Hids Hbase]]]]].
  exists st', id. split; [exact Hp | ]. split; [exact Hids | ].
  unfold headingBase, idBase in Hbase.
  destruct (Nat.eqb level 2); rewrite Hslug in Hbase.
  - now rewrite sappend_assoc in Hbase.
  - exact Hbase.
Qed.

Lemma heading_id_prefix_witness :
  exists st' id,
    parseStep 0 "## First" ["text"] initialState = Some (1, st')
    /\ stateIds st' = List.app (stateIds initialState) [id]
    /\ idHasBase id ("chapter-" ++ showNat 1 ++ "-" ++ slugify (normalizeChapterTitle "First")).
Proof.
  exact (proj1 heading_id_prefix 0 "## First" ["text"] initialState 2 "First"
           eq_refl initialState_wf eq_refl eq_refl).
Defined.

(** C2 as stated fails: the chapter of [## First] is not anchored at
    [chapter-first]. *)
Lemma heading_id_prefix_counterexample :
  exists o,
    parseMarkdown ("## First" ++ LF ++ "text") = Some o
    /\ map ch_id (o_chapters o) = ["chapter-1-first"]
    /\ map ch_id (o_chapters o) <> ["chapter-first"].
Proof.
  eexists. split; [vm_compute; reflexivity | ]. split; [reflexivity | discriminate].
Qed.

(** C9, as the code has it.  On a line of ASCII text, when the slug is
    empty, a heading that is not of level 2 gets the base [section-]
    followed by its 1-based position in the line stream; a level-2 heading
    gets [chapter-N-N], where N is the ordinal of the chapter, whatever its
    line. *)
Theorem empty_slug_fallback :
  (forall i raw rest st level text,
      isAsciiText raw = true ->
      WF st -> matchHeading (trim raw) = Some (level, text) ->
      Nat.eqb level 2 = false -> slugify (trim text) = "" ->
      exists st' id,
        parseStep i raw rest st = Some (1, st')
        /\ stateIds st' = List.app (stateIds st) [id]
        /\ idHasBase id ("section-" ++ showNat (i + 1)))
  /\ (forall i raw rest st text,
         isAsciiText raw = true ->
         WF st -> matchHeading (trim raw) = Some (2, text) ->
         slugify (normalizeChapterTitle (trim text)) = "" ->
         exists st' id,
           parseStep i raw rest st = Some (1, st')
           /\ stateIds st' = List.app (stateIds st) [id]
           /\ idHasBase id ("chapter-" ++ showNat (List.length (chapters st) + 1)
                              ++ "-" ++ showNat (List.length (chapters st) + 1)))
  /\ parseMarkdown ("intro" ++ LF ++ LF ++ "## !!!" ++ LF ++ "### ???")
     = Some (mkOutline [BParagraph "intro"]
               [mkChapter "!!!" "chapter-1-1" [BHeading 3 "???" "section-4"]
                  [mkSubsection "section-4" 3 "???" []]]).
Proof.
  split; [ | split; [ | vm_compute; reflexivity]].
  - intros i raw rest st level text _ W Hm L2 Hslug.
    destruct (parseStep_heading i raw rest st level text W Hm)
      as [st' [id [Hp [_ [Hids Hbase]]]]].
    exists st', id. split; [exact Hp | ]. split; [exact Hids | ].
    unfold headingBase, idBase in Hbase. now rewrite L2, Hslug in Hbase.
  - intros i raw rest st text _ W Hm Hslug.
    destruct (parseStep_heading i raw rest st 2 text W Hm)
      as [st' [id [Hp [_ [Hids Hbase]]]]].
    exists st', id. split; [exact Hp | ]. split; [exact Hids | ].
    unfold headingBase in Hbase. cbn [Nat.eqb] in Hbase.
    unfold idBase in Hbase. rewrite Hslug in Hbase. cbn [isEmpty] in Hbase.
    now rewrite sappend_assoc in Hbase.
Qed.

Lemma empty_slug_fallback_witness :
  (exists st' id,
      parseStep 3 "### ???" [] initialState = Some (1, st')
      /\ stateIds st' = List.app (stateIds initialState) [id]
      /\ idHasBase id ("section-" ++ showNat (3 + 1)))
  /\ (exists st' id,
         parseStep 2 "## !!!" ["### ???"] initialState = Some (1, st')
         /\ stateIds st' = List.app (stateIds initialState) [id]
         /\ idHasBase id ("chapter-" ++ showNat (0 + 1) ++ "-" ++ showNat (0 + 1))).
Proof.
  split.
  - exact (proj1 empty_slug_fallback 3 "### ???" [] initialState 3 "???"
             eq_refl initialState_wf eq_refl eq_refl eq_refl).
  - exact (proj1 (proj2 empty_slug_fallback) 2 "## !!!" ["### ???"] initialState "!!!"
             eq_refl initialState_wf eq_refl eq_refl).
Defined.

Lemma sexistsb_app (p : ascii -> bool) (a b : string) :
  sexistsb p (a ++ b) = sexistsb p a || sexistsb p b.
Proof.
  induction a as [|ch a IH]; simpl; [reflexivity | ].
  now rewrite IH, orb_assoc.
Qed.

Lemma lastChar_app (a b : string) : b <> "" -> lastChar (a ++ b) = lastChar b.
Proof.
  intros Hb. induction a as [|c a IH]; simpl; [reflexivity | ].
  rewrite IH. destruct (a ++ b) eqn:E; [ | reflexivity].
  destruct a; simpl in E; [now elim Hb | discriminate].
Qed.

(** C9 as stated fails for chapters: the level-2 heading on line 3 of this
    body has an empty slug, and its anchor is [chapter-1-1], which does not
    end in the position token 3. *)
Lemma empty_slug_fallback_counterexample :
  exists o,
    parseMarkdown ("intro" ++ LF ++ LF ++ "## !!!") = Some o
    /\ map ch_id (o_chapters o) = ["chapter-1-1"]
    /\ nth_error (bodyLines ("intro" ++ LF ++ LF ++ "## !!!")) 2 = Some "## !!!"
    /\ slugify (normalizeChapterTitle "!!!") = ""
    /\ forall prefix n, 2 <= n ->
         "chapter-1-1" <> prefix ++ "-" ++ showNat 3
         /\ "chapter-1-1" <> prefix ++ "-" ++ showNat 3 ++ "-" ++ showNat n.
Proof.
  eexists. split; [vm_compute; reflexivity | ]. split; [reflexivity | ].
  split; [vm_compute; reflexivity | ]. split; [vm_compute; reflexivity | ].
  intros prefix n Hn. split; intros H.
  - apply (f_equal lastChar) in H. rewrite lastChar_app in H by discriminate.
    vm_compute in H. discriminate.
  - apply (f_equal (sexistsb (codeIs 51))) in H.
    rewrite sexistsb_app in H. simpl in H. rewrite orb_true_r in H. discriminate.
Qed.

(** ** Occurrences in joined text *)

Lemma Contains_refl (s : string) : Contains s s.
Proof. exists "", "". simpl. now rewrite sappend_empty_r. Qed.

Lemma Contains_app_l (a b x : string) : Contains a b -> Contains a (x ++ b).
Proof.
  intros [p [q ->]]. exists (x ++ p), q. now rewrite sappend_assoc.
Qed.

Lemma Contains_app_r (a b x : string) : Contains a b -> Contains a (b ++ x).
Proof.
  intros [p [q ->]]. exists p, (q ++ x). now rewrite !sappend_assoc.
Qed.

Lemma Contains_trans (a b c : string) : Contains a b -> Contains b c -> Contains a c.
Proof.
  intros Hab [p [q ->]]. apply Contains_app_l, Contains_app_r. exact Hab.
Qed.

Lemma join_cons (sep x : string) (y : string) (rest : list string) :
  join sep (x :: y :: rest) = x ++ sep ++ join sep (y :: rest).
Proof. reflexivity. Qed.

Lemma Contains_join_in (sep x : string) (parts : list string) :
  In x parts -> Contains x (join sep parts).
Proof.
  induction parts as [|y rest IH]; intros Hin; [destruct Hin | ].
  destruct rest as [|z rest].
  - destruct Hin as [-> | []]. apply Contains_refl.
  - rewrite join_cons. destruct Hin as [-> | Hin].
    + apply Contains_app_r, Contains_refl.
    + apply Contains_app_l, Contains_app_l. now apply IH.
Qed.

Lemma mapi_in {A B} (f : A -> nat -> B) (x : A) :
  forall l start, In x l -> exists index, In (f x index) (mapi f start l).
Proof.
  induction l as [|y l IH]; intros start Hin; [destruct Hin | ].
  destruct Hin as [-> | Hin].
  - exists start. now left.
  - destruct (IH (S start) Hin) as [index H]. exists index. now right.
Qed.

(** ** The table of contents *)

Lemma tocNodeLines_eq (depth : nat) (node : Subsection) :
  tocNodeLines depth node
  = tocLiOpen (sub_level node) :: tocLink (sub_id node) (sub_title node)
      :: List.app (match sub_children node with
                   | [] => []
                   | _ :: _ => [renderTocSubsections (sub_children node) (S depth)]
                   end) [tocLiClose].
Proof. destruct node as [id level title [|c cs]]; reflexivity. Qed.

Lemma AtDepth_nonempty (d : nat) (n : Subsection) (forest : list Subsection) :
  AtDepth d n forest -> forest <> [].
Proof. intros H Hnil. subst forest. inversion H; subst; contradiction. Qed.

Lemma renderTocSubsections_eq (nodes : list Subsection) (depth : nat) :
  nodes <> [] ->
  renderTocSubsections nodes depth
  = join LF (List.app (tocOlOpen depth :: flat_map (tocNodeLines depth) nodes) [tocOlClose]).
Proof. destruct nodes; [now intros H | reflexivity]. Qed.

Lemma resolved_levels (st : ParseState) (chs : list Chapter) :
  WF st ->
  Forall2 (fun c ch => resolveChapter (heap st) c = Some ch) (chapters st) chs ->
  Forall (fun ch => Forall LevelsIncrease (ch_subsections ch)) chs.
Proof.
  intros W. induction 1 as [|c ch cells chs' H _ IH]; constructor; [ | exact IH].
  apply resolveChapter_fields in H as [_ [_ [_ Hs]]].
  apply mapOpt_Forall2 in Hs.
  induction Hs as [|r t refs ts Hr _ IHs]; constructor; [ | exact IHs].
  now apply (resolveSub_levels _ (wf_levels _ W) _ _ _ Hr).
Qed.

Lemma toc_shows_subsections (post : Post) (o : Outline) (ch : Chapter) :
  In ch (o_chapters o) ->
  Contains (renderTocSubsections (ch_subsections ch) 1) (tocHtml post o).
Proof.
  intros Hin. unfold tocHtml. destruct (o_chapters o) as [|c0 cs] eqn:E; [destruct Hin | ].
  destruct (mapi_in (renderTocChapter post) ch (c0 :: cs) 0 Hin) as [index Hi].
  eapply Contains_trans; [ | apply Contains_join_in; exact Hi].
  unfold renderTocChapter.
  destruct (renderTocSubsections (ch_subsections ch) 1) as [|c s] eqn:Es.
  - exists "", (join LF (filterBoolean ["            <li>";
       tpl "              <a href=~#" ++ escapeAttr (ch_id ch) ++ tpl "~>"
         ++ chapterLabel post (ch_title ch) index ++ "</a>"; ""; "            </li>"])).
    reflexivity.
  - apply Contains_join_in. unfold filterBoolean. apply filter_In. split; [ | reflexivity].
    right. right. now left.
Qed.

(** ** Documents without chapters *)



(** ** The sort of the index *)

Section StableSort.
Variable A : Type.
Variable cmp : A -> A -> Z.
Variable key : A -> Z.
Variable valid : A -> Prop.
Hypothesis cmp_key : forall x y, valid x -> valid y -> cmp x y = (key y - key x)%Z.

Lemma insertSorted_perm (x : A) (l : list A) :
  Permutation (x :: l) (insertSorted cmp x l).
Proof.
  induction l as [|y l IH]; simpl; [reflexivity | ].
  destruct (Z.leb (cmp x y) 0); [reflexivity | ].
  rewrite perm_swap. now constructor.
Qed.

Lemma arraySort_perm (l : list A) : Permutation l (arraySort cmp l).
Proof.
  induction l as [|x l IH]; simpl; [constructor | ].
  rewrite <- insertSorted_perm. now constructor.
Qed.

Lemma arraySort_valid (l : list A) : Forall valid l -> Forall valid (arraySort cmp l).
Proof.
  intros H. rewrite Forall_forall in *. intros x Hx. apply H.
  eapply Permutation_in; [symmetry; apply arraySort_perm | exact Hx].
Qed.

Lemma insertSorted_sorted (x : A) (l : list A) :
  valid x -> Forall valid l ->
  StronglySorted (descendingBy key) l -> StronglySorted (descendingBy key) (insertSorted cmp x l).
Proof.
  intros Hx. induction l as [|y l IH]; simpl; intros Hv Hs.
  - constructor; constructor.
  - inversion Hv as [|? ? Hy Hl]; subst. inversion Hs as [|? ? Hsl Hyl]; subst.
    rewrite (cmp_key x y Hx Hy). destruct (Z.leb (key y - key x) 0) eqn:E.
    + apply Z.leb_le in E. constructor; [exact Hs | ]. constructor.
      * unfold descendingBy. lia.
      * eapply Forall_impl; [ | exact Hyl]. unfold descendingBy. intros z. lia.
    + apply Z.leb_gt in E. constructor; [now apply IH | ].
      rewrite Forall_forall in *. intros z Hz.
      apply (Permutation_in _ (Permutation_sym (insertSorted_perm x l))) in Hz.
      destruct Hz as [<- | Hz]; [unfold descendingBy; lia | now apply Hyl].
Qed.

Lemma arraySort_sorted (l : list A) :
  Forall valid l -> StronglySorted (descendingBy key) (arraySort cmp l).
Proof.
  induction l as [|x l IH]; simpl; intros Hv; [constructor | ].
  inversion Hv; subst.
  apply insertSorted_sorted; [assumption | now apply arraySort_valid | now apply IH].
Qed.

(** Elements with the same key keep their order. *)
Lemma insertSorted_stable (t : Z) (x : A) (l : list A) :
  valid x -> Forall valid l ->
  filter (keyIs key t) (insertSorted cmp x l) = filter (keyIs key t) (x :: l).
Proof.
  intros Hx. induction l as [|y l IH]; intros Hv; [reflexivity | ].
  inversion Hv as [|? ? Hy Hl]; subst. simpl.
  rewrite (cmp_key x y Hx Hy). destruct (Z.leb (key y - key x) 0) eqn:E; [reflexivity | ].
  apply Z.leb_gt in E. simpl. rewrite (IH Hl). simpl. unfold keyIs.
  destruct (Z.eqb (key x) t) eqn:Ex, (Z.eqb (key y) t) eqn:Ey; try reflexivity.
  apply Z.eqb_eq in Ex, Ey. lia.
Qed.

Lemma arraySort_stable (t : Z) (l : list A) :
  Forall valid l -> filter (keyIs key t) (arraySort cmp l) = filter (keyIs key t) l.
Proof.
  induction l as [|x l IH]; intros Hv; [reflexivity | ].
  inversion Hv; subst. simpl arraySort.
  rewrite insertSorted_stable; [ | assumption | now apply arraySort_valid].
  simpl. now rewrite IH.
Qed.
End StableSort.

Lemma compareByDate_key (P : Platform) (a b : Post) :
  validDate P a -> validDate P b ->
  compareByDate P a b = (postTime P b - postTime P a)%Z.
Proof.
  unfold validDate, compareByDate, postTime. intros Ha Hb.
  destruct (dateParse P (post_date a)); [ | now elim Ha].
  destruct (dateParse P (post_date b)); [reflexivity | now elim Hb].
Qed.


(** ** The collector, document by document *)

Local Ltac split_match H :=
  match type of H with
  | context [match ?x with _ => _ end] => destruct x eqn:?
  end.

Lemma parseMetaLines_error (lines : list string) :
  forall meta e, parseMetaLines lines meta = inl e -> isDocumentError e = true.
Proof.
  induction lines as [|line rest IH]; simpl; intros meta e H; [discriminate | ].
  destruct (isEmpty (trim line)); [now apply IH in H | ].
  destruct (indexOf ":" line); [now apply IH in H | ].
  now injection H as <-.
Qed.

Lemma parseFrontMatter_error (content : string) (e : BuildError) :
  parseFrontMatter content = inl e -> isDocumentError e = true.
Proof.
  unfold parseFrontMatter. intros H.
  repeat split_match H; try discriminate; try (injection H as <-; try reflexivity).
  eapply parseMetaLines_error; eassumption.
Qed.

Lemma requireString_error value fieldName e :
  requireString value fieldName = inl e -> isDocumentError e = true.
Proof.
  unfold requireString. intros H.
  repeat split_match H; try discriminate; now injection H as <-.
Qed.

Lemma parseBooleanFlag_error value fieldName d e :
  parseBooleanFlag value fieldName d = inl e -> isDocumentError e = true.
Proof.
  unfold parseBooleanFlag. intros H.
  repeat split_match H; try discriminate; now injection H as <-.
Qed.

Lemma readPost_error P categorySlug slug contentRaw e :
  readPost P categorySlug slug contentRaw = inl e -> isDocumentError e = true.
Proof.
  unfold readPost. intros H.
  repeat split_match H; try discriminate; injection H as <-;
    eauto using parseFrontMatter_error, requireString_error, parseBooleanFlag_error.
Qed.

Lemma readPost_post P categorySlug slug contentRaw post body :
  readPost P categorySlug slug contentRaw = inr (post, body) ->
  post_urlPath post = urlPathOf categorySlug slug
  /\ post_categorySlug post = categorySlug /\ post_slug post = slug
  /\ validDate P post.
Proof.
  unfold readPost. intros H.
  repeat split_match H; try discriminate. injection H as <- <-. simpl.
  repeat split. unfold validDate. simpl. congruence.
Qed.

Lemma buildPostHtml_total post config markdown :
  exists html, buildPostHtml post config markdown = Some html.
Proof.
  unfold buildPostHtml.
  destruct (parseMarkdown_total markdown) as [_ [o [_ [_ [-> _]]]]]. now eexists.
Qed.

(** What one document does to a state that satisfies the invariant. *)
Lemma processPost_cases P config categorySlug slug contentRaw st :
  CollectInv P st ->
  let postDir := mkPostDir slug true (Some contentRaw) in
  (exists e, processPost P config categorySlug postDir st = inl e
             /\ readPost P categorySlug slug contentRaw = inl e
             /\ isDocumentError e = true)
  \/ (processPost P config categorySlug postDir st
      = inl (DuplicateOutputPath (urlPathOf categorySlug slug))
      /\ In (urlPathOf categorySlug slug) (seenUrlPaths st)
      /\ exists post body, readPost P categorySlug slug contentRaw = inr (post, body))
  \/ (exists post body html,
         readPost P categorySlug slug contentRaw = inr (post, body)
         /\ ~ In (urlPathOf categorySlug slug) (seenUrlPaths st)
         /\ buildPostHtml post config body = Some html
         /\ processPost P config categorySlug postDir st
            = inr (mkCollectState (List.app (posts st) [post])
                     (List.app (seenUrlPaths st) [urlPathOf categorySlug slug])
                     (List.app (written st) [(htmlPathOf categorySlug slug, html)]))
         /\ CollectInv P (mkCollectState (List.app (posts st) [post])
                            (List.app (seenUrlPaths st) [urlPathOf categorySlug slug])
                            (List.app (written st) [(htmlPathOf categorySlug slug, html)]))).
Proof.
  intros Inv postDir. unfold processPost. simpl.
  destruct (readPost P categorySlug slug contentRaw) as [e | [post body]] eqn:R.
  - left. exists e. split; [reflexivity | ]. split; [reflexivity | ].
    eapply readPost_error; exact R.
  - right. destruct (readPost_post _ _ _ _ _ _ R) as [Hu [Hc [Hs Hd]]]. rewrite Hu.
    destruct (hasId (seenUrlPaths st) (urlPathOf categorySlug slug)) eqn:Hseen.
    + left. split; [reflexivity | ]. split; [now apply hasId_In | now exists post, body].
    + right. apply hasId_false in Hseen.
      destruct (buildPostHtml_total post config body) as [html Hh]. rewrite Hh.
      exists post, body, html. repeat split; try easy.
      * simpl. rewrite map_app, (ci_seen _ _ Inv). simpl. now rewrite Hu.
      * simpl. apply NoDup_snoc; [apply Inv | exact Hseen].
      * simpl. apply Forall_app. split; [apply Inv | now constructor].
      * simpl in H. apply in_app_or in H as [H | [<- | []]]; [now apply Inv | ].
        now rewrite Hu, Hc, Hs.
      * simpl in *. apply in_app_or in H as [H | [<- | []]].
        -- destruct (ci_pages _ _ Inv _ H) as [_ [h Hin]]. exists h.
           apply in_or_app. now left.
        -- exists html. rewrite Hc, Hs. apply in_or_app. right. now left.
Qed.

Lemma processDocs_app P config (a b : list Document) (st : CollectState) :
  processDocs P config (List.app a b) st
  = match processDocs P config a st with
    | (Some e, st') => (Some e, st')
    | (None, st') => processDocs P config b st'
    end.
Proof.
  revert st. induction a as [|[[c s] t] a IH]; intros st; simpl.
  - now destruct (processDocs P config b st) as [[e|] st'].
  - destruct (processPost P config c _ st); [reflexivity | apply IH].
Qed.

Lemma processPostDirs_docs P config categorySlug (entries : list PostDir) :
  forall st,
    processPostDirs P config categorySlug entries st
    = processDocs P config (documentsOf (mkCategoryDir categorySlug true entries)) st.
Proof.
  unfold documentsOf. simpl.
  induction entries as [|[name dir content] rest IH]; intros st; simpl; [reflexivity | ].
  unfold processPost at 1. simpl.
  destruct dir; simpl; [ | apply IH].
  destruct content as [contentRaw|]; simpl; [ | apply IH].
  unfold processPost. simpl.
  destruct (readPost P categorySlug name contentRaw) as [e | [post body]]; [reflexivity | ].
  destruct (hasId _ _); [reflexivity | ].
  destruct (buildPostHtml post config body); [apply IH | reflexivity].
Qed.

Lemma processCategoryDirs_docs P config (dirs : list CategoryDir) :
  forall st,
    processCategoryDirs P config dirs st = processDocs P config (sourceDocuments dirs) st.
Proof.
  unfold sourceDocuments.
  induction dirs as [|[name dir entries] rest IH]; intros st; simpl; [reflexivity | ].
  destruct dir; simpl.
  - rewrite processDocs_app, processPostDirs_docs.
    destruct (processDocs P config _ st) as [[e|] st']; [reflexivity | apply IH].
  - unfold documentsOf at 1. simpl. apply IH.
Qed.

Lemma initial_CollectInv (P : Platform) : CollectInv P (mkCollectState [] [] []).
Proof.
  constructor; simpl.
  - reflexivity.
  - constructor.
  - constructor.
  - intros p [].
Qed.

(** A run over documents that ends without error has met them all, in
    order. *)
Lemma processDocs_done P config (docs : list Document) :
  forall st st',
    CollectInv P st -> processDocs P config docs st = (None, st') ->
    CollectInv P st'
    /\ map postPair (posts st') = List.app (map postPair (posts st)) (map docPair docs).
Proof.
  induction docs as [|[[c s] t] docs IH]; intros st st' Inv; simpl.
  - intros H. injection H as <-. split; [exact Inv | now rewrite app_nil_r].
  - destruct (processPost_cases P config c s t st Inv)
      as [[e [-> _]] | [[-> _] | [post [body [html [R [_ [_ [-> Inv']]]]]]]]];
      try discriminate.
    intros H. apply (IH _ _ Inv') in H as [Inv'' Hp]. split; [exact Inv'' | ].
    rewrite Hp. simpl. rewrite map_app, <- app_assoc. simpl.
    destruct (readPost_post _ _ _ _ _ _ R) as [_ [Hc [Hs _]]].
    do 2 f_equal. unfold postPair, docPair. simpl. now rewrite Hc, Hs.
Qed.

(** A run that throws leaves the state of the last document accepted; if
    the error is the duplicate path, that path had been taken. *)
Lemma processDocs_threw P config (docs : list Document) :
  forall st st' e,
    CollectInv P st -> processDocs P config docs st = (Some e, st') ->
    CollectInv P st'
    /\ (forall u, e = DuplicateOutputPath u -> In u (seenUrlPaths st'))
    /\ e <> Stuck.
Proof.
  induction docs as [|[[c s] t] docs IH]; intros st st' e Inv; simpl; [discriminate | ].
  destruct (processPost_cases P config c s t st Inv)
    as [[e0 [-> [_ He]]] | [[-> [Hin _]] | [post [body [html [_ [_ [_ [-> Inv']]]]]]]]].
  - intros H. injection H as <- <-. split; [exact Inv | ].
    split; [intros u -> | intros ->]; discriminate He.
  - intros H. injection H as <- <-. split; [exact Inv | ].
    split; [ | discriminate]. intros u Hu. now injection Hu as <-.
  - now apply IH.
Qed.

(** ** The index and the feed *)

Lemma collectPosts_done P config categoryDirs sorted files :
  collectPosts P config categoryDirs = Done sorted files ->
  exists st,
    CollectInv P st /\ sorted = sortPosts P (posts st) /\ files = written st
    /\ map postPair (posts st)
       = map docPair (sourceDocuments (match categoryDirs with
                                       | Some dirs => dirs
                                       | None => []
                                       end)).
Proof.
  unfold collectPosts. destruct categoryDirs as [dirs|].
  - rewrite processCategoryDirs_docs.
    destruct (processDocs P config (sourceDocuments dirs) (mkCollectState [] [] []))
      as [[e|] st] eqn:E; [discriminate | ].
    intros H. injection H as <- <-.
    destruct (processDocs_done _ _ _ _ _ (initial_CollectInv P) E) as [Inv Hp].
    exists st. split; [exact Inv | ]. split; [reflexivity | ]. split; [reflexivity | exact Hp].
  - intros H. injection H as <- <-. exists (mkCollectState [] [] []).
    split; [apply initial_CollectInv | ]. split; [reflexivity | ]. split; reflexivity.
Qed.

(** C6.  When [collectPosts] returns, the index it returns is the list of
    posts in the order the documents were met, sorted by a stable sort into
    descending order of publish date: it is a permutation of that list, each
    post is dated no later than the ones before it, and posts of equal date
    keep their encounter order.  [main] writes the index and the feed from
    this one list, and the k-th [item] of the feed is that of the k-th post.
    With a document dated 2026-01-01 met before one dated 2026-02-01, the
    post of 2026-02-01 is first in the index and its [item] is first in the
    feed. *)
Theorem index_and_feed_sorted :
  (forall P config categoryDirs sorted files,
      collectPosts P config categoryDirs = Done sorted files ->
      exists encountered,
        sorted = sortPosts P encountered
        /\ map postPair encountered
           = map docPair (sourceDocuments (match categoryDirs with
                                           | Some dirs => dirs
                                           | None => []
                                           end))
        /\ Permutation encountered sorted
        /\ StronglySorted (descendingBy (postTime P)) sorted
        /\ (forall t, filter (keyIs (postTime P) t) sorted
                      = filter (keyIs (postTime P) t) encountered)
        /\ main P config categoryDirs
           = Done tt (List.app files
                        [ ("build/content/posts.json", stringifyPosts P sorted ++ LF);
                          ("build/rss.xml", renderRss P config sorted) ])
        /\ (forall k, nth_error (rssItems P config sorted) k
                      = option_map
                          (rssItem P (stripTrailingSlash (orElse (siteUrl config) "")))
                          (nth_error sorted k))
        /\ Contains (join LF (rssItems P config sorted)) (renderRss P config sorted))
  /\ (exists files,
         collectPosts isoPlatform exampleConfig (Some twoDated)
         = Done [ examplePost "February" "2026-02-01" "February 1, 2026" "february";
                  examplePost "January" "2026-01-01" "January 1, 2026" "january" ] files
         /\ map fst files = [ "build/essays/january/index.html";
                              "build/essays/february/index.html" ])
  /\ rssItems isoPlatform exampleConfig
       [ examplePost "February" "2026-02-01" "February 1, 2026" "february";
         examplePost "January" "2026-01-01" "January 1, 2026" "january" ]
     = [ join LF [ "    <item>";
                   "      <title>February</title>";
                   "      <link>https://example.org/essays/february/</link>";
                   "      <guid>https://example.org/essays/february/</guid>";
                   "      <pubDate>Sun, 01 Feb 2026 00:00:00 GMT</pubDate>";
                   "      <description>A test</description>";
                   "    </item>" ];
         join LF [ "    <item>";
                   "      <title>January</title>";
                   "      <link>https://example.org/essays/january/</link>";
                   "      <guid>https://example.org/essays/january/</guid>";
                   "      <pubDate>Thu, 01 Jan 2026 00:00:00 GMT</pubDate>";
                   "      <description>A test</description>";
                   "    </item>" ] ].
Proof.
  split; [ | split; [eexists; split; vm_compute; reflexivity | vm_compute; reflexivity]].
  intros P config categoryDirs sorted files H.
  destruct (collectPosts_done _ _ _ _ _ H) as [st [Inv [Hs [Hf Hp]]]].
  exists (posts st). split; [exact Hs | ]. split; [exact Hp | ].
  subst sorted. unfold sortPosts.
  split; [apply arraySort_perm | ].
  split; [apply (arraySort_sorted _ _ _ (validDate P) (compareByDate_key P)), Inv | ].
  split; [intros t; apply (arraySort_stable _ _ _ (validDate P) (compareByDate_key P)), Inv | ].
  split; [unfold main; now rewrite H | ].
  split; [intros k; unfold rssItems; apply nth_error_map | ].
  unfold renderRss. apply Contains_join_in. simpl. tauto.
Qed.

Lemma index_and_feed_sorted_witness :
  match collectPosts isoPlatform exampleConfig (Some twoDated) with
  | Done sorted files =>
      exists encountered,
        sorted = sortPosts isoPlatform encountered
        /\ map postPair encountered = [("essays", "january"); ("essays", "february")]
        /\ StronglySorted (descendingBy (postTime isoPlatform)) sorted
  | Threw _ _ => False
  end.
Proof.
  destruct (collectPosts isoPlatform exampleConfig (Some twoDated))
    as [sorted files | e files] eqn:E.
  - destruct (proj1 index_and_feed_sorted _ _ _ _ _ E)
      as [encountered [Hs [Hp [_ [Hd _]]]]].
    exists encountered. split; [exact Hs | ]. split; [exact Hp | exact Hd].
  - vm_compute in E. discriminate E.
Defined.

(** * Further properties *)

(** ** Escaping, character by character *)

Lemma codeIs_true (n : nat) (c : ascii) : codeIs n c = true -> c = ascii_of_nat n.
Proof.
  unfold codeIs. intros H. apply Nat.eqb_eq in H. rewrite <- H.
  symmetry. apply ascii_nat_embedding.
Qed.

Lemma replaceAllChar_app (n : nat) (rep a b : string) :
  replaceAllChar n rep (a ++ b) = replaceAllChar n rep a ++ replaceAllChar n rep b.
Proof.
  induction a as [|c a IH]; simpl; [reflexivity | ].
  destruct (codeIs n c); rewrite IH; [now rewrite sappend_assoc | reflexivity].
Qed.

Lemma escapeHtml_app (a b : string) : escapeHtml (a ++ b) = escapeHtml a ++ escapeHtml b.
Proof. unfold escapeHtml. now rewrite !replaceAllChar_app. Qed.

Lemma escapeHtml_one (c : ascii) : escapeHtml (String c "") = escapeChar c.
Proof.
  unfold escapeHtml, escapeChar. simpl.
  destruct (codeIs 38 c) eqn:E1; [reflexivity | ]. simpl.
  destruct (codeIs 60 c) eqn:E2; [reflexivity | ]. simpl.
  destruct (codeIs 62 c) eqn:E3; [reflexivity | ]. simpl.
  destruct (codeIs 34 c) eqn:E4; [reflexivity | ]. simpl.
  destruct (codeIs 39 c) eqn:E5; reflexivity.
Qed.

Lemma escapeHtml_cons (c : ascii) (s : string) :
  escapeHtml (String c s) = escapeChar c ++ escapeHtml s.
Proof.
  change (String c s) with (String c "" ++ s).
  now rewrite escapeHtml_app, escapeHtml_one.
Qed.

Lemma escapeChar_length (c : ascii) :
  (if isHtmlSensitive c then 4 else 1) <= String.length (escapeChar c)
  /\ (isHtmlSensitive c = false -> escapeChar c = String c "").
Proof.
  unfold isHtmlSensitive, escapeChar.
  destruct (codeIs 38 c), (codeIs 60 c), (codeIs 62 c), (codeIs 34 c), (codeIs 39 c);
    simpl; split; try lia; try discriminate; reflexivity.
Qed.

Lemma escapeHtml_length (s : string) : String.length s <= String.length (escapeHtml s).
Proof.
  induction s as [|c s IH]; [simpl; lia | ].
  rewrite escapeHtml_cons, sappend_length. simpl.
  destruct (escapeChar_length c) as [H _]. destruct (isHtmlSensitive c); lia.
Qed.

Lemma escapeHtml_plain (s : string) :
  sexistsb isHtmlSensitive s = false -> escapeHtml s = s.
Proof.
  induction s as [|c s IH]; [reflexivity | ]. simpl. intros H.
  apply orb_false_iff in H as [Hc Hs].
  rewrite escapeHtml_cons, (proj2 (escapeChar_length c) Hc), IH by exact Hs. reflexivity.
Qed.

(** X1.  [escapeHtml] works character by character: the chain of five
    [replaceAll] calls never touches the entities it has produced itself, so
    the result is the concatenation of what each character becomes, and
    escaping distributes over concatenation. *)
Theorem escapeHtml_characterwise :
  (forall s, escapeHtml s = sflatMap escapeChar s)
  /\ (forall a b, escapeHtml (a ++ b) = escapeHtml a ++ escapeHtml b).
Proof.
  split; [ | exact escapeHtml_app].
  induction s as [|c s IH]; [reflexivity | ].
  rewrite escapeHtml_cons, IH. reflexivity.
Qed.

(** X2.  Escaping never shortens a text, and it returns the text unchanged
    exactly when the text has none of the five characters [&], [<], [>],
    double quote and apostrophe. *)
Theorem escapeHtml_identity_iff :
  forall s,
    String.length s <= String.length (escapeHtml s)
    /\ (escapeHtml s = s <-> sexistsb isHtmlSensitive s = false).
Proof.
  intros s. split; [apply escapeHtml_length | ]. split; [ | apply escapeHtml_plain].
  induction s as [|c s IH]; [reflexivity | ]. intros H. simpl.
  destruct (isHtmlSensitive c) eqn:E.
  - exfalso. apply (f_equal String.length) in H.
    rewrite escapeHtml_cons, sappend_length in H. simpl in H.
    destruct (escapeChar_length c) as [Hl _]. rewrite E in Hl.
    pose proof (escapeHtml_length s). lia.
  - simpl. apply IH.
    rewrite escapeHtml_cons, (proj2 (escapeChar_length c) E) in H. simpl in H.
    now injection H.
Qed.

Lemma escapeChar_prefix_free (c d : ascii) (a b : string) :
  escapeChar c ++ a = escapeChar d ++ b -> c = d /\ a = b.
Proof.
  unfold escapeChar.
  destruct (codeIs 38 c) eqn:C1; [ | destruct (codeIs 60 c) eqn:C2;
    [ | destruct (codeIs 62 c) eqn:C3; [ | destruct (codeIs 34 c) eqn:C4;
      [ | destruct (codeIs 39 c) eqn:C5 ]]]];
  (destruct (codeIs 38 d) eqn:D1; [ | destruct (codeIs 60 d) eqn:D2;
    [ | destruct (codeIs 62 d) eqn:D3; [ | destruct (codeIs 34 d) eqn:D4;
      [ | destruct (codeIs 39 d) eqn:D5 ]]]]);
  repeat match goal with
         | H : codeIs _ _ = true |- _ => apply codeIs_true in H; subst
         end;
  simpl; intros H; try discriminate H;
  try (injection H as H; split; [reflexivity | congruence]);
  try (injection H as H1 H2; subst; discriminate);
  try (injection H as -> ->; now split).
Qed.

(** X3.  Escaping loses nothing: two texts with the same escaped form are
    the same text. *)
Theorem escapeHtml_injective :
  forall a b, escapeHtml a = escapeHtml b -> a = b.
Proof.
  induction a as [|c a IH]; intros [|d b] H.
  - reflexivity.
  - exfalso. apply (f_equal String.length) in H. rewrite escapeHtml_cons, sappend_length in H.
    simpl in H. destruct (escapeChar_length d) as [Hl _]. destruct (isHtmlSensitive d); lia.
  - exfalso. apply (f_equal String.length) in H. rewrite escapeHtml_cons, sappend_length in H.
    simpl in H. destruct (escapeChar_length c) as [Hl _]. destruct (isHtmlSensitive c); lia.
  - rewrite !escapeHtml_cons in H. apply escapeChar_prefix_free in H as [-> H].
    f_equal. now apply IH.
Qed.

Lemma escapeHtml_injective_witness :
  escapeHtml "<b>" = escapeHtml ("<" ++ "b>") /\ "<b>" = "<" ++ "b>".
Proof.
  split; [reflexivity | apply escapeHtml_injective; reflexivity].
Defined.

(** X4.  The text that [xmlEscape] returns for the feed contains none of
    the characters [<], [>], double quote and apostrophe. *)
Theorem xmlEscape_no_markup :
  forall s,
    noChar 60 (xmlEscape s) /\ noChar 62 (xmlEscape s)
    /\ noChar 34 (xmlEscape s) /\ noChar 39 (xmlEscape s).
Proof. intros s. unfold xmlEscape. repeat split; no_char. Qed.

(** ** Slugs *)

Lemma replaceG_skip (m : string -> option (string * nat)) :
  forall s k, replaceG m k s = replaceG m 0 (sdrop k s).
Proof.
  induction s as [|c s IH]; intros [|k]; try reflexivity.
  simpl sdrop. rewrite <- IH. reflexivity.
Qed.

Lemma replaceG_none (m : string -> option (string * nat)) (F : ascii -> bool) :
  (forall c t, F c = false -> m (String c t) = None) ->
  forall s, sexistsb F s = false -> replaceG m 0 s = s.
Proof.
  intros Hm. induction s as [|c s IH]; [reflexivity | ]. simpl. intros H.
  apply orb_false_iff in H as [Hc Hs]. now rewrite (Hm c s Hc), IH.
Qed.

Lemma sforallb_sfilter (p : ascii -> bool) (s : string) : sforallb p (sfilter p s) = true.
Proof.
  induction s as [|c s IH]; [reflexivity | ]. simpl.
  destruct (p c) eqn:E; [simpl; now rewrite E | exact IH].
Qed.

Lemma sforallb_sdrop (p : ascii -> bool) :
  forall s n, sforallb p s = true -> sforallb p (sdrop n s) = true.
Proof.
  induction s as [|c s IH]; intros [|n] H; try exact H.
  simpl in *. apply andb_true_iff in H as [_ H]. now apply IH.
Qed.

Lemma sforallb_trimEnd (p : ascii -> bool) (s : string) :
  sforallb p s = true -> sforallb p (trimEnd s) = true.
Proof.
  induction s as [|c s IH]; [easy | ]. simpl. intros H.
  apply andb_true_iff in H as [Hc Hs].
  destruct (isWhitespace c && isEmpty (trimEnd s)); [reflexivity | ].
  simpl. now rewrite Hc, IH.
Qed.

Lemma sforallb_trim (p : ascii -> bool) (s : string) :
  sforallb p s = true -> sforallb p (trim s) = true.
Proof. intros H. unfold trim, trimStart. now apply sforallb_trimEnd, sforallb_sdrop. Qed.

Lemma sforallb_impl (p q : ascii -> bool) (s : string) :
  (forall c, p c = true -> q c = true) -> sforallb p s = true -> sforallb q s = true.
Proof.
  intros Hpq. induction s as [|c s IH]; [easy | ]. simpl. intros H.
  apply andb_true_iff in H as [Hc Hs]. now rewrite (Hpq c Hc), IH.
Qed.

Lemma collapseRuns_chars (p r q : ascii -> bool) (rep : string) :
  (forall c, r c = true -> p c = false -> q c = true) ->
  sforallb q rep = true ->
  forall s, sforallb r s = true -> sforallb q (collapseRuns p rep s) = true.
Proof.
  intros Hrq Hrep. unfold collapseRuns.
  assert (H : forall s k, sforallb r s = true ->
              sforallb q (replaceG (fun t => match spanLen p t with
                                             | O => None
                                             | n => Some (rep, n)
                                             end) k s) = true);
    [ | intros s; apply H].
  induction s as [|c s IH]; intros k Hs; [reflexivity | ].
  simpl in Hs. apply andb_true_iff in Hs as [Hc Hs].
  destruct k as [|k]; [ | now apply IH]. simpl.
  destruct (p c) eqn:E.
  - rewrite sforallb_app, Hrep. now apply IH.
  - simpl. rewrite (Hrq c Hc E). now apply IH.
Qed.

Lemma replaceG_step (m : string -> option (string * nat)) (c : ascii) (s : string) :
  replaceG m 0 (String c s)
  = match m (String c s) with
    | Some (rep, n) => rep ++ replaceG m (n - 1) s
    | None => String c (replaceG m 0 s)
    end.
Proof. reflexivity. Qed.

Lemma runMatcher_cons (p : ascii -> bool) (rep : string) (c : ascii) (s : string) :
  runMatcher p rep (String c s)
  = if p c then Some (rep, S (spanLen p s)) else None.
Proof. unfold runMatcher. simpl. now destruct (p c). Qed.

Lemma collapseRuns_noAdjacent (p : ascii -> bool) (rc : ascii) :
  forall s, noAdjacent p (collapseRuns p (String rc "") s) = true.
Proof.
  change (forall s, noAdjacent p (replaceG (runMatcher p (String rc "")) 0 s) = true).
  set (m := runMatcher p (String rc "")).
  assert (Hhead : forall s, headNot p (replaceG m (spanLen p s) s) = true).
  { induction s as [|c s IH]; [reflexivity | ]. simpl spanLen.
    destruct (p c) eqn:E; [exact IH | ].
    rewrite replaceG_step. unfold m at 1. rewrite runMatcher_cons, E. simpl. now rewrite E. }
  assert (Hcons : forall a t, headNot p t = true -> noAdjacent p t = true ->
                    noAdjacent p (String a t) = true).
  { intros a [|b t] Hh Hn; simpl in *; [reflexivity | ].
    rewrite Hn. apply negb_true_iff in Hh. rewrite Hh, andb_false_r. reflexivity. }
  assert (Hcons' : forall a t, p a = false -> noAdjacent p t = true ->
                     noAdjacent p (String a t) = true).
  { intros a [|b t] Ha Hn; simpl in *; [reflexivity | ]. now rewrite Hn, Ha. }
  assert (H : forall s k, k = 0 \/ k = spanLen p s -> noAdjacent p (replaceG m k s) = true);
    [ | intros s; apply H; now left].
  induction s as [|c s IH]; intros k Hk; [reflexivity | ].
  destruct k as [|k].
  - rewrite replaceG_step. unfold m at 1. rewrite runMatcher_cons. destruct (p c) eqn:E.
    + simpl. rewrite Nat.sub_0_r. apply Hcons; [apply Hhead | apply IH; now right].
    + apply Hcons'; [exact E | apply IH; now left].
  - destruct Hk as [Hk | Hk]; [discriminate | ]. simpl in Hk.
    destruct (p c); [ | discriminate]. injection Hk as ->. simpl. apply IH. now right.
Qed.

Lemma collapseRuns_fixed (p : ascii -> bool) (rc : ascii) :
  (forall c, p c = true -> c = rc) ->
  forall s, noAdjacent p s = true -> collapseRuns p (String rc "") s = s.
Proof.
  intros Hp. unfold collapseRuns. induction s as [|c s IH]; [reflexivity | ].
  intros Hn. simpl in Hn. apply andb_true_iff in Hn as [Hpair Hn]. simpl.
  destruct (p c) eqn:E.
  - assert (Hs : spanLen p s = 0).
    { destruct s as [|b s]; [reflexivity | ]. simpl. simpl in Hpair.
      apply negb_true_iff in Hpair. now rewrite Hpair. }
    rewrite Hs. simpl. rewrite (Hp c E). f_equal. now apply IH.
  - f_equal. now apply IH.
Qed.

Lemma slugify_chars (value : string) : sforallb isSlugOut (slugify value) = true.
Proof.
  unfold slugify.
  apply (collapseRuns_chars (codeIs 45) isSlugOut isSlugOut); [auto | reflexivity | ].
  apply (collapseRuns_chars isWhitespace isSlugChar isSlugOut).
  - intros c. unfold isSlugChar, isSlugOut. intros H Hw. rewrite Hw, orb_false_r in H.
    exact H.
  - reflexivity.
  - apply sforallb_trim, sforallb_sfilter.
Qed.

Lemma isSlugOut_classes (c : ascii) :
  isSlugOut c = true ->
  isUpperAlpha c = false /\ isWhitespace c = false /\ isSlugChar c = true.
Proof.
  unfold isSlugOut, isUpperAlpha, isWhitespace, isSlugChar, isLowerAlpha, isDigit, codeIs.
  generalize (nat_of_ascii c). intros n H.
  repeat rewrite ?orb_true_iff, ?andb_true_iff, ?Nat.leb_le, ?Nat.eqb_eq in H.
  repeat split.
  - apply andb_false_iff. rewrite !Nat.leb_gt. lia.
  - apply orb_false_iff. rewrite andb_false_iff, !Nat.leb_gt, Nat.eqb_neq. lia.
  - repeat rewrite ?orb_true_iff, ?andb_true_iff, ?Nat.leb_le, ?Nat.eqb_eq. lia.
Qed.

Lemma smap_fixed (f : ascii -> ascii) (p : ascii -> bool) (s : string) :
  (forall c, p c = true -> f c = c) -> sforallb p s = true -> smap f s = s.
Proof.
  intros Hf. induction s as [|c s IH]; [easy | ]. simpl. intros H.
  apply andb_true_iff in H as [Hc Hs]. now rewrite (Hf c Hc), IH.
Qed.

Lemma sfilter_fixed (p : ascii -> bool) (s : string) :
  sforallb p s = true -> sfilter p s = s.
Proof.
  induction s as [|c s IH]; [easy | ]. simpl. intros H.
  apply andb_true_iff in H as [Hc Hs]. now rewrite Hc, IH.
Qed.

Lemma trimEnd_fixed (s : string) : sexistsb isWhitespace s = false -> trimEnd s = s.
Proof.
  induction s as [|c s IH]; [easy | ]. simpl. intros H.
  apply orb_false_iff in H as [Hc Hs]. now rewrite Hc, IH.
Qed.

Lemma trim_fixed (s : string) : sexistsb isWhitespace s = false -> trim s = s.
Proof.
  intros H. unfold trim, trimStart.
  assert (Hz : spanLen isWhitespace s = 0).
  { destruct s as [|c s]; [reflexivity | ]. simpl in *.
    apply orb_false_iff in H as [-> _]. reflexivity. }
  rewrite Hz. simpl. now apply trimEnd_fixed.
Qed.

Lemma sexistsb_false (p q : ascii -> bool) (s : string) :
  (forall c, q c = true -> p c = false) -> sforallb q s = true -> sexistsb p s = false.
Proof.
  intros Hpq. induction s as [|c s IH]; [easy | ]. simpl. intros H.
  apply andb_true_iff in H as [Hc Hs]. now rewrite (Hpq c Hc), IH.
Qed.

Lemma slugify_hyphens (value : string) : noAdjacent (codeIs 45) (slugify value) = true.
Proof. unfold slugify. apply (collapseRuns_noAdjacent (codeIs 45) "-"%char). Qed.

(** X5.  A slug is made of lower-case letters, digits and hyphens only, and
    it never has two hyphens in a row. *)
Theorem slugify_alphabet :
  forall value,
    sforallb isSlugOut (slugify value) = true
    /\ noAdjacent (codeIs 45) (slugify value) = true.
Proof.
  intros value. split; [apply slugify_chars | apply slugify_hyphens].
Qed.

(** X6.  [slugify] is idempotent: a slug is its own slug. *)
Theorem slugify_idempotent :
  forall value, slugify (slugify value) = slugify value.
Proof.
  intros value. pose proof (slugify_chars value) as Hc.
  pose proof (slugify_hyphens value) as Hn.
  remember (slugify value) as out. unfold slugify, toLowerCase.
  assert (Hnw : sexistsb isWhitespace out = false).
  { apply (sexistsb_false _ isSlugOut); [ | exact Hc].
    intros c H. now apply isSlugOut_classes in H. }
  rewrite (smap_fixed toLowerChar isSlugOut out).
  - rewrite sfilter_fixed.
    + rewrite trim_fixed by exact Hnw.
      replace (collapseRuns isWhitespace "-" out) with out.
      * apply (collapseRuns_fixed (codeIs 45) "-"%char); [ | exact Hn].
        intros c H. now apply codeIs_true in H.
      * symmetry. unfold collapseRuns. apply (replaceG_none _ isWhitespace); [ | exact Hnw].
        intros c t H. simpl. now rewrite H.
    + eapply sforallb_impl; [ | exact Hc]. intros c H. now apply isSlugOut_classes in H.
  - intros c H. apply isSlugOut_classes in H as [Hu _]. unfold toLowerChar. now rewrite Hu.
  - exact Hc.
Qed.

(** ** The inline renderer on plain text, code spans and placeholders *)

Lemma startsWith_first (a : ascii) (p : string) (c : ascii) (t : string) :
  codeIs (nat_of_ascii a) c = false -> startsWith (String a p) (String c t) = false.
Proof.
  unfold startsWith, codeIs. simpl. intros H.
  destruct (ascii_dec a c) as [-> | _]; [ | reflexivity].
  now rewrite Nat.eqb_refl in H.
Qed.

Lemma replaceGSt_none {St : Type} (m : St -> string -> option (string * nat * St))
    (F : ascii -> bool) :
  (forall st c t, F c = false -> m st (String c t) = None) ->
  forall s st, sexistsb F s = false -> replaceGSt m 0 st s = (s, st).
Proof.
  intros Hm. induction s as [|c s IH]; intros st H; [reflexivity | ]. simpl in *.
  apply orb_false_iff in H as [Hc Hs]. now rewrite (Hm st c s Hc), (IH st Hs).
Qed.

Lemma replaceGSt_skip_all {St : Type} (m : St -> string -> option (string * nat * St)) :
  forall s k st, String.length s <= k -> replaceGSt m k st s = ("", st).
Proof.
  induction s as [|c s IH]; intros k st H; [reflexivity | ].
  destruct k as [|k]; simpl in *; [lia | ]. apply IH. lia.
Qed.

Lemma replaceG_skip_all (m : string -> option (string * nat)) :
  forall s k, String.length s <= k -> replaceG m k s = "".
Proof.
  induction s as [|c s IH]; intros k H; [reflexivity | ].
  destruct k as [|k]; simpl in *; [lia | ]. apply IH. lia.
Qed.

Lemma spanLen_app_stop (p : ascii -> bool) (e : string) (c : ascii) (t : string) :
  sforallb p e = true -> p c = false -> spanLen p (e ++ String c t) = String.length e.
Proof.
  intros He Hc. induction e as [|a e IH]; simpl in *; [now rewrite Hc | ].
  apply andb_true_iff in He as [Ha He]. now rewrite Ha, IH.
Qed.

Lemma sdrop_app_length (e t : string) : sdrop (String.length e) (e ++ t) = t.
Proof. induction e as [|a e IH]; [now destruct t | exact IH]. Qed.

Lemma stake_app_length (e t : string) : stake (String.length e) (e ++ t) = e.
Proof.
  induction e as [|a e IH]; simpl; [now destruct t | now rewrite IH].
Qed.

Lemma sexistsb_weaken (f g : ascii -> bool) (s : string) :
  (forall c, f c = true -> g c = true) -> sexistsb g s = false -> sexistsb f s = false.
Proof.
  intros Hfg. induction s as [|c s IH]; [easy | ]. simpl. intros H.
  apply orb_false_iff in H as [Hc Hs]. rewrite (IH Hs), orb_false_r.
  destruct (f c) eqn:E; [ | reflexivity]. apply Hfg in E. congruence.
Qed.

Lemma codeSpanMatch_none snippets c t :
  codeIs 96 c = false -> codeSpanMatch snippets (String c t) = None.
Proof.
  intros H. unfold codeSpanMatch. now rewrite (startsWith_first "`"%char "" c t H).
Qed.

Lemma linkMatch_none c t : codeIs 91 c = false -> linkMatch (String c t) = None.
Proof. intros H. unfold linkMatch. now rewrite (startsWith_first "["%char "" c t H). Qed.

Lemma boldMatch_none c t : codeIs 42 c = false -> boldMatch (String c t) = None.
Proof. intros H. unfold boldMatch. now rewrite (startsWith_first "*"%char "*" c t H). Qed.

Lemma italicMatch_none c t : codeIs 42 c = false -> italicMatch (String c t) = None.
Proof. intros H. unfold italicMatch. now rewrite (startsWith_first "*"%char "" c t H). Qed.

Lemma restoreMatch_none snippets c t :
  codeIs 95 c = false -> restoreMatch snippets (String c t) = None.
Proof.
  intros H. unfold restoreMatch. now rewrite (startsWith_first "_"%char "_CODE_" c t H).
Qed.

(** The passes that find nothing to replace. *)
Lemma renderInline_passes (s : string) :
  sexistsb (codeIs 96) s = false -> sexistsb (codeIs 91) s = false ->
  sexistsb (codeIs 42) s = false ->
  replaceGSt codeSpanMatch 0 [] s = (s, [])
  /\ replaceG linkMatch 0 s = s /\ replaceG boldMatch 0 s = s
  /\ replaceG italicMatch 0 s = s.
Proof.
  intros H1 H2 H3. split; [ | split; [ | split]].
  - apply (replaceGSt_none codeSpanMatch (codeIs 96)); [ | exact H1].
    intros st c t. apply codeSpanMatch_none.
  - apply (replaceG_none linkMatch (codeIs 91)); [apply linkMatch_none | exact H2].
  - apply (replaceG_none boldMatch (codeIs 42)); [apply boldMatch_none | exact H3].
  - apply (replaceG_none italicMatch (codeIs 42)); [apply italicMatch_none | exact H3].
Qed.

(** X7.  Text without any of the characters [&], [<], [>], double quote,
    apostrophe, backquote, opening bracket, asterisk and underscore is
    rendered as it is. *)
Theorem renderInline_plain_text :
  forall raw, sexistsb isInlineMarkup raw = false -> renderInline raw = raw.
Proof.
  intros raw H. unfold renderInline.
  assert (Hw : forall f, (forall c, f c = true -> isInlineMarkup c = true) ->
                 sexistsb f raw = false).
  { intros f Hf. now apply (sexistsb_weaken f isInlineMarkup). }
  rewrite escapeHtml_plain.
  - destruct (renderInline_passes raw) as [-> [-> [-> ->]]];
      try (apply Hw; intros c Hc; unfold isInlineMarkup; rewrite Hc;
           now rewrite ?orb_true_r).
    apply (replaceG_none _ (codeIs 95)); [apply restoreMatch_none | ].
    apply Hw. intros c Hc. unfold isInlineMarkup. rewrite Hc. now rewrite ?orb_true_r.
  - apply Hw. intros c Hc. unfold isInlineMarkup. now rewrite Hc.
Qed.

Lemma renderInline_plain_text_witness :
  renderInline "Hello, world: 1 + 1 = 2." = "Hello, world: 1 + 1 = 2.".
Proof. apply renderInline_plain_text. reflexivity. Defined.

Lemma escapeHtml_keeps_backquote (s : string) : noChar 96 s -> noChar 96 (escapeHtml s).
Proof. intros H. unfold escapeHtml. no_char. exact H. Qed.

(** X8.  A code span is escaped once, whatever it holds: for every
    non-empty [code] without a backquote, the span renders as a [code]
    element around [escapeHtml code], untouched by the link, bold and italic
    passes. *)
Theorem renderInline_code_span :
  forall code,
    code <> "" -> noChar 96 code ->
    renderInline ("`" ++ code ++ "`") = "<code>" ++ escapeHtml code ++ "</code>".
Proof.
  intros code Hne Hnb. unfold renderInline.
  rewrite !escapeHtml_app. change (escapeHtml "`") with "`".
  assert (He : noChar 96 (escapeHtml code)) by (now apply escapeHtml_keeps_backquote).
  assert (Hlen : String.length (escapeHtml code) <> 0).
  { pose proof (escapeHtml_length code). destruct code; [now elim Hne | simpl in *; lia]. }
  remember (escapeHtml code) as e. clear Heqe.
  assert (Hm : codeSpanMatch [] ("`" ++ e ++ "`")
               = Some ("__CODE_0__", String.length e + 2, ["<code>" ++ e ++ "</code>"])).
  { unfold codeSpanMatch. rewrite (startsWith_app "`" (e ++ "`")). cbn [sdrop append].
    rewrite (spanLen_app_stop (notCode 96) e "`"%char "" He eq_refl).
    rewrite sdrop_app_length, stake_app_length.
    destruct (String.length e) eqn:El; [now elim Hlen | reflexivity]. }
  change ("`" ++ e ++ "`") with (String "`"%char (e ++ "`")) in *.
  cbn [replaceGSt]. rewrite Hm.
  rewrite replaceGSt_skip_all by (rewrite sappend_length; simpl; lia).
  set (snippet := "<code>" ++ e ++ "</code>"). clearbody snippet.
  vm_compute. apply sappend_empty_r.
Qed.

Lemma renderInline_code_span_witness :
  renderInline ("`" ++ "a < b && c" ++ "`") = "<code>" ++ escapeHtml "a < b && c" ++ "</code>".
Proof. apply renderInline_code_span; [discriminate | reflexivity]. Defined.

(** X9.  Text that spells a placeholder token is lost: when the text is
    [__CODE_], some digits and [__], and holds no code span, the restore
    pass finds no snippet under that number and puts the empty string in
    its place. *)
Theorem renderInline_forged_placeholder :
  forall digits,
    digits <> "" -> sforallb isDigit digits = true ->
    renderInline ("__CODE_" ++ digits ++ "__") = "".
Proof.
  intros d Hne Hd. unfold renderInline.
  assert (Hcls : forall f, (forall c, isDigit c = true -> f c = false) ->
                   f "_"%char = false -> f "C"%char = false -> f "O"%char = false ->
                   f "D"%char = false -> f "E"%char = false ->
                   sexistsb f ("__CODE_" ++ d ++ "__") = false).
  { intros f Hf H1 H2 H3 H4 H5. simpl. rewrite H1, H2, H3, H4, H5. simpl.
    rewrite sexistsb_app. simpl. rewrite H1. simpl. rewrite orb_false_r.
    now apply (sexistsb_false f isDigit). }
  assert (Hdig : forall n c, isDigit c = true -> n < 48 \/ 57 < n -> codeIs n c = false).
  { intros n c. unfold isDigit, codeIs. intros H Hn.
    apply andb_true_iff in H as [H1 H2]. apply Nat.leb_le in H1, H2.
    apply Nat.eqb_neq. lia. }
  rewrite escapeHtml_plain.
  - destruct (renderInline_passes ("__CODE_" ++ d ++ "__")) as [-> [-> [-> ->]]];
      try (apply Hcls; try reflexivity; intros c Hc; apply Hdig; [exact Hc | lia]).
    change ("__CODE_" ++ d ++ "__") with (String "_"%char ("_CODE_" ++ d ++ "__")).
    rewrite replaceG_step.
    assert (Hm : restoreMatch [] (String "_"%char ("_CODE_" ++ d ++ "__"))
                 = Some ("", 7 + String.length d + 2)).
    { unfold restoreMatch.
      change (String "_"%char ("_CODE_" ++ d ++ "__")) with ("__CODE_" ++ (d ++ "__")).
      rewrite (startsWith_app "__CODE_" (d ++ "__")). cbn [sdrop append].
      rewrite (spanLen_app_stop isDigit d "_"%char "_" Hd eq_refl).
      rewrite sdrop_app_length, stake_app_length.
      destruct (String.length d) eqn:El; [destruct d; [now elim Hne | discriminate] | ].
      simpl. now destruct (digitsValue d). }
    rewrite Hm. simpl append at 1.
    apply replaceG_skip_all. simpl. rewrite sappend_length. simpl. lia.
  - apply Hcls; try reflexivity. intros c Hc. unfold isHtmlSensitive.
    rewrite !Hdig; try reflexivity; try exact Hc; lia.
Qed.

Lemma renderInline_forged_placeholder_witness :
  renderInline ("__CODE_" ++ "12" ++ "__") = "".
Proof. apply renderInline_forged_placeholder; [discriminate | reflexivity]. Defined.

(** ** The smallest free suffix *)

Lemma uniqueIdLoop_minimal fuel used base :
  forall cand n id,
    uniqueIdLoop fuel used base cand n = Some id ->
    (id = cand /\ ~ In cand used)
    \/ (In cand used
        /\ exists k, n <= k /\ id = base ++ "-" ++ showNat k /\ ~ In id used
                     /\ forall j, n <= j < k -> In (base ++ "-" ++ showNat j) used).
Proof.
  induction fuel as [|fuel IH]; intros cand n id; simpl;
    destruct (hasId used cand) eqn:E; intros H; try discriminate.
  - injection H as <-. left. split; [reflexivity | now apply hasId_false].
  - apply hasId_In in E. right. split; [exact E | ].
    apply IH in H as [[-> Hfree] | [Hin [k [Hk [-> [Hfree Hall]]]]]].
    + exists n. split; [lia | ]. split; [reflexivity | ]. split; [exact Hfree | ].
      intros j Hj. lia.
    + exists k. split; [lia | ]. split; [reflexivity | ]. split; [exact Hfree | ].
      intros j Hj. destruct (Nat.eq_dec j n) as [-> | Hne]; [exact Hin | ].
      apply Hall. lia.
  - injection H as <-. left. split; [reflexivity | now apply hasId_false].
Qed.

(** X10.  [uniqueId] always returns, registers the id it returns, and that
    id is the first free one of the sequence base, base-2, base-3, ...: the
    base itself when it is free, and otherwise base-k for the smallest k
    from 2 on whose id is not yet in use. *)
Theorem uniqueId_first_free :
  forall used prefix text fallback,
    exists id,
      uniqueId used prefix text fallback = Some (id, List.app used [id])
      /\ ~ In id used
      /\ ((id = idBase prefix text fallback)
          \/ (In (idBase prefix text fallback) used
              /\ exists k, 2 <= k
                   /\ id = idBase prefix text fallback ++ "-" ++ showNat k
                   /\ forall j, 2 <= j < k ->
                        In (idBase prefix text fallback ++ "-" ++ showNat j) used)).
Proof.
  intros used prefix text fallback.
  destruct (uniqueId_total used prefix text fallback) as [id H].
  exists id. split; [exact H | ].
  pose proof (uniqueId_spec _ _ _ _ _ _ H) as [_ [Hfree _]]. split; [exact Hfree | ].
  unfold uniqueId in H.
  destruct (uniqueIdLoop _ used _ _ 2) as [id0|] eqn:E; [ | discriminate].
  injection H as ->.
  apply uniqueIdLoop_minimal in E as [[-> _] | [Hin [k [Hk [-> [_ Hall]]]]]].
  - now left.
  - right. split; [exact Hin | ]. exists k. now repeat split.
Qed.

(** ** Invariants of the structurer's loop *)

Lemma parseLoop_invariant (I : ParseState -> Prop) :
  (forall i raw rest st n st',
      I st -> parseStep i raw rest st = Some (n, st') -> I st') ->
  forall lines skip i st st',
    I st -> parseLoop skip i lines st = Some st' -> I st'.
Proof.
  intros Hstep. induction lines as [|raw rest IH]; intros skip i st st' HI; simpl.
  - intros H. now injection H as <-.
  - destruct skip as [|k]; [ | now apply IH].
    destruct (parseStep i raw rest st) as [[n st1]|] eqn:E; [ | discriminate].
    apply IH. eapply Hstep; eassumption.
Qed.

Lemma updateAt_Forall {A} (P : A -> Prop) (f : A -> A) :
  (forall x, P x -> P (f x)) ->
  forall n l l', updateAt n f l = Some l' -> Forall P l -> Forall P l'.
Proof.
  intros Hf. induction n as [|n IH]; intros [|x l] l'; simpl; try discriminate.
  - intros H HP. injection H as <-. inversion HP; subst. constructor; auto.
  - destruct (updateAt n f l) as [r|] eqn:E; [ | discriminate].
    intros H HP. injection H as <-. inversion HP; subst. constructor; eauto.
Qed.

(** What the three state-changing operations do to the chapter headers and
    to the levels in the store. *)
Lemma pushBlock_frame (block : Block) (st st' : ParseState) :
  pushBlock block st = Some st' ->
  chapterHeaders st' = chapterHeaders st /\ heap st' = heap st
  /\ usedIds st' = usedIds st.
Proof.
  unfold pushBlock, chapterHeaders. destruct (activeChapter st) as [a|].
  - destruct (updateAt a (addBlock block) (chapters st)) as [chs|] eqn:E; [ | discriminate].
    intros H. injection H as <-. simpl. split; [ | now split].
    now apply (updateAt_map (addBlock block) (fun c => (cc_title c, cc_id c))) with (n := a).
  - intros H. injection H as <-. now repeat split.
Qed.

Lemma attachSubsection_frame (a : nat) id level text (st st' : ParseState) :
  attachSubsection a id level text st = Some st' ->
  chapterHeaders st' = chapterHeaders st
  /\ forall P : SubNode -> Prop,
       (forall n r, P n -> P (addChild r n)) ->
       P (mkSubNode id level text []) -> Forall P (heap st) -> Forall P (heap st').
Proof.
  unfold attachSubsection, chapterHeaders.
  destruct (popStack _ level (subsectionStack st)) as [[|parent below]|]; [ | | discriminate].
  - destruct (updateAt a _ (chapters st)) as [chs|] eqn:E; [ | discriminate].
    intros H. injection H as <-. simpl. split.
    + now apply (updateAt_map (addSubsection (List.length (heap st)))
                   (fun c => (cc_title c, cc_id c))) with (n := a).
    + intros P _ Hnew Hall. apply Forall_app. split; [exact Hall | now constructor].
  - destruct (updateAt parent _ _) as [hp'|] eqn:E; [ | discriminate].
    intros H. injection H as <-. simpl. split; [reflexivity | ].
    intros P Hadd Hnew Hall. eapply updateAt_Forall; [ | exact E | ].
    + intros x. apply Hadd.
    + apply Forall_app. split; [exact Hall | now constructor].
Qed.

Lemma matchHeading_level (line : string) (level : nat) (text : string) :
  matchHeading line = Some (level, text) -> 1 <= level <= 6.
Proof.
  unfold matchHeading.
  destruct (Nat.leb 1 (spanLen (codeIs 35) line) && Nat.leb (spanLen (codeIs 35) line) 6)
    eqn:E; [ | discriminate].
  apply andb_true_iff in E as [E1 E2]. apply Nat.leb_le in E1, E2.
  intros H.
  repeat match type of H with
         | context [if ?b then _ else _] => destruct b
         end; try discriminate; injection H as <- _; lia.
Qed.

Lemma processHeading_frame (i level : nat) (text : string) (st st' : ParseState) :
  processHeading i level text st = Some st' ->
  (level <> 2 /\ chapterHeaders st' = chapterHeaders st
   /\ forall P : SubNode -> Prop,
        (forall n r, P n -> P (addChild r n)) ->
        (forall id, 3 <= level -> P (mkSubNode id level text [])) ->
        Forall P (heap st) -> Forall P (heap st'))
  \/ (level = 2 /\ heap st' = heap st
      /\ exists id,
           chapterHeaders st'
           = List.app (chapterHeaders st) [(normalizeChapterTitle text, id)]
           /\ idHasBase id
                (idBase ("chapter-" ++ showNat (List.length (chapters st) + 1))
                   (normalizeChapterTitle text)
                   (showNat (List.length (chapters st) + 1)))).
Proof.
  unfold processHeading. destruct (Nat.eqb level 2) eqn:L2.
  - apply Nat.eqb_eq in L2.
    destruct (uniqueId _ _ _ _) as [[id used']|] eqn:U; [ | discriminate].
    intros H. injection H as <-. right. split; [exact L2 | ]. split; [reflexivity | ].
    exists id. split.
    + unfold chapterHeaders. simpl. now rewrite map_app.
    + now apply uniqueId_spec in U.
  - apply Nat.eqb_neq in L2.
    destruct (uniqueId _ _ _ _) as [[id used']|] eqn:U; [ | discriminate].
    cbn [activeChapter]. intros H. left. split; [exact L2 | ].
    destruct (activeChapter st) as [a|] eqn:Ea.
    + destruct (Nat.leb 3 level) eqn:L3.
      * destruct (attachSubsection a id level text _) as [st2|] eqn:A; [ | discriminate].
        apply attachSubsection_frame in A as [Hh Hp].
        apply pushBlock_frame in H as [Hh' [Hheap _]].
        split; [now rewrite Hh', Hh | ].
        intros P Hadd Hnew Hall. rewrite Hheap. apply Hp; [exact Hadd | | exact Hall].
        apply Hnew. now apply Nat.leb_le.
      * apply pushBlock_frame in H as [Hh' [Hheap _]].
        split; [exact Hh' | ]. intros P _ _ Hall. now rewrite Hheap.
    + apply pushBlock_frame in H as [Hh' [Hheap _]].
      split; [exact Hh' | ]. intros P _ _ Hall. now rewrite Hheap.
Qed.

(** One iteration either leaves the chapter headers alone or appends the
    header of a new chapter, whose id starts from the base of its ordinal;
    and it keeps the levels in the store between 3 and 6. *)
Lemma parseStep_frame (i : nat) (raw : string) (rest : list string)
    (st st' : ParseState) (n : nat) :
  parseStep i raw rest st = Some (n, st') ->
  (chapterHeaders st' = chapterHeaders st
   \/ exists title id,
        chapterHeaders st' = List.app (chapterHeaders st) [(title, id)]
        /\ idHasBase id (idBase ("chapter-" ++ showNat (List.length (chapters st) + 1))
                           title (showNat (List.length (chapters st) + 1))))
  /\ (Forall (fun node => 3 <= sn_level node <= 6) (heap st) ->
      Forall (fun node => 3 <= sn_level node <= 6) (heap st')).
Proof.
  unfold parseStep.
  destruct (isEmpty (trim raw)); [intros H; injection H as _ <-; now split; [left | ] | ].
  destruct (matchHeading (trim raw)) as [[level text]|] eqn:M.
  - destruct (processHeading i level (trim text) st) as [st1|] eqn:E; [ | discriminate].
    intros H. injection H as _ <-. apply matchHeading_level in M.
    apply processHeading_frame in E
      as [[_ [Hh Hp]] | [_ [Hheap [id [Hh Hb]]]]].
    + split; [now left | ]. apply Hp; [now intros node r | intros id H3; simpl; lia].
    + split; [right; now exists (normalizeChapterTitle (trim text)), id | now rewrite Hheap].
  - assert (Hplain : forall block k,
               match pushBlock block st with
               | Some st1 => Some (k, st1)
               | None => None
               end = Some (n, st') ->
               (chapterHeaders st' = chapterHeaders st
                \/ exists title id,
                     chapterHeaders st' = List.app (chapterHeaders st) [(title, id)]
                     /\ idHasBase id
                          (idBase ("chapter-" ++ showNat (List.length (chapters st) + 1))
                             title (showNat (List.length (chapters st) + 1))))
               /\ (Forall (fun node => 3 <= sn_level node <= 6) (heap st) ->
                   Forall (fun node => 3 <= sn_level node <= 6) (heap st'))).
    { intros block k. destruct (pushBlock block st) as [st1|] eqn:E; [ | discriminate].
      intros H. injection H as _ <-. apply pushBlock_frame in E as [Hh [Hheap _]].
      split; [now left | now rewrite Hheap]. }
    destruct (testFence (trim raw)); [apply Hplain | ].
    destruct (testBullet (trim raw)); [apply Hplain | ].
    destruct (testOrdered (trim raw)); [apply Hplain | ].
    destruct (testQuote (trim raw)); [apply Hplain | ].
    destruct (paragraphLines rest) as [more blank]. apply Hplain.
Qed.

Lemma parseMarkdown_inv (markdown : string) (o : Outline) :
  parseMarkdown markdown = Some o ->
  exists st,
    parseState markdown = Some st /\ WF st
    /\ o_introBlocks o = introBlocks st
    /\ Forall2 (fun c ch => resolveChapter (heap st) c = Some ch) (chapters st) (o_chapters o).
Proof.
  intros H. destruct (parseMarkdown_total markdown) as [st [o' [Hst [W [Ho [Hi Hc]]]]]].
  rewrite H in Ho. injection Ho as <-. now exists st.
Qed.

Lemma idHasBase_prefix (id prefix rest : string) :
  idHasBase id (prefix ++ rest) -> startsWith prefix id = true.
Proof.
  intros [-> | [k [_ ->]]]; [apply startsWith_app | ].
  rewrite sappend_assoc. apply startsWith_app.
Qed.

(** X11.  The anchor of a chapter carries the chapter's position: the id
    of the k-th chapter of an outline (counting from 1) starts with
    [chapter-k-], and it is the base [chapter-k-] followed by the slug of
    the chapter's title (by k when the slug is empty), alone or with a
    suffix [-j] for some j from 2 on. *)
Theorem chapter_ids_carry_ordinal :
  forall markdown o k ch,
    parseMarkdown markdown = Some o ->
    nth_error (o_chapters o) k = Some ch ->
    startsWith ("chapter-" ++ showNat (k + 1) ++ "-") (ch_id ch) = true
    /\ idHasBase (ch_id ch)
         (idBase ("chapter-" ++ showNat (k + 1)) (ch_title ch) (showNat (k + 1))).
Proof.
  intros markdown o k ch Ho Hk.
  destruct (parseMarkdown_inv _ _ Ho) as [st [Hst [_ [_ Hc]]]].
  set (J := fun s : ParseState =>
              forall j title id, nth_error (chapterHeaders s) j = Some (title, id) ->
                idHasBase id (idBase ("chapter-" ++ showNat (j + 1)) title (showNat (j + 1)))).
  assert (HJ : J st).
  { unfold parseState in Hst.
    refine (parseLoop_invariant J _ (bodyLines markdown) 0 0 initialState st _ Hst).
    - intros i raw rest s n s' Hs Hstep j title id.
      destruct (parseStep_frame _ _ _ _ _ _ Hstep) as [[-> | [t [a [-> Hb]]]] _];
        [apply Hs | ].
      assert (Hl : List.length (chapterHeaders s) = List.length (chapters s))
        by (unfold chapterHeaders; apply length_map).
      rewrite nth_error_snoc, Hl.
      destruct (Nat.ltb j (List.length (chapters s))); [apply Hs | ].
      destruct (Nat.eqb j (List.length (chapters s))) eqn:Ej; [ | discriminate].
      apply Nat.eqb_eq in Ej. subst j. intros H. now injection H as <- <-.
    - intros j title id. now destruct j. }
  assert (Hhead : nth_error (chapterHeaders st) k = Some (ch_title ch, ch_id ch)).
  { unfold chapterHeaders. clear -Hc Hk. revert k Hk.
    induction Hc as [|c ch' cells chs H _ IH]; intros [|k] Hk; try discriminate.
    - simpl in *. injection Hk as ->.
      apply resolveChapter_fields in H as [-> [-> _]]. reflexivity.
    - simpl in *. now apply IH. }
  pose proof (HJ _ _ _ Hhead) as Hbase. split; [ | exact Hbase].
  unfold idBase in Hbase.
  assert (E : forall a b c, (a ++ b) ++ "-" ++ c = (a ++ b ++ "-") ++ c)
    by (intros; now rewrite !sappend_assoc).
  rewrite E in Hbase. eapply idHasBase_prefix. exact Hbase.
Qed.

Lemma chapter_ids_carry_ordinal_witness :
  startsWith ("chapter-" ++ showNat (1 + 1) ++ "-") "chapter-2-b" = true
  /\ idHasBase "chapter-2-b" (idBase ("chapter-" ++ showNat (1 + 1)) "B" (showNat (1 + 1))).
Proof.
  exact (chapter_ids_carry_ordinal ("## A" ++ LF ++ "## B")
           (mkOutline [] [mkChapter "A" "chapter-1-a" [] [];
                          mkChapter "B" "chapter-2-b" [] []])
           1 (mkChapter "B" "chapter-2-b" [] []) eq_refl eq_refl).
Defined.

(** ** Levels and depth of the subsection tree *)

Lemma resolveSub_all (hp : list SubNode) (Q : nat -> Prop) :
  Forall (fun node => Q (sn_level node)) hp ->
  forall fuel r t, resolveSub fuel hp r = Some t -> AllNodes (fun s => Q (sub_level s)) t.
Proof.
  intros Hhp. induction fuel as [|fuel IH]; intros r t; simpl; [discriminate | ].
  destruct (nth_error hp r) as [node|] eqn:E; [ | discriminate].
  destruct (mapOpt (resolveSub fuel hp) (sn_children node)) as [cs|] eqn:Ec; [ | discriminate].
  intros H. injection H as <-. constructor.
  - simpl. rewrite Forall_forall in Hhp. apply Hhp. eapply nth_error_In; exact E.
  - apply mapOpt_Forall2 in Ec. clear E.
    induction Ec as [|c t cs' ts Hct _ IHc]; constructor; [now apply (IH _ _ Hct) | exact IHc].
Qed.

Lemma AllNodes_here (P : Subsection -> Prop) (t : Subsection) :
  AllNodes P t -> P t /\ Forall (AllNodes P) (sub_children t).
Proof. intros H. inversion H; subst. now split. Qed.

Lemma AtDepth_all (P : Subsection -> Prop) (d : nat) (n : Subsection)
    (forest : list Subsection) :
  AtDepth d n forest -> Forall (AllNodes P) forest -> P n.
Proof.
  induction 1 as [n forest Hin | d n m forest Hm _ IH]; intros Hall;
    rewrite Forall_forall in Hall.
  - now apply AllNodes_here, Hall.
  - apply IH. now apply AllNodes_here, Hall.
Qed.

Lemma AtDepth_level (d : nat) (n : Subsection) (forest : list Subsection) :
  AtDepth d n forest ->
  forall lo,
    Forall (fun m => lo <= sub_level m) forest -> Forall LevelsIncrease forest ->
    lo + d <= sub_level n + 1.
Proof.
  induction 1 as [n forest Hin | d n m forest Hm _ IH]; intros lo Hlo Hinc;
    rewrite Forall_forall in Hlo, Hinc.
  - specialize (Hlo _ Hin). lia.
  - specialize (Hlo _ Hm). specialize (Hinc _ Hm).
    inversion Hinc as [id level title children Hc Hi E]; subst. simpl in *.
    specialize (IH (S lo)). apply Nat.le_trans with (S lo + d); [lia | ].
    apply IH; [ | exact Hi].
    eapply Forall_impl; [ | exact Hc]. simpl. intros c. lia.
Qed.

Lemma Forall2_in_r {A B} (R : A -> B -> Prop) (l : list A) (l' : list B) (y : B) :
  Forall2 R l l' -> In y l' -> exists x, In x l /\ R x y.
Proof.
  induction 1 as [|x y' l l' H _ IH]; intros Hin; [destruct Hin | ].
  destruct Hin as [<- | Hin].
  - exists x. split; [now left | exact H].
  - destruct (IH Hin) as [x' [Hx HR]]. exists x'. split; [now right | exact HR].
Qed.

Lemma Forall2_Forall_r {A B} (R : A -> B -> Prop) (P : B -> Prop)
    (l : list A) (l' : list B) :
  Forall2 R l l' -> (forall x y, R x y -> P y) -> Forall P l'.
Proof. induction 1; intros HP; constructor; eauto. Qed.

(** X12.  Every subsection of every outline has a level from 3 to 6, and a
    subsection at depth [d] of its chapter's tree has a level of at least
    [d + 2]: the table of contents is never nested deeper than four
    lists. *)
Theorem subsection_levels_bounded :
  forall markdown o ch d n,
    parseMarkdown markdown = Some o ->
    In ch (o_chapters o) ->
    AtDepth d n (ch_subsections ch) ->
    3 <= sub_level n <= 6 /\ d + 2 <= sub_level n /\ d <= 4.
Proof.
  intros markdown o ch d n Ho Hin Hd.
  destruct (parseMarkdown_inv _ _ Ho) as [st [Hst [W [_ Hc]]]].
  assert (Hheap : Forall (fun node => 3 <= sn_level node <= 6) (heap st)).
  { unfold parseState in Hst.
    refine (parseLoop_invariant
              (fun s => Forall (fun node => 3 <= sn_level node <= 6) (heap s))
              _ (bodyLines markdown) 0 0 initialState st _ Hst).
    - intros i raw rest s k s' Hs Hstep.
      now apply (proj2 (parseStep_frame _ _ _ _ _ _ Hstep)).
    - constructor. }
  assert (Hall : Forall (AllNodes (fun s => 3 <= sub_level s <= 6)) (ch_subsections ch)).
  { destruct (Forall2_in_r _ _ _ _ Hc Hin) as [c [_ H]].
    apply resolveChapter_fields in H as [_ [_ [_ Hs]]]. apply mapOpt_Forall2 in Hs.
    eapply Forall2_Forall_r; [exact Hs | ]. intros r t Hr. simpl in Hr.
    exact (resolveSub_all _ (fun l => 3 <= l <= 6) Hheap _ _ _ Hr). }
  pose proof (resolved_levels st _ W Hc) as Hinc. rewrite Forall_forall in Hinc.
  pose proof (AtDepth_all _ _ _ _ Hd Hall) as Hn. simpl in Hn.
  assert (Hlo : 3 + d <= sub_level n + 1).
  { apply (AtDepth_level _ _ _ Hd 3); [ | now apply Hinc].
    eapply Forall_impl; [ | exact Hall]. intros t Ht. now apply AllNodes_here in Ht. }
  lia.
Qed.

Lemma subsection_levels_bounded_witness :
  3 <= sub_level (mkSubsection "section-b" 4 "B" []) <= 6
  /\ 2 + 2 <= sub_level (mkSubsection "section-b" 4 "B" [])
  /\ 2 <= 4.
Proof.
  apply (subsection_levels_bounded ("## C" ++ LF ++ "### A" ++ LF ++ "#### B")
           (mkOutline []
              [mkChapter "C" "chapter-1-c"
                 [BHeading 3 "A" "section-a"; BHeading 4 "B" "section-b"]
                 [mkSubsection "section-a" 3 "A" [mkSubsection "section-b" 4 "B" []]]])
           (mkChapter "C" "chapter-1-c"
              [BHeading 3 "A" "section-a"; BHeading 4 "B" "section-b"]
              [mkSubsection "section-a" 3 "A" [mkSubsection "section-b" 4 "B" []]])).
  - vm_compute. reflexivity.
  - now left.
  - eapply AtDepth_below; [now left | ]. apply AtDepth_root. now left.
Defined.

(** ** How the loop consumes lines *)

Lemma parseLoop_skip (l1 : list string) :
  forall l2 i st,
    parseLoop (List.length l1) i (List.app l1 l2) st
    = parseLoop 0 (i + List.length l1) l2 st.
Proof.
  induction l1 as [|x l1 IH]; intros l2 i st; simpl.
  - now rewrite Nat.add_0_r.
  - rewrite IH. f_equal. lia.
Qed.

Lemma parseLoop_skip_all (l : list string) :
  forall k i st, List.length l <= k -> parseLoop k i l st = Some st.
Proof.
  induction l as [|x l IH]; intros k i st H; [reflexivity | ].
  destruct k as [|k]; simpl in *; [lia | ]. apply IH. lia.
Qed.

Lemma takeLines_app_stop (p : string -> bool) (taken : list string) (stop : string)
    (rest : list string) :
  Forall (fun l => p l = true) taken -> p stop = false ->
  takeLines p (List.app taken (stop :: rest)) = taken.
Proof.
  intros Ht Hs. induction Ht as [|x taken Hx _ IH]; simpl; [now rewrite Hs | ].
  now rewrite Hx, IH.
Qed.

Lemma takeLines_all (p : string -> bool) (taken : list string) :
  Forall (fun l => p l = true) taken -> takeLines p taken = taken.
Proof.
  intros Ht. induction Ht as [|x taken Hx _ IH]; simpl; [reflexivity | ].
  now rewrite Hx, IH.
Qed.

Lemma startsWith_inv (p s : string) : startsWith p s = true -> exists t, s = p ++ t.
Proof.
  unfold startsWith. revert s. induction p as [|a p IH]; intros s H.
  - now exists s.
  - destruct s as [|b s]; simpl in H; [discriminate | ].
    destruct (ascii_dec a b) as [-> | _]; [ | discriminate].
    destruct (IH s H) as [t ->]. now exists t.
Qed.

Lemma get_sdrop (s : string) :
  forall k, String.get k s = match sdrop k s with
                             | String c _ => Some c
                             | EmptyString => None
                             end.
Proof.
  induction s as [|a s IH]; intros [|k]; try reflexivity. simpl. apply IH.
Qed.

(** A line that [matchHeading] accepts is one that [isBoundary] accepts. *)
Lemma matchHeading_boundary (line : string) (level : nat) (text : string) :
  matchHeading line = Some (level, text) -> testHeadingStart line = true.
Proof.
  unfold matchHeading, testHeadingStart, wsAt, charAt.
  destruct (Nat.leb 1 (spanLen (codeIs 35) line) && Nat.leb (spanLen (codeIs 35) line) 6);
    [ | discriminate].
  rewrite get_sdrop. simpl.
  destruct (sdrop (spanLen (codeIs 35) line) line) as [|c t]; simpl; [discriminate | ].
  destruct (isWhitespace c); [reflexivity | discriminate].
Qed.

Lemma blank_step (i : nat) (raw : string) (rest : list string) (st : ParseState) :
  isEmpty (trim raw) = true -> parseStep i raw rest st = Some (1, st).
Proof. intros H. unfold parseStep. now rewrite H. Qed.

(** X13.  A body made of blank lines only (the empty body included) gives
    the empty outline: no intro block and no chapter. *)
Theorem blank_document_empty_outline :
  forall markdown,
    Forall (fun l => isEmpty (trim l) = true) (bodyLines markdown) ->
    parseMarkdown markdown = Some (mkOutline [] []).
Proof.
  intros markdown Hall. unfold parseMarkdown, parseState.
  assert (H : forall lines skip i st,
             Forall (fun l => isEmpty (trim l) = true) lines ->
             parseLoop skip i lines st = Some st).
  { induction lines as [|raw rest IH]; intros skip i st Hl; [reflexivity | ].
    inversion Hl; subst. destruct skip as [|k]; simpl; [ | now apply IH].
    rewrite blank_step by assumption. now apply IH. }
  now rewrite H.
Qed.

Lemma blank_document_empty_outline_witness :
  parseMarkdown ("   " ++ LF ++ LF ++ CR ++ LF ++ " ") = Some (mkOutline [] []).
Proof.
  apply blank_document_empty_outline.
  replace (bodyLines ("   " ++ LF ++ LF ++ CR ++ LF ++ " ")) with ["   "; ""; ""; " "]
    by (vm_compute; reflexivity).
  repeat constructor.
Defined.

Lemma fence_line (line : string) :
  testFence line = true -> isEmpty line = false /\ matchHeading line = None.
Proof.
  intros H. apply startsWith_inv in H as [t ->]. now split.
Qed.

Lemma fence_step (i : nat) (raw : string) (rest : list string) (st : ParseState) :
  testFence (trim raw) = true ->
  parseStep i raw rest st
  = let codeLines := takeLines (fun l => negb (testFence (trim l))) rest in
    match pushBlock (BCode (toLowerCase (trim (stripFence (trim raw)))) (join LF codeLines)) st with
    | Some st' =>
        Some (1 + List.length codeLines
              + (if Nat.ltb (List.length codeLines) (List.length rest) then 1 else 0), st')
    | None => None
    end.
Proof.
  intros H. unfold parseStep. destruct (fence_line _ H) as [-> ->]. now rewrite H.
Qed.

(** X14.  In a body of ASCII text, a fenced code block takes every line up
    to the next line that starts with three backquotes, as it is and
    whatever it looks like, into one code block; the loop goes on after the
    closing fence.  Without a closing fence the block takes all the
    remaining lines. *)
Theorem code_fence_verbatim :
  forall i raw codeLines st,
    Forall (fun l => isAsciiText l = true) (raw :: codeLines) ->
    testFence (trim raw) = true ->
    Forall (fun l => testFence (trim l) = false) codeLines ->
    (forall closing rest,
        Forall (fun l => isAsciiText l = true) (closing :: rest) ->
        testFence (trim closing) = true ->
        parseLoop 0 i (raw :: List.app codeLines (closing :: rest)) st
        = match pushBlock (BCode (toLowerCase (trim (stripFence (trim raw))))
                             (join LF codeLines)) st with
          | Some st' => parseLoop 0 (i + List.length codeLines + 2) rest st'
          | None => None
          end)
    /\ parseLoop 0 i (raw :: codeLines) st
       = pushBlock (BCode (toLowerCase (trim (stripFence (trim raw)))) (join LF codeLines)) st.
Proof.
  intros i raw codeLines st _ Hraw Hcode.
  assert (Hneg : Forall (fun l => negb (testFence (trim l)) = true) codeLines).
  { eapply Forall_impl; [ | exact Hcode]. simpl. now intros l ->. }
  split.
  - intros closing rest _ Hclose. cbn [parseLoop]. rewrite fence_step by exact Hraw.
    cbv zeta. rewrite takeLines_app_stop; [ | exact Hneg | now rewrite Hclose].
    destruct (pushBlock _ st) as [st'|]; [ | reflexivity].
    rewrite length_app. simpl List.length.
    replace (Nat.ltb _ _) with true by (symmetry; apply Nat.ltb_lt; lia).
    replace (1 + List.length codeLines + 1 - 1) with (List.length (List.app codeLines [closing]))
      by (rewrite length_app; simpl; lia).
    replace (List.app codeLines (closing :: rest)) with (List.app (List.app codeLines [closing]) rest)
      by (now rewrite <- app_assoc).
    rewrite parseLoop_skip, length_app. simpl. f_equal. lia.
  - cbn [parseLoop]. rewrite fence_step by exact Hraw. cbv zeta.
    rewrite takeLines_all by exact Hneg.
    destruct (pushBlock _ st) as [st'|]; [ | reflexivity].
    apply parseLoop_skip_all. rewrite Nat.ltb_irrefl. lia.
Qed.

Lemma code_fence_verbatim_witness :
  parseLoop 0 0 ["```JS"; "## not a chapter"; "- not a list"; "```"; "after"] initialState
  = match pushBlock (BCode (toLowerCase (trim (stripFence (trim "```JS"))))
                       (join LF ["## not a chapter"; "- not a list"])) initialState with
    | Some st' => parseLoop 0 (0 + List.length ["## not a chapter"; "- not a list"] + 2)
                    ["after"] st'
    | None => None
    end.
Proof.
  destruct (code_fence_verbatim 0 "```JS" ["## not a chapter"; "- not a list"] initialState)
    as [H _]; [repeat constructor | reflexivity | repeat constructor | ].
  apply H; [repeat constructor | reflexivity].
Defined.

Lemma plain_line (raw : string) :
  isPlainLine raw = true ->
  isEmpty (trim raw) = false /\ matchHeading (trim raw) = None
  /\ testFence (trim raw) = false /\ testBullet (trim raw) = false
  /\ testOrdered (trim raw) = false /\ testQuote (trim raw) = false.
Proof.
  unfold isPlainLine, isBoundary. intros H. apply andb_true_iff in H as [He Hb].
  apply negb_true_iff in He, Hb.
  repeat (apply orb_false_iff in Hb as [Hb ?]).
  split; [exact He | ]. split; [ | now repeat split].
  destruct (matchHeading (trim raw)) as [[level text]|] eqn:M; [ | reflexivity].
  apply matchHeading_boundary in M. congruence.
Qed.

Lemma paragraphLines_plain (more : list string) :
  Forall (fun l => isPlainLine l = true) more ->
  (forall stop rest,
      isPlainLine stop = false ->
      paragraphLines (List.app more (stop :: rest)) = (map trim more, isEmpty (trim stop)))
  /\ paragraphLines more = (map trim more, false).
Proof.
  intros Hm. split.
  - intros stop rest Hs. induction Hm as [|l more Hl _ IH]; simpl.
    + unfold isPlainLine in Hs. destruct (isEmpty (trim stop)); [reflexivity | ].
      simpl in Hs. apply negb_false_iff in Hs. now rewrite Hs.
    + unfold isPlainLine in Hl. apply andb_true_iff in Hl as [He Hb].
      apply negb_true_iff in He, Hb. now rewrite He, Hb, IH.
  - induction Hm as [|l more Hl _ IH]; simpl; [reflexivity | ].
    unfold isPlainLine in Hl. apply andb_true_iff in Hl as [He Hb].
    apply negb_true_iff in He, Hb. now rewrite He, Hb, IH.
Qed.

(** X15.  In a body of ASCII text, a paragraph is a run of lines that are
    neither blank nor the start of another block: their trimmed texts are
    joined by single spaces into one block.  The run ends at the first
    blank line, which is consumed, at the first line that starts another
    block, which is left for the next iteration, or at the end of the
    body. *)
Theorem paragraph_wraps :
  forall i raw more st,
    Forall (fun l => isAsciiText l = true) (raw :: more) ->
    Forall (fun l => isPlainLine l = true) (raw :: more) ->
    (forall stop rest,
        Forall (fun l => isAsciiText l = true) (stop :: rest) ->
        isPlainLine stop = false ->
        parseLoop 0 i (raw :: List.app more (stop :: rest)) st
        = match pushBlock (BParagraph (join " " (map trim (raw :: more)))) st with
          | Some st' =>
              if isEmpty (trim stop)
              then parseLoop 0 (i + List.length more + 2) rest st'
              else parseLoop 0 (i + List.length more + 1) (stop :: rest) st'
          | None => None
          end)
    /\ parseLoop 0 i (raw :: more) st
       = pushBlock (BParagraph (join " " (map trim (raw :: more)))) st.
Proof.
  intros i raw more st _ Hall. inversion Hall as [|? ? Hraw Hmore]; subst.
  destruct (plain_line _ Hraw) as [He [Hh [Hf [Hb [Ho Hq]]]]].
  destruct (paragraphLines_plain more Hmore) as [Hstop Hend].
  assert (Hstep : forall rest,
             parseStep i raw rest st
             = let '(m, blank) := paragraphLines rest in
               match pushBlock (BParagraph (join " " (trim raw :: m))) st with
               | Some st' => Some (1 + List.length m + (if blank then 1 else 0), st')
               | None => None
               end).
  { intros rest. unfold parseStep. now rewrite He, Hh, Hf, Hb, Ho, Hq. }
  split.
  - intros stop rest _ Hs. cbn [parseLoop]. rewrite Hstep, (Hstop stop rest Hs).
    cbn [map]. destruct (pushBlock _ st) as [st'|]; [ | reflexivity].
    rewrite length_map. destruct (isEmpty (trim stop)).
    + replace (1 + List.length more + 1 - 1) with (List.length (List.app more [stop]))
        by (rewrite length_app; simpl; lia).
      replace (List.app more (stop :: rest)) with (List.app (List.app more [stop]) rest)
        by (now rewrite <- app_assoc).
      rewrite parseLoop_skip, length_app. simpl. f_equal. lia.
    + replace (1 + List.length more + 0 - 1) with (List.length more) by lia.
      rewrite parseLoop_skip.
      replace (S i + List.length more) with (i + List.length more + 1) by lia.
      reflexivity.
  - cbn [parseLoop]. rewrite Hstep, Hend. cbn [map].
    destruct (pushBlock _ st) as [st'|]; [ | reflexivity].
    apply parseLoop_skip_all. rewrite length_map. lia.
Qed.

Lemma paragraph_wraps_witness :
  parseLoop 0 0 ["one "; "  two"; "- item"] initialState
  = match pushBlock (BParagraph (join " " (map trim ["one "; "  two"]))) initialState with
    | Some st' =>
        if isEmpty (trim "- item")
        then parseLoop 0 (0 + List.length ["  two"] + 2) [] st'
        else parseLoop 0 (0 + List.length ["  two"] + 1) ["- item"] st'
    | None => None
    end.
Proof.
  destruct (paragraph_wraps 0 "one " ["  two"] initialState) as [H _];
    [repeat constructor | repeat constructor | ].
  apply H; [repeat constructor | reflexivity].
Defined.

(** ** List blocks *)

Lemma isDigit_not_code (n : nat) (c : ascii) :
  isDigit c = true -> n < 48 \/ 57 < n -> codeIs n c = false.
Proof.
  unfold isDigit, codeIs. intros H Hn.
  apply andb_true_iff in H as [H1 H2]. apply Nat.leb_le in H1, H2.
  apply Nat.eqb_neq. lia.
Qed.

Lemma bullet_line (line : string) :
  testBullet line = true ->
  isEmpty line = false /\ matchHeading line = None /\ testFence line = false.
Proof.
  unfold testBullet. intros H. apply andb_true_iff in H as [H _].
  apply startsWith_inv in H as [t ->]. now repeat split.
Qed.

Lemma ordered_line (line : string) :
  testOrdered line = true ->
  isEmpty line = false /\ matchHeading line = None /\ testFence line = false
  /\ testBullet line = false.
Proof.
  unfold testOrdered. intros H. apply andb_true_iff in H as [H _].
  apply andb_true_iff in H as [H _]. apply Nat.leb_le in H.
  destruct line as [|c t]; simpl in H; [lia | ].
  destruct (isDigit c) eqn:D; [ | lia].
  split; [reflexivity | ]. split; [ | split].
  - unfold matchHeading. simpl. now rewrite (isDigit_not_code 35 c D) by lia.
  - unfold testFence. apply (startsWith_first "`"%char "``").
    change (nat_of_ascii "`"%char) with 96. apply isDigit_not_code; [exact D | lia].
  - unfold testBullet. rewrite (startsWith_first "-"%char ""); [reflexivity | ].
    change (nat_of_ascii "-"%char) with 45. apply isDigit_not_code; [exact D | lia].
Qed.

Lemma list_loop (i : nat) (raw : string) (more : list string) (st : ParseState)
    (p : string -> bool) (block : list string -> Block) :
  (forall rest,
      parseStep i raw rest st
      = match pushBlock (block (takeLines p (raw :: rest))) st with
        | Some st' => Some (List.length (takeLines p (raw :: rest)), st')
        | None => None
        end) ->
  Forall (fun l => p l = true) (raw :: more) ->
  (forall stop rest,
      p stop = false ->
      parseLoop 0 i (raw :: List.app more (stop :: rest)) st
      = match pushBlock (block (raw :: more)) st with
        | Some st' => parseLoop 0 (i + List.length more + 1) (stop :: rest) st'
        | None => None
        end)
  /\ parseLoop 0 i (raw :: more) st = pushBlock (block (raw :: more)) st.
Proof.
  intros Hstep Hall. split.
  - intros stop rest Hs. cbn [parseLoop]. rewrite Hstep.
    change (raw :: List.app more (stop :: rest)) with (List.app (raw :: more) (stop :: rest)).
    rewrite (takeLines_app_stop p (raw :: more) stop rest Hall Hs).
    destruct (pushBlock _ st) as [st'|]; [ | reflexivity].
    simpl List.length. rewrite Nat.sub_1_r. simpl Nat.pred. rewrite parseLoop_skip.
    replace (S i + List.length more) with (i + List.length more + 1) by lia. reflexivity.
  - cbn [parseLoop]. rewrite Hstep, (takeLines_all p (raw :: more) Hall).
    destruct (pushBlock _ st) as [st'|]; [ | reflexivity].
    apply parseLoop_skip_all. simpl. lia.
Qed.

(** X16.  In a body of ASCII text, neighbouring lines that start with a
    hyphen and white space make one unordered list whose items are the
    texts after the markers, and neighbouring lines that start with
    digits, a dot and white space make one ordered list; the list ends
    before the first line of another kind, which is left for the next
    iteration. *)
Theorem list_blocks_contiguous :
  forall i raw more st,
    Forall (fun l => isAsciiText l = true) (raw :: more) ->
    (Forall (fun l => testBullet (trim l) = true) (raw :: more) ->
     (forall stop rest,
         Forall (fun l => isAsciiText l = true) (stop :: rest) ->
         testBullet (trim stop) = false ->
         parseLoop 0 i (raw :: List.app more (stop :: rest)) st
         = match pushBlock (BUl (map (fun l => stripBullet (trim l)) (raw :: more))) st with
           | Some st' => parseLoop 0 (i + List.length more + 1) (stop :: rest) st'
           | None => None
           end)
     /\ parseLoop 0 i (raw :: more) st
        = pushBlock (BUl (map (fun l => stripBullet (trim l)) (raw :: more))) st)
    /\ (Forall (fun l => testOrdered (trim l) = true) (raw :: more) ->
        (forall stop rest,
            Forall (fun l => isAsciiText l = true) (stop :: rest) ->
            testOrdered (trim stop) = false ->
            parseLoop 0 i (raw :: List.app more (stop :: rest)) st
            = match pushBlock (BOl (map (fun l => stripOrdered (trim l)) (raw :: more))) st with
              | Some st' => parseLoop 0 (i + List.length more + 1) (stop :: rest) st'
              | None => None
              end)
        /\ parseLoop 0 i (raw :: more) st
           = pushBlock (BOl (map (fun l => stripOrdered (trim l)) (raw :: more))) st).
Proof.
  intros i raw more st _. split; intros Hall.
  - destruct (list_loop i raw more st (fun l => testBullet (trim l))
                (fun taken => BUl (map (fun l => stripBullet (trim l)) taken)))
      as [H1 H2]; [ | exact Hall | ].
    + intros rest. inversion Hall as [|? ? Hraw _]; subst.
      destruct (bullet_line _ Hraw) as [He [Hh Hf]].
      unfold parseStep. now rewrite He, Hh, Hf, Hraw.
    + split; [intros stop rest _ Hs; exact (H1 stop rest Hs) | exact H2].
  - destruct (list_loop i raw more st (fun l => testOrdered (trim l))
                (fun taken => BOl (map (fun l => stripOrdered (trim l)) taken)))
      as [H1 H2]; [ | exact Hall | ].
    + intros rest. inversion Hall as [|? ? Hraw _]; subst.
      destruct (ordered_line _ Hraw) as [He [Hh [Hf Hb]]].
      unfold parseStep. now rewrite He, Hh, Hf, Hb, Hraw.
    + split; [intros stop rest _ Hs; exact (H1 stop rest Hs) | exact H2].
Qed.

Lemma list_blocks_contiguous_witness :
  parseLoop 0 0 ["- a"; " -   b"; "1. x"; "2. y"] initialState
  = match pushBlock (BUl (map (fun l => stripBullet (trim l)) ["- a"; " -   b"])) initialState with
    | Some st' => parseLoop 0 (0 + List.length [" -   b"] + 1) ["1. x"; "2. y"] st'
    | None => None
    end
  /\ parseLoop 0 2 ["1. x"; "2. y"] initialState
     = pushBlock (BOl (map (fun l => stripOrdered (trim l)) ["1. x"; "2. y"])) initialState.
Proof.
  destruct (list_blocks_contiguous 0 "- a" [" -   b"] initialState) as [[H _] _];
    [repeat constructor | repeat constructor | ].
  destruct (list_blocks_contiguous 2 "1. x" ["2. y"] initialState) as [_ [_ H']];
    [repeat constructor | repeat constructor | ].
  split; [apply (H "1. x" ["2. y"]); [repeat constructor | reflexivity] | exact H'].
Defined.

(** ** What a build writes *)

Lemma processDocs_rendered P config (docs : list Document) :
  forall st st',
    CollectInv P st -> processDocs P config docs st = (None, st') ->
    exists pfs,
      Forall2 (rendered P config) docs pfs
      /\ posts st' = List.app (posts st) (map fst pfs)
      /\ written st' = List.app (written st) (map snd pfs).
Proof.
  induction docs as [|[[c s] t] docs IH]; intros st st' Inv; simpl.
  - intros H. injection H as <-. exists []. simpl. rewrite !app_nil_r. now repeat split.
  - destruct (processPost_cases P config c s t st Inv)
      as [[e [-> _]] | [[-> _] | [post [body [html [R [_ [Hh [-> Inv']]]]]]]]];
      try discriminate.
    intros H. destruct (IH _ _ Inv' H) as [pfs [Hf [Hp Hw]]].
    exists ((post, (htmlPathOf c s, html)) :: pfs). split; [ | split].
    + constructor; [ | exact Hf]. exists body, html. now repeat split.
    + rewrite Hp. simpl. now rewrite <- app_assoc.
    + rewrite Hw. simpl. now rewrite <- app_assoc.
Qed.

Lemma processDocs_ok P config (docs : list Document) :
  forall st,
    CollectInv P st -> Forall (documentOk P) docs ->
    NoDup (map docUrlPath docs) ->
    (forall d, In d docs -> ~ In (docUrlPath d) (seenUrlPaths st)) ->
    exists st', processDocs P config docs st = (None, st') /\ CollectInv P st'.
Proof.
  induction docs as [|[[c s] t] docs IH]; intros st Inv Hok Hnd Hfresh; simpl.
  - now exists st.
  - inversion Hok as [|? ? [post0 [body0 Hread]] Hok']; subst. simpl in Hread.
    inversion Hnd as [|? ? Hnotin Hnd']; subst.
    destruct (processPost_cases P config c s t st Inv)
      as [[e [_ [R _]]] | [[_ [Hin _]] | [post [body [html [_ [_ [_ [-> Inv']]]]]]]]].
    + rewrite Hread in R. discriminate.
    + exfalso. apply (Hfresh (c, s, t)); [now left | exact Hin].
    + apply IH; try assumption. simpl. intros d Hd Hin.
      apply in_app_or in Hin as [Hin | [Heq | []]].
      * apply (Hfresh d); [now right | exact Hin].
      * apply Hnotin. unfold docUrlPath at 1. simpl. rewrite Heq. now apply in_map.
Qed.

Lemma rendered_urlPaths P config (docs : list Document) (pfs : list (Post * File)) :
  Forall2 (rendered P config) docs pfs ->
  map post_urlPath (map fst pfs) = map docUrlPath docs
  /\ map fst (map snd pfs) = map docHtmlPath docs
  /\ Forall (documentOk P) docs.
Proof.
  induction 1 as [|d pf docs pfs [body [html [R [_ Hf]]]] _ [IH1 [IH2 IH3]]]; simpl.
  - now repeat split.
  - destruct (readPost_post _ _ _ _ _ _ R) as [Hu _].
    rewrite Hu, Hf, IH1, IH2. repeat split. constructor; [ | exact IH3].
    now exists (fst pf), body.
Qed.

(** X17.  When the build completes, every document has given exactly one
    post and one page: the files written are, in the order the documents
    were met, the pages [build/category/slug/index.html], each holding what
    [buildPostHtml] makes of the document's post and body, and the index
    is these posts sorted. *)
Theorem build_writes_one_page_per_document :
  forall P config categoryDirs sorted files,
    collectPosts P config (Some categoryDirs) = Done sorted files ->
    exists pfs,
      Forall2 (rendered P config) (sourceDocuments categoryDirs) pfs
      /\ sorted = sortPosts P (map fst pfs)
      /\ files = map snd pfs
      /\ map fst files = map docHtmlPath (sourceDocuments categoryDirs)
      /\ List.length sorted = List.length (sourceDocuments categoryDirs).
Proof.
  intros P config dirs sorted files. unfold collectPosts.
  rewrite processCategoryDirs_docs.
  destruct (processDocs P config (sourceDocuments dirs) (mkCollectState [] [] []))
    as [[e|] st] eqn:E; [discriminate | ].
  intros H. injection H as <- <-.
  destruct (processDocs_rendered _ _ _ _ _ (initial_CollectInv P) E) as [pfs [Hf [Hp Hw]]].
  simpl in Hp, Hw. exists pfs. rewrite Hp, Hw.
  destruct (rendered_urlPaths _ _ _ _ Hf) as [_ [Hpaths _]].
  repeat split; try assumption.
  unfold sortPosts.
  rewrite <- (Permutation_length (arraySort_perm _ (compareByDate P) (map fst pfs))).
  rewrite length_map. symmetry. eapply Forall2_length. exact Hf.
Qed.

Lemma build_writes_one_page_per_document_witness :
  match collectPosts isoPlatform exampleConfig (Some twoDated) with
  | Done sorted files =>
      map fst files = ["build/essays/january/index.html"; "build/essays/february/index.html"]
      /\ List.length sorted = 2
  | Threw _ _ => False
  end.
Proof.
  destruct (collectPosts isoPlatform exampleConfig (Some twoDated))
    as [sorted files | e files] eqn:E.
  - destruct (build_writes_one_page_per_document _ _ _ _ _ E) as [pfs [_ [_ [_ [H1 H2]]]]].
    split; [exact H1 | exact H2].
  - vm_compute in E. discriminate E.
Defined.

(** X18.  The build completes exactly when every document is accepted by
    itself and no two documents give the same URL path. *)
Theorem build_completes_iff :
  forall P config categoryDirs,
    (exists sorted files, collectPosts P config (Some categoryDirs) = Done sorted files)
    <-> (Forall (documentOk P) (sourceDocuments categoryDirs)
         /\ NoDup (map docUrlPath (sourceDocuments categoryDirs))).
Proof.
  intros P config dirs. unfold collectPosts. rewrite processCategoryDirs_docs. split.
  - intros [sorted [files H]].
    destruct (processDocs P config (sourceDocuments dirs) (mkCollectState [] [] []))
      as [[e|] st] eqn:E; [discriminate | ].
    destruct (processDocs_rendered _ _ _ _ _ (initial_CollectInv P) E) as [pfs [Hf [Hp _]]].
    destruct (processDocs_done _ _ _ _ _ (initial_CollectInv P) E) as [Inv _].
    destruct (rendered_urlPaths _ _ _ _ Hf) as [Hu [_ Hok]].
    split; [exact Hok | ]. rewrite <- Hu. simpl in Hp. rewrite <- Hp, <- (ci_seen _ _ Inv).
    apply Inv.
  - intros [Hok Hnd].
    destruct (processDocs_ok P config (sourceDocuments dirs) _ (initial_CollectInv P) Hok Hnd)
      as [st' [-> _]]; [intros d _ [] | ].
    now eexists; eexists.
Qed.

(** X19.  [collectPosts] stops at the first document that is rejected:
    when the documents before it are accepted and have different URL
    paths, it throws the error of that document, and the pages it has
    written are those of the earlier documents, in order, and no other. *)
Theorem build_stops_at_first_rejected_document :
  forall P config categoryDirs before d after e,
    sourceDocuments categoryDirs = List.app before (d :: after) ->
    Forall (documentOk P) before ->
    NoDup (map docUrlPath before) ->
    readPost P (fst (fst d)) (snd (fst d)) (snd d) = inl e ->
    exists pfs,
      Forall2 (rendered P config) before pfs
      /\ collectPosts P config (Some categoryDirs) = Threw e (map snd pfs).
Proof.
  intros P config dirs before [[c s] t] after e Hdocs Hok Hnd Hread. simpl in Hread.
  destruct (processDocs_ok P config before _ (initial_CollectInv P) Hok Hnd)
    as [st [Hrun Inv]]; [intros d _ [] | ].
  destruct (processDocs_rendered _ _ _ _ _ (initial_CollectInv P) Hrun) as [pfs [Hf [_ Hw]]].
  simpl in Hw. exists pfs. split; [exact Hf | ].
  unfold collectPosts. rewrite processCategoryDirs_docs, Hdocs, processDocs_app, Hrun.
  simpl. destruct (processPost_cases P config c s t st Inv)
    as [[e0 [-> [R _]]] | [[_ [_ [p [b R]]]] | [p [b [h [R _]]]]]];
    rewrite Hread in R; try discriminate.
  injection R as <-. now rewrite Hw.
Qed.

Lemma build_stops_at_first_rejected_document_witness :
  exists pfs,
    Forall2 (rendered isoPlatform exampleConfig)
      [("essays", "january", exampleDoc "January" "2026-01-01")] pfs
    /\ collectPosts isoPlatform exampleConfig
         (Some [mkCategoryDir "essays" true
                  [mkPostDir "january" true (Some (exampleDoc "January" "2026-01-01"));
                   mkPostDir "broken" true (Some "no front matter");
                   mkPostDir "february" true (Some (exampleDoc "February" "2026-02-01"))]])
       = Threw MissingFrontMatter (map snd pfs).
Proof.
  apply (build_stops_at_first_rejected_document isoPlatform exampleConfig _
           [("essays", "january", exampleDoc "January" "2026-01-01")]
           ("essays", "broken", "no front matter")
           [("essays", "february", exampleDoc "February" "2026-02-01")]).
  - reflexivity.
  - repeat constructor. eexists. eexists. vm_compute. reflexivity.
  - repeat constructor. intros [].
  - vm_compute. reflexivity.
Defined.

(** X20.  Entries of [categories/] that are not directories, entries of a
    category that are not directories, and post folders whose [content.md]
    cannot be read have no effect on the build: two listings with the same
    readable documents give the same result. *)
Theorem build_ignores_other_entries :
  forall P config categoryDirs categoryDirs',
    sourceDocuments categoryDirs = sourceDocuments categoryDirs' ->
    collectPosts P config (Some categoryDirs) = collectPosts P config (Some categoryDirs')
    /\ main P config (Some categoryDirs) = main P config (Some categoryDirs').
Proof.
  intros P config dirs dirs' H.
  assert (Hc : collectPosts P config (Some dirs) = collectPosts P config (Some dirs')).
  { unfold collectPosts. now rewrite !processCategoryDirs_docs, H. }
  split; [exact Hc | ]. unfold main. now rewrite Hc.
Qed.

Lemma build_ignores_other_entries_witness :
  collectPosts isoPlatform exampleConfig
    (Some [mkCategoryDir "README.md" false [];
           mkCategoryDir "essays" true
             [mkPostDir ".DS_Store" false None;
              mkPostDir "january" true (Some (exampleDoc "January" "2026-01-01"));
              mkPostDir "drafts" true None];
           mkCategoryDir "empty" true []])
  = collectPosts isoPlatform exampleConfig
      (Some [mkCategoryDir "essays" true
               [mkPostDir "january" true (Some (exampleDoc "January" "2026-01-01"))]]).
Proof.
  apply build_ignores_other_entries. reflexivity.
Defined.

(** ** Output paths on a listing of the file system *)













(** ** Validated fields *)

Lemma trimEnd_idem (s : string) : trimEnd (trimEnd s) = trimEnd s.
Proof.
  induction s as [|c s IH]; [reflexivity | ]. simpl.
  destruct (isWhitespace c && isEmpty (trimEnd s)) eqn:E; [reflexivity | ].
  simpl. now rewrite IH, E.
Qed.

Lemma headNot_trimStart (s : string) : headNot isWhitespace (trimStart s) = true.
Proof.
  unfold trimStart. induction s as [|c s IH]; [reflexivity | ]. simpl.
  destruct (isWhitespace c) eqn:E; [exact IH | ]. simpl. now rewrite E.
Qed.

Lemma headNot_trimEnd (s : string) :
  headNot isWhitespace s = true -> headNot isWhitespace (trimEnd s) = true.
Proof.
  destruct s as [|c s]; [easy | ]. simpl. intros H.
  apply negb_true_iff in H. rewrite H. simpl. now rewrite H.
Qed.

Lemma trimStart_fixed (s : string) : headNot isWhitespace s = true -> trimStart s = s.
Proof.
  unfold trimStart. destruct s as [|c s]; [easy | ]. simpl. intros H.
  apply negb_true_iff in H. now rewrite H.
Qed.

Lemma trim_idem (s : string) : trim (trim s) = trim s.
Proof.
  unfold trim at 1. rewrite trimStart_fixed.
  - unfold trim. apply trimEnd_idem.
  - unfold trim. apply headNot_trimEnd, headNot_trimStart.
Qed.

Lemma requireString_trimmed value fieldName r :
  requireString value fieldName = inr r -> trimmedField r.
Proof.
  unfold requireString. destruct value as [v|]; [ | discriminate].
  destruct (isEmpty (trim v)) eqn:E; [discriminate | ].
  intros H. injection H as <-. split; [exact E | apply trim_idem].
Qed.

Lemma readPost_fields P categorySlug slug contentRaw post body :
  readPost P categorySlug slug contentRaw = inr (post, body) ->
  wellFormedPost P post.
Proof.
  intros H. destruct (readPost_post _ _ _ _ _ _ H) as [Hu [Hc [Hs Hd]]].
  unfold wellFormedPost. rewrite Hu, Hc, Hs.
  unfold readPost in H.
  destruct (parseFrontMatter contentRaw) as [e|[meta b]]; [discriminate | ].
  destruct (requireString (metaGet "title" meta) "title") as [e|title] eqn:E1;
    [discriminate | ].
  destruct (requireString (metaGet "description" meta) "description")
    as [e|description] eqn:E2; [discriminate | ].
  destruct (requireString (Some (orElse (metaGet "category" meta) categorySlug)) "category")
    as [e|category] eqn:E3; [discriminate | ].
  destruct (requireString (metaGet "date" meta) "date") as [e|date] eqn:E4;
    [discriminate | ].
  destruct (parseBooleanFlag (metaGet "numberChapters" meta) "numberChapters" false)
    as [e|nc]; [discriminate | ].
  destruct (parseBooleanFlag (metaGet "showContents" meta) "showContents" true)
    as [e|sc]; [discriminate | ].
  destruct (dateParse P date); [ | discriminate].
  injection H as <- _. simpl.
  split; [exact (requireString_trimmed _ _ _ E1) | ].
  split; [exact (requireString_trimmed _ _ _ E2) | ].
  split; [exact (requireString_trimmed _ _ _ E3) | ].
  split; [exact (requireString_trimmed _ _ _ E4) | ].
  split; [exact Hd | reflexivity].
Qed.

(** X21.  Every post of a completed build has a title, a description, a
    category and a date that are non-empty and carry no surrounding white
    space, a date the host can parse, and the URL path
    [categorySlug/slug/]. *)
Theorem indexed_posts_well_formed :
  forall P config categoryDirs sorted files,
    collectPosts P config categoryDirs = Done sorted files ->
    Forall (wellFormedPost P) sorted.
Proof.
  intros P config [dirs|] sorted files; unfold collectPosts.
  - rewrite processCategoryDirs_docs.
    destruct (processDocs P config (sourceDocuments dirs) (mkCollectState [] [] []))
      as [[e|] st] eqn:E; [discriminate | ].
    intros H. injection H as <- _.
    destruct (processDocs_rendered _ _ _ _ _ (initial_CollectInv P) E) as [pfs [Hf [Hp _]]].
    simpl in Hp. rewrite Hp. clear Hp E.
    assert (Hall : Forall (wellFormedPost P) (map fst pfs)).
    { induction Hf as [|d pf docs pfs [body [html [R _]]] _ IH]; simpl; constructor.
      - exact (readPost_fields _ _ _ _ _ _ R).
      - exact IH. }
    rewrite Forall_forall in *. intros p Hp. apply Hall.
    eapply Permutation_in; [symmetry; apply arraySort_perm | exact Hp].
  - intros H. injection H as <- _. constructor.
Qed.

Lemma indexed_posts_well_formed_witness :
  match collectPosts isoPlatform exampleConfig (Some twoDated) with
  | Done sorted _ => Forall (wellFormedPost isoPlatform) sorted
  | Threw _ _ => True
  end.
Proof.
  destruct (collectPosts isoPlatform exampleConfig (Some twoDated))
    as [sorted files | e files] eqn:E.
  - exact (indexed_posts_well_formed _ _ _ _ _ E).
  - exact I.
Defined.

(** ** The feed *)

Lemma stripTrailingSlash_added (url : string) : stripTrailingSlash (url ++ "/") = url.
Proof.
  unfold stripTrailingSlash, endsWith. rewrite sappend_length. simpl String.length.
  replace (String.length url + 1 - 1) with (String.length url) by lia.
  rewrite sdrop_app_length, stake_app_length.
  replace (Nat.leb 1 (String.length url + 1)) with true
    by (symmetry; apply Nat.leb_le; lia).
  reflexivity.
Qed.

(** X22.  One trailing slash of the configured site URL makes no
    difference to the feed. *)
Theorem renderRss_trailing_slash :
  forall P config url sorted,
    endsWith "/" url = false ->
    renderRss P (withSiteUrl config (url ++ "/")) sorted
    = renderRss P (withSiteUrl config url) sorted.
Proof.
  intros P config url sorted H.
  assert (Hs : stripTrailingSlash (orElse (Some (url ++ "/")) "")
               = stripTrailingSlash (orElse (Some url) "")).
  { assert (H1 : orElse (Some (url ++ "/")) "" = url ++ "/") by now destruct url.
    assert (H2 : orElse (Some url) "" = url) by now destruct url.
    rewrite H1, H2, stripTrailingSlash_added. unfold stripTrailingSlash. now rewrite H. }
  unfold renderRss, rssItems, withSiteUrl. simpl siteUrl. simpl siteTitle.
  simpl siteDescription. now rewrite Hs.
Qed.

Lemma renderRss_trailing_slash_witness :
  renderRss isoPlatform (withSiteUrl exampleConfig "https://example.org/")
    [examplePost "January" "2026-01-01" "January 1, 2026" "january"]
  = renderRss isoPlatform (withSiteUrl exampleConfig "https://example.org")
      [examplePost "January" "2026-01-01" "January 1, 2026" "january"].
Proof.
  apply (renderRss_trailing_slash isoPlatform exampleConfig "https://example.org").
  reflexivity.
Defined.

(** ** The order of the index *)

Lemma descending_unique {A : Type} (key : A -> Z) (l : list A) :
  forall l',
    StronglySorted (descendingBy key) l -> StronglySorted (descendingBy key) l' ->
    Permutation l l' -> NoDup (map key l) -> l = l'.
Proof.
  induction l as [|x l IH]; intros l' Hs Hs' Hp Hnd.
  - now apply Permutation_nil in Hp.
  - destruct l' as [|y l'];
      [apply Permutation_sym, Permutation_nil in Hp; discriminate | ].
    inversion Hs as [|? ? Hsl Hxl]; subst. inversion Hs' as [|? ? Hsl' Hyl']; subst.
    inversion Hnd as [|? ? Hnotin Hnd']; subst.
    assert (Hxy : x = y).
    { assert (Hx : In x (y :: l')) by (eapply Permutation_in; [exact Hp | now left]).
      assert (Hy : In y (x :: l))
        by (eapply Permutation_in; [symmetry; exact Hp | now left]).
      destruct Hy as [Hy | Hy]; [exact Hy | ].
      destruct Hx as [Hx | Hx]; [now symmetry | ].
      rewrite Forall_forall in Hxl, Hyl'.
      pose proof (Hxl _ Hy) as H1. pose proof (Hyl' _ Hx) as H2.
      unfold descendingBy in H1, H2.
      exfalso. apply Hnotin. replace (key x) with (key y) by lia. now apply in_map. }
    subst y. f_equal. apply IH; try assumption.
    now apply Permutation_cons_inv in Hp.
Qed.

Lemma rendered_posts P config (docs : list Document) (pfs : list (Post * File)) :
  Forall2 (rendered P config) docs pfs ->
  map Some (map fst pfs)
  = map (fun d : Document =>
           match readPost P (fst (fst d)) (snd (fst d)) (snd d) with
           | inr (p, _) => Some p
           | inl _ => None
           end) docs.
Proof.
  induction 1 as [|d pf docs pfs [body [html [R _]]] _ IH]; simpl; [reflexivity | ].
  now rewrite R, IH.
Qed.

Lemma collectPosts_sorted_posts P config dirs sorted files :
  collectPosts P config (Some dirs) = Done sorted files ->
  exists pfs,
    Forall2 (rendered P config) (sourceDocuments dirs) pfs
    /\ sorted = sortPosts P (map fst pfs)
    /\ Forall (validDate P) (map fst pfs).
Proof.
  unfold collectPosts. rewrite processCategoryDirs_docs.
  destruct (processDocs P config (sourceDocuments dirs) (mkCollectState [] [] []))
    as [[e|] st] eqn:E; [discriminate | ].
  intros H. injection H as <- _.
  destruct (processDocs_rendered _ _ _ _ _ (initial_CollectInv P) E) as [pfs [Hf [Hp _]]].
  destruct (processDocs_done _ _ _ _ _ (initial_CollectInv P) E) as [Inv _].
  simpl in Hp. exists pfs. rewrite <- Hp. split; [exact Hf | ]. split; [reflexivity | ].
  apply Inv.
Qed.

(** X23.  When the posts have different dates, the index does not depend
    on the order in which the file system lists the folders: two listings
    with the same documents in any order give the same index. *)
Theorem index_independent_of_listing_order :
  forall P config categoryDirs categoryDirs' sorted files sorted' files',
    collectPosts P config (Some categoryDirs) = Done sorted files ->
    collectPosts P config (Some categoryDirs') = Done sorted' files' ->
    Permutation (sourceDocuments categoryDirs) (sourceDocuments categoryDirs') ->
    NoDup (map (postTime P) sorted) ->
    sorted' = sorted.
Proof.
  intros P config dirs dirs' sorted files sorted' files' H H' Hperm Hnd.
  destruct (collectPosts_sorted_posts _ _ _ _ _ H) as [pfs [Hf [-> Hv]]].
  destruct (collectPosts_sorted_posts _ _ _ _ _ H') as [pfs' [Hf' [-> Hv']]].
  assert (Hposts : Permutation (map fst pfs) (map fst pfs')).
  { pose proof (Permutation_map
                  (fun d : Document =>
                     match readPost P (fst (fst d)) (snd (fst d)) (snd d) with
                     | inr (p, _) => Some p
                     | inl _ => None
                     end) Hperm) as Hm.
    rewrite <- (rendered_posts _ _ _ _ Hf), <- (rendered_posts _ _ _ _ Hf') in Hm.
    apply Permutation_map_inv in Hm as [l3 [Heq Hp3]].
    assert (l3 = map fst pfs).
    { clear -Heq. revert l3 Heq. induction (map fst pfs) as [|p l IH]; intros [|q l3] Heq;
        try discriminate; [reflexivity | ].
      simpl in Heq. injection Heq as -> Heq. f_equal. now apply IH. }
    subst l3. now symmetry. }
  symmetry. unfold sortPosts in *.
  apply (descending_unique (postTime P)).
  - apply (arraySort_sorted _ _ _ (validDate P) (compareByDate_key P)). exact Hv.
  - apply (arraySort_sorted _ _ _ (validDate P) (compareByDate_key P)). exact Hv'.
  - rewrite <- (arraySort_perm _ (compareByDate P) (map fst pfs)).
    rewrite <- (arraySort_perm _ (compareByDate P) (map fst pfs')). exact Hposts.
  - exact Hnd.
Qed.

Lemma index_independent_of_listing_order_witness :
  match collectPosts isoPlatform exampleConfig (Some twoDated),
        collectPosts isoPlatform exampleConfig
          (Some [mkCategoryDir "essays" true
                   [mkPostDir "february" true (Some (exampleDoc "February" "2026-02-01"));
                    mkPostDir "january" true (Some (exampleDoc "January" "2026-01-01"))]])
  with
  | Done sorted _, Done sorted' _ => sorted' = sorted
  | _, _ => False
  end.
Proof.
  destruct (collectPosts isoPlatform exampleConfig (Some twoDated))
    as [sorted files | e files] eqn:E;
    [ | vm_compute in E; discriminate E].
  destruct (collectPosts isoPlatform exampleConfig
              (Some [mkCategoryDir "essays" true
                   [mkPostDir "february" true (Some (exampleDoc "February" "2026-02-01"));
                    mkPostDir "january" true (Some (exampleDoc "January" "2026-01-01"))]]))
    as [sorted' files' | e' files'] eqn:E';
    [ | vm_compute in E'; discriminate E'].
  apply (index_independent_of_listing_order _ _ _ _ _ _ _ _ E E').
  - apply perm_swap.
  - pose proof E as E2. vm_compute in E2. injection E2 as Hs _. rewrite <- Hs.
    vm_compute. repeat constructor; simpl; intuition discriminate.
Defined.

(** ** Front matter *)

Lemma codeIs_ascii (a c : ascii) : codeIs (nat_of_ascii a) c = true -> c = a.
Proof.
  unfold codeIs. intros H. apply Nat.eqb_eq in H.
  rewrite <- (ascii_nat_embedding c), H. apply ascii_nat_embedding.
Qed.

Lemma startsWith_nil (s : string) : startsWith "" s = true.
Proof. now destruct s. Qed.

Lemma startsWith_one (a c : ascii) (t : string) :
  startsWith (String a "") (String c t) = codeIs (nat_of_ascii a) c.
Proof.
  unfold startsWith. simpl. destruct (ascii_dec a c) as [-> | ne].
  - unfold codeIs. rewrite Nat.eqb_refl. now destruct t.
  - destruct (codeIs (nat_of_ascii a) c) eqn:E; [ | reflexivity].
    apply codeIs_ascii in E. now elim ne.
Qed.

Lemma indexOf_before (a : ascii) (line : string) :
  forall n, indexOf (String a "") line = Some n ->
            sforallb (notCode (nat_of_ascii a)) (stake n line) = true.
Proof.
  induction line as [|c l IH]; intros n H; [discriminate | ].
  cbn [indexOf] in H. rewrite startsWith_one in H.
  destruct (codeIs (nat_of_ascii a) c) eqn:E.
  - injection H as <-. reflexivity.
  - destruct (indexOf (String a "") l) as [m|]; [ | discriminate].
    injection H as <-. simpl. unfold notCode at 1. rewrite E. simpl. now apply IH.
Qed.

Lemma sforallb_stake (p : ascii -> bool) :
  forall s n, sforallb p s = true -> sforallb p (stake n s) = true.
Proof.
  induction s as [|c s IH]; intros [|n] H; try reflexivity.
  simpl in *. apply andb_true_iff in H as [-> H]. now apply IH.
Qed.

Lemma splitLines_noLF (s : string) : Forall (noChar 10) (splitLines s).
Proof.
  induction s as [|c s IH]; simpl; [now repeat constructor | ].
  destruct (codeIs 10 c) eqn:E; [constructor; [reflexivity | exact IH] | ].
  destruct (splitLines s) as [|l rest]; [repeat constructor; unfold noChar; simpl;
                                         unfold notCode; now rewrite E | ].
  inversion IH as [|? ? Hl Hrest]; subst. constructor; [ | exact Hrest].
  unfold noChar in *. simpl. unfold notCode at 1. now rewrite E.
Qed.

Lemma unquote_noChar (n : nat) (v : string) : noChar n v -> noChar n (unquote v).
Proof.
  unfold noChar, unquote, sliceInner. intros H.
  destruct ((startsWith QUOT v && endsWith QUOT v) || (startsWith "'" v && endsWith "'" v));
    [ | exact H].
  now apply sforallb_stake, sforallb_sdrop.
Qed.

Lemma parseMetaLines_shape (lines : list string) :
  Forall (noChar 10) lines ->
  forall meta meta',
    Forall metaEntryOk meta -> parseMetaLines lines meta = inr meta' ->
    Forall metaEntryOk meta'.
Proof.
  induction 1 as [|line rest Hline _ IH]; simpl; intros meta meta' Hm H.
  - now injection H as <-.
  - destruct (isEmpty (trim line)); [now apply (IH meta) | ].
    destruct (indexOf ":" line) as [split|] eqn:E; [ | discriminate].
    apply (IH _ _) in H; [exact H | ]. constructor; [ | exact Hm].
    unfold metaEntryOk. simpl. split; [apply trim_idem | ]. split.
    + apply sforallb_trim. exact (indexOf_before ":"%char _ _ E).
    + apply unquote_noChar. unfold noChar in *. now apply sforallb_trim, sforallb_sdrop.
Qed.

Lemma headNot_span (p : ascii -> bool) (s : string) :
  headNot p (sdrop (spanLen p s) s) = true.
Proof.
  induction s as [|c s IH]; [reflexivity | ]. simpl.
  destruct (p c) eqn:E; [exact IH | ]. simpl. now rewrite E.
Qed.

(** X24.  What [parseFrontMatter] returns: the body does not begin with a
    line feed, and every key of [meta] is trimmed and has no colon, every
    value has no line feed. *)
Theorem parseFrontMatter_shape :
  forall content meta body,
    parseFrontMatter content = inr (meta, body) ->
    headNot (codeIs 10) body = true /\ Forall metaEntryOk meta.
Proof.
  intros content meta body. unfold parseFrontMatter.
  destruct (negb (startsWith ("---" ++ LF) (normalizeNewlines content))); [discriminate | ].
  destruct (indexOfFrom (LF ++ "---" ++ LF) 4 (normalizeNewlines content)) as [e|];
    [ | discriminate].
  destruct (parseMetaLines _ []) as [err|m] eqn:E; [discriminate | ].
  intros H. injection H as <- <-. split; [apply headNot_span | ].
  eapply parseMetaLines_shape; [apply splitLines_noLF | constructor | exact E].
Qed.

Lemma parseFrontMatter_shape_witness :
  match parseFrontMatter (exampleDoc "January" "2026-01-01") with
  | inr (meta, body) => headNot (codeIs 10) body = true /\ Forall metaEntryOk meta
  | inl _ => False
  end.
Proof.
  destruct (parseFrontMatter (exampleDoc "January" "2026-01-01")) as [e|[meta body]] eqn:E.
  - vm_compute in E. discriminate E.
  - exact (parseFrontMatter_shape _ _ _ E).
Defined.

Lemma trimEnd_nonblank (a : string) (c : ascii) (b : string) :
  isWhitespace c = false -> isEmpty (trimEnd (a ++ String c b)) = false.
Proof.
  intros Hc. induction a as [|x a IH]; simpl.
  - now rewrite Hc.
  - rewrite IH, andb_false_r. reflexivity.
Qed.

Lemma trimStart_keeps (a : string) (c : ascii) (b : string) :
  isWhitespace c = false -> exists a', trimStart (a ++ String c b) = a' ++ String c b.
Proof.
  intros Hc. unfold trimStart. induction a as [|x a IH]; simpl.
  - rewrite Hc. now exists "".
  - destruct (isWhitespace x); [exact IH | ]. now exists (String x a).
Qed.

Lemma trim_nonblank (a : string) (c : ascii) (b : string) :
  isWhitespace c = false -> isEmpty (trim (a ++ String c b)) = false.
Proof.
  intros Hc. unfold trim. destruct (trimStart_keeps a c b Hc) as [a' ->].
  now apply trimEnd_nonblank.
Qed.

Lemma indexOf_here (pat s : string) : startsWith pat s = true -> indexOf pat s = Some 0.
Proof. intros H. destruct s; cbn [indexOf]; now rewrite H. Qed.

Lemma indexOf_skip (a : ascii) (pat : string) (t r : string) :
  sforallb (notCode (nat_of_ascii a)) t = true ->
  indexOf (String a pat) (t ++ r)
  = match indexOf (String a pat) r with
    | Some n => Some (String.length t + n)
    | None => None
    end.
Proof.
  intros H. induction t as [|c t IH]; cbn [String.append indexOf String.length].
  - now destruct (indexOf (String a pat) r).
  - simpl in H. apply andb_true_iff in H as [Hc Ht].
    apply negb_true_iff in Hc. rewrite (startsWith_first a pat c _ Hc), (IH Ht).
    now destruct (indexOf (String a pat) r).
Qed.

Lemma indexOf_next (a : ascii) (pat : string) (c : ascii) (r : string) :
  startsWith (String a pat) (String c r) = false ->
  indexOf (String a pat) (String c r)
  = match indexOf (String a pat) r with
    | Some n => Some (S n)
    | None => None
    end.
Proof. intros H. cbn [indexOf]. now rewrite H. Qed.

Lemma frontMatterLine_not_fence (k r : string) :
  noChar 10 k -> startsWith ("---" ++ LF) (k ++ ":" ++ r) = false.
Proof.
  intros Hk. destruct (startsWith ("---" ++ LF) (k ++ ":" ++ r)) eqn:E; [ | reflexivity].
  apply startsWith_inv in E as [t E]. exfalso.
  destruct k as [|a [|b [|c [|d k]]]]; try discriminate E.
  injection E as _ _ _ E _. subst d. unfold noChar in Hk. cbn [sforallb] in Hk.
  rewrite !andb_true_iff in Hk. destruct Hk as [_ [_ [_ [Hd _]]]]. discriminate Hd.
Qed.

Lemma splitLines_one (a : string) : noChar 10 a -> splitLines a = [a].
Proof.
  unfold noChar. induction a as [|c a IH]; [reflexivity | ]. simpl. intros H.
  apply andb_true_iff in H as [Hc Ha]. apply negb_true_iff in Hc.
  now rewrite Hc, (IH Ha).
Qed.

Lemma splitLines_app (a rest : string) :
  noChar 10 a -> splitLines (a ++ LF ++ rest) = a :: splitLines rest.
Proof.
  unfold noChar. induction a as [|c a IH]; [reflexivity | ].
  cbn [String.append splitLines sforallb]. intros H.
  apply andb_true_iff in H as [Hc Ha]. apply negb_true_iff in Hc.
  now rewrite Hc, (IH Ha).
Qed.

Lemma splitLines_join (lines : list string) :
  Forall (noChar 10) lines -> lines <> [] -> splitLines (join LF lines) = lines.
Proof.
  induction 1 as [|x rest Hx Hrest IH]; intros Hne; [now elim Hne | ].
  destruct rest as [|y rest]; [now apply splitLines_one | ].
  rewrite join_cons, (splitLines_app _ _ Hx). f_equal. now apply IH.
Qed.

Lemma join_noChar (n : nat) (sep : string) (lines : list string) :
  noChar n sep -> Forall (noChar n) lines -> noChar n (join sep lines).
Proof.
  unfold noChar. intros Hsep. induction 1 as [|x rest Hx Hrest IH]; [reflexivity | ].
  destruct rest as [|y rest]; [exact Hx | ].
  rewrite join_cons, !sforallb_app, Hx, Hsep. exact IH.
Qed.

Lemma normalizeNewlines_plain (s : string) : noChar 13 s -> normalizeNewlines s = s.
Proof.
  intros H. unfold normalizeNewlines.
  apply (replaceG_none _ (codeIs 13)).
  - intros c t Hc. unfold CR, LF, chr. cbn [String.append].
    now rewrite (startsWith_first (ascii_of_nat 13) _ c t Hc).
  - apply (sexistsb_false _ (notCode 13)); [ | exact H].
    intros c Hc. now apply negb_true_iff in Hc.
Qed.

Lemma frontMatterLine_plain (kv : string * string) :
  plainKey (fst kv) -> plainValue (snd kv) ->
  noChar 10 (frontMatterLine kv) /\ noChar 13 (frontMatterLine kv).
Proof.
  intros [_ [_ [K10 [K13 _]]]] [_ [_ [V10 [V13 _]]]]. unfold frontMatterLine, noChar in *.
  rewrite !sforallb_app, K10, K13, V10, V13. now split.
Qed.

Lemma parseMetaLines_line (k v : string) (rest : list string) (meta : Meta) :
  trim k = k -> noChar 58 k -> trim v = v -> unquote v = v ->
  parseMetaLines ((k ++ ": " ++ v) :: rest) meta = parseMetaLines rest (metaSet k v meta).
Proof.
  intros Kt Kc Vt Vq. cbn [parseMetaLines].
  change (k ++ ": " ++ v) with (k ++ String ":" (" " ++ v)).
  rewrite trim_nonblank by reflexivity.
  assert (Hi : indexOf ":" (k ++ String ":" (" " ++ v)) = Some (String.length k)).
  { rewrite (indexOf_skip ":"%char "" k _ Kc).
    rewrite indexOf_here by reflexivity. f_equal. lia. }
  rewrite Hi, stake_app_length, Kt.
  assert (Hd : sdrop (String.length k + 1) (k ++ String ":" (" " ++ v)) = " " ++ v).
  { change (k ++ String ":" (" " ++ v)) with (k ++ ":" ++ " " ++ v).
    rewrite <- sappend_assoc.
    replace (String.length k + 1) with (String.length (k ++ ":"))
      by (rewrite sappend_length; reflexivity).
    apply sdrop_app_length. }
  rewrite Hd.
  assert (Ht : trim (" " ++ v) = v) by exact Vt.
  now rewrite Ht, Vq.
Qed.

Lemma parseMetaLines_plain (kvs : list (string * string)) :
  Forall (fun kv => plainKey (fst kv) /\ plainValue (snd kv)) kvs ->
  forall meta,
    parseMetaLines (map frontMatterLine kvs) meta = inr (List.app (rev kvs) meta).
Proof.
  induction 1 as [|[k v] kvs [[Kt [Kc _]] [Vt [Vq _]]] _ IH]; intros meta; [reflexivity | ].
  simpl in Kt, Kc, Vt, Vq. cbn [map].
  change (frontMatterLine (k, v)) with (k ++ ": " ++ v).
  rewrite (parseMetaLines_line k v _ meta Kt Kc Vt Vq), IH.
  unfold metaSet. simpl. now rewrite <- app_assoc.
Qed.

Lemma indexOf_fence (lines : list string) (body : string) :
  Forall (fun line => noChar 10 line /\ exists k r, noChar 10 k /\ line = k ++ ":" ++ r) lines ->
  indexOf (LF ++ "---" ++ LF) (join LF lines ++ (LF ++ "---" ++ LF) ++ body)
  = Some (String.length (join LF lines)).
Proof.
  assert (Hhere : indexOf (LF ++ "---" ++ LF) ((LF ++ "---" ++ LF) ++ body) = Some 0)
    by apply indexOf_here, (startsWith_app (LF ++ "---" ++ LF) body).
  remember ((LF ++ "---" ++ LF) ++ body) as tail eqn:Etail. clear Etail.
  change (LF ++ "---" ++ LF) with (String (ascii_of_nat 10) ("---" ++ LF)) in *.
  induction 1 as [|x rest [Hx _] Hrest IH].
  - exact Hhere.
  - destruct rest as [|y rest].
    + simpl join. rewrite (indexOf_skip (ascii_of_nat 10) _ x _ Hx), Hhere.
      f_equal. lia.
    + rewrite join_cons, (sappend_assoc x), (sappend_assoc LF).
      rewrite (indexOf_skip (ascii_of_nat 10) _ x _ Hx).
      change (LF ++ join LF (y :: rest) ++ tail)
        with (String (ascii_of_nat 10) (join LF (y :: rest) ++ tail)).
      rewrite indexOf_next.
      * rewrite IH. f_equal. rewrite !sappend_length. simpl. lia.
      * inversion Hrest as [|? ? [_ [k [r [Hk ->]]]] _]; subst.
        unfold startsWith. cbn [String.prefix].
        destruct (ascii_dec (ascii_of_nat 10) (ascii_of_nat 10)) as [_ | ne];
          [ | now elim ne].
        destruct rest as [|z rest].
        -- simpl join. rewrite !sappend_assoc.
           exact (frontMatterLine_not_fence k _ Hk).
        -- rewrite join_cons. rewrite !sappend_assoc.
           exact (frontMatterLine_not_fence k _ Hk).
Qed.

Lemma spanLen_headNot (p : ascii -> bool) (s : string) :
  headNot p s = true -> sdrop (spanLen p s) s = s.
Proof.
  destruct s as [|c s]; [reflexivity | ]. simpl. intros H.
  apply negb_true_iff in H. now rewrite H.
Qed.

(** X25.  A front matter block written one [key: value] per line is read
    back as written: for keys (other than [__proto__]) and values of ASCII
    text without surrounding white space, line breaks or (in keys) colons,
    values that are not quoted, and a body without carriage returns that
    does not begin with a line feed, the keys and values come back as they
    are, and so does the body. *)
Theorem parseFrontMatter_round_trip :
  forall kvs body,
    Forall (fun kv => plainKey (fst kv) /\ plainValue (snd kv)) kvs ->
    noChar 13 body ->
    headNot (codeIs 10) body = true ->
    parseFrontMatter (frontMatterText kvs body) = inr (rev kvs, body).
Proof.
  intros kvs body Hkvs Hcr Hbody.
  assert (Hlines : Forall (fun line => noChar 10 line /\ noChar 13 line)
                     (map frontMatterLine kvs)).
  { clear -Hkvs. induction Hkvs as [|kv kvs [Hk Hv] _ IH]; simpl; [constructor | ].
    constructor; [ | exact IH].
    now apply frontMatterLine_plain. }
  assert (Hfence : Forall (fun line => noChar 10 line
                                       /\ exists k r, noChar 10 k /\ line = k ++ ":" ++ r)
                     (map frontMatterLine kvs)).
  { clear -Hkvs. induction Hkvs as [|kv kvs [Hk Hv] _ IH]; simpl; [constructor | ].
    constructor; [ | exact IH].
    split; [now apply frontMatterLine_plain | ].
    exists (fst kv), (" " ++ snd kv). split; [apply Hk | reflexivity]. }
  assert (Hmeta : parseMetaLines (splitLines (join LF (map frontMatterLine kvs))) []
                  = inr (rev kvs)).
  { destruct kvs as [|kv kvs]; [reflexivity | ].
    rewrite splitLines_join.
    - rewrite (parseMetaLines_plain _ Hkvs). now rewrite app_nil_r.
    - eapply Forall_impl; [ | exact Hlines]. now intros line [H _].
    - discriminate. }
  unfold frontMatterText.
  remember (join LF (map frontMatterLine kvs)) as J eqn:EJ.
  assert (HJ : noChar 13 J).
  { subst J. apply join_noChar; [reflexivity | ].
    eapply Forall_impl; [ | exact Hlines]. now intros line [_ H]. }
  assert (Hidx : indexOf (LF ++ "---" ++ LF) (J ++ (LF ++ "---" ++ LF) ++ body)
                 = Some (String.length J)).
  { subst J. now apply indexOf_fence. }
  clear EJ Hlines Hfence Hkvs.
  unfold parseFrontMatter.
  rewrite normalizeNewlines_plain.
  2:{ unfold noChar in *. rewrite !sforallb_app, HJ, Hcr. reflexivity. }
  rewrite (startsWith_app ("---" ++ LF)). cbn [negb].
  unfold indexOfFrom.
  replace (Nat.leb 4 _) with true
    by (symmetry; apply Nat.leb_le; rewrite sappend_length; simpl; lia).
  assert (H4 : sdrop 4 (("---" ++ LF) ++ J ++ (LF ++ "---" ++ LF) ++ body)
               = J ++ (LF ++ "---" ++ LF) ++ body)
    by exact (sdrop_app_length ("---" ++ LF) _).
  rewrite H4, Hidx.
  replace (4 + String.length J - 4) with (String.length J) by lia.
  rewrite stake_app_length, Hmeta.
  rewrite <- (sappend_assoc J), <- (sappend_assoc ("---" ++ LF)).
  replace (4 + String.length J + 5)
    with (String.length (("---" ++ LF) ++ J ++ LF ++ "---" ++ LF))
    by (rewrite !sappend_length; simpl; lia).
  rewrite sdrop_app_length, (spanLen_headNot _ _ Hbody). reflexivity.
Qed.

Lemma parseFrontMatter_round_trip_witness :
  parseFrontMatter
    (frontMatterText [("title", "January"); ("date", "2026-01-01")] "## First")
  = inr ([("date", "2026-01-01"); ("title", "January")], "## First").
Proof.
  apply (parseFrontMatter_round_trip [("title", "January"); ("date", "2026-01-01")]
           "## First").
  - repeat constructor; try (vm_compute; reflexivity); discriminate.
  - reflexivity.
  - reflexivity.
Defined.

(** ** Block quotes *)

Lemma quote_line (line : string) :
  testQuote line = true ->
  isEmpty line = false /\ matchHeading line = None /\ testFence line = false
  /\ testBullet line = false /\ testOrdered line = false.
Proof.
  unfold testQuote. intros H. apply startsWith_inv in H as [t ->]. now repeat split.
Qed.

(** X26.  In a body of ASCII text, neighbouring lines that start with [>]
    make one block quote, whose text is the lines without their markers,
    joined by single spaces; the quote ends before the first line that
    does not start with [>], which is left for the next iteration. *)
Theorem blockquote_joins_lines :
  forall i raw more st,
    Forall (fun l => isAsciiText l = true) (raw :: more) ->
    Forall (fun l => testQuote (trim l) = true) (raw :: more) ->
    (forall stop rest,
        Forall (fun l => isAsciiText l = true) (stop :: rest) ->
        testQuote (trim stop) = false ->
        parseLoop 0 i (raw :: List.app more (stop :: rest)) st
        = match pushBlock
                  (BBlockquote (join " " (map (fun l => stripQuote (trim l)) (raw :: more))))
                  st with
          | Some st' => parseLoop 0 (i + List.length more + 1) (stop :: rest) st'
          | None => None
          end)
    /\ parseLoop 0 i (raw :: more) st
       = pushBlock (BBlockquote (join " " (map (fun l => stripQuote (trim l)) (raw :: more))))
           st.
Proof.
  intros i raw more st _ Hall.
  destruct (list_loop i raw more st (fun l => testQuote (trim l))
              (fun taken => BBlockquote (join " " (map (fun l => stripQuote (trim l)) taken))))
    as [H1 H2]; [ | exact Hall | ].
  - intros rest. inversion Hall as [|? ? Hraw _]; subst.
    destruct (quote_line _ Hraw) as [He [Hh [Hf [Hb Ho]]]].
    unfold parseStep. now rewrite He, Hh, Hf, Hb, Ho, Hraw.
  - split; [intros stop rest _ Hs; exact (H1 stop rest Hs) | exact H2].
Qed.

Lemma blockquote_joins_lines_witness :
  parseLoop 0 0 ["> a"; " >b"; "text"] initialState
  = match pushBlock (BBlockquote "a b") initialState with
    | Some st' => parseLoop 0 2 ["text"] st'
    | None => None
    end.
Proof.
  destruct (blockquote_joins_lines 0 "> a" [" >b"] initialState) as [H _];
    [repeat constructor | repeat constructor | ].
  apply (H "text" []); [repeat constructor | reflexivity].
Defined.

(** ** Flags *)

Lemma trimStart_blank (s : string) : sforallb isWhitespace s = true -> trimStart s = "".
Proof.
  unfold trimStart. induction s as [|c s IH]; [reflexivity | ]. simpl. intros H.
  apply andb_true_iff in H as [Hc Hs]. rewrite Hc. now apply IH.
Qed.

(** X27.  A flag that is present and not empty never falls back to the
    default: the result is the same whatever the default is, and a value
    made of white space only is rejected. *)
Theorem parseBooleanFlag_no_fallback :
  forall value fieldName,
    isEmpty value = false ->
    (forall d d', parseBooleanFlag (Some value) fieldName d
                  = parseBooleanFlag (Some value) fieldName d')
    /\ (sforallb isWhitespace value = true ->
        forall d, parseBooleanFlag (Some value) fieldName d
                  = inl (InvalidBooleanFlag fieldName)).
Proof.
  intros value fieldName Hne. unfold parseBooleanFlag. rewrite Hne. split; [reflexivity | ].
  intros Hws d. unfold trim. now rewrite (trimStart_blank _ Hws).
Qed.

Lemma parseBooleanFlag_no_fallback_witness :
  parseBooleanFlag (Some " ") "showContents" true = inl (InvalidBooleanFlag "showContents").
Proof.
  destruct (parseBooleanFlag_no_fallback " " "showContents") as [_ H]; [reflexivity | ].
  apply H. reflexivity.
Defined.

(** ** Documents without chapters *)














(** ** The subsection tree is the forest of the headings *)

Lemma updLast_snoc {A : Type} (f : A -> list A) (dflt : list A) (init : list A) (x : A) :
  updLast f dflt (List.app init [x]) = List.app init (f x).
Proof.
  induction init as [|y init IH]; [reflexivity | ].
  change (List.app (y :: init) [x]) with (y :: List.app init [x]).
  cbn [updLast]. rewrite IH. destruct (List.app init [x]) eqn:E; [ | reflexivity].
  now destruct init.
Qed.

Lemma placeBelow_eq (h : Subsection) id level title children :
  placeBelow h (mkSubsection id level title children)
  = mkSubsection id level title (insertHeading h children).
Proof. reflexivity. Qed.

Lemma insertHeading_snoc (h t : Subsection) (forest : list Subsection) :
  insertHeading h (List.app forest [t])
  = if Nat.ltb (sub_level t) (sub_level h) then List.app forest [placeBelow h t]
    else List.app (List.app forest [t]) [h].
Proof.
  unfold insertHeading. rewrite updLast_snoc.
  destruct (Nat.ltb (sub_level t) (sub_level h)); [reflexivity | ].
  now rewrite <- app_assoc.
Qed.

Lemma forestOf_snoc (hs : list Subsection) (h : Subsection) :
  forestOf (List.app hs [h]) = insertHeading h (forestOf hs).
Proof. unfold forestOf. now rewrite fold_left_app. Qed.

Lemma Denotes_stable (hp hp' : list SubNode) (lo hi : nat) :
  (forall i, lo <= i -> i < hi -> nth_error hp' i = nth_error hp i) ->
  (forall r t, Denotes hp lo hi r t -> Denotes hp' lo hi r t)
  /\ (forall rs ts, DenotesAll hp lo hi rs ts -> DenotesAll hp' lo hi rs ts).
Proof.
  intros Hagree. split.
  - apply (Denotes_mut hp lo hi (fun r t => Denotes hp' lo hi r t)
             (fun rs ts => DenotesAll hp' lo hi rs ts)).
    + intros r node kids Hlo Hhi Hn _ IH. constructor; try assumption.
      now rewrite Hagree.
    + constructor.
    + intros r t rs ts _ IH1 _ IH2. now constructor.
  - apply (DenotesAll_mut hp lo hi (fun r t => Denotes hp' lo hi r t)
             (fun rs ts => DenotesAll hp' lo hi rs ts)).
    + intros r node kids Hlo Hhi Hn _ IH. constructor; try assumption.
      now rewrite Hagree.
    + constructor.
    + intros r t rs ts _ IH1 _ IH2. now constructor.
Qed.

Lemma Denotes_weaken (hp : list SubNode) (lo hi lo' hi' : nat) :
  lo' <= lo -> hi <= hi' ->
  (forall r t, Denotes hp lo hi r t -> Denotes hp lo' hi' r t)
  /\ (forall rs ts, DenotesAll hp lo hi rs ts -> DenotesAll hp lo' hi' rs ts).
Proof.
  intros Hlo Hhi. split.
  - apply (Denotes_mut hp lo hi (fun r t => Denotes hp lo' hi' r t)
             (fun rs ts => DenotesAll hp lo' hi' rs ts)).
    + intros r node kids H1 H2 Hn _ IH. constructor; try assumption; lia.
    + constructor.
    + intros r t rs ts _ IH1 _ IH2. now constructor.
  - apply (DenotesAll_mut hp lo hi (fun r t => Denotes hp lo' hi' r t)
             (fun rs ts => DenotesAll hp lo' hi' rs ts)).
    + intros r node kids H1 H2 Hn _ IH. constructor; try assumption; lia.
    + constructor.
    + intros r t rs ts _ IH1 _ IH2. now constructor.
Qed.

Lemma DenotesAll_stable (hp hp' : list SubNode) (lo hi : nat) rs ts :
  (forall i, lo <= i -> i < hi -> nth_error hp' i = nth_error hp i) ->
  DenotesAll hp lo hi rs ts -> DenotesAll hp' lo hi rs ts.
Proof. intros H. apply (proj2 (Denotes_stable hp hp' lo hi H)). Qed.

Lemma DenotesAll_weaken (hp : list SubNode) (lo hi lo' hi' : nat) rs ts :
  lo' <= lo -> hi <= hi' ->
  DenotesAll hp lo hi rs ts -> DenotesAll hp lo' hi' rs ts.
Proof. intros H1 H2. apply (proj2 (Denotes_weaken hp lo hi lo' hi' H1 H2)). Qed.

Lemma DenotesAll_app (hp : list SubNode) (lo hi : nat) (rs rs' : list nat)
    (ts ts' : list Subsection) :
  DenotesAll hp lo hi rs ts -> DenotesAll hp lo hi rs' ts' ->
  DenotesAll hp lo hi (List.app rs rs') (List.app ts ts').
Proof.
  induction 1 as [|r t rs0 ts0 Hr _ IH]; intros H'; [exact H' | ].
  simpl. constructor; [exact Hr | now apply IH].
Qed.

(** The tree that a reference denotes is the one [resolveSub] returns. *)
Lemma Denotes_resolve (hp : list SubNode) (lo hi : nat) :
  (forall r t, Denotes hp lo hi r t ->
     forall fuel t', resolveSub fuel hp r = Some t' -> t' = t)
  /\ (forall rs ts, DenotesAll hp lo hi rs ts ->
        forall fuel ts', mapOpt (resolveSub fuel hp) rs = Some ts' -> ts' = ts).
Proof.
  assert (Hnode : forall r node kids,
             lo <= r -> r < hi -> nth_error hp r = Some node ->
             DenotesAll hp lo hi (sn_children node) kids ->
             (forall fuel ts', mapOpt (resolveSub fuel hp) (sn_children node) = Some ts' ->
                               ts' = kids) ->
             forall fuel t', resolveSub fuel hp r = Some t' ->
               t' = mkSubsection (sn_id node) (sn_level node) (sn_title node) kids).
  { intros r node kids _ _ Hn _ IH [|fuel] t'; simpl; [discriminate | ].
    rewrite Hn. destruct (mapOpt (resolveSub fuel hp) (sn_children node)) as [cs|] eqn:E;
      [ | discriminate].
    intros H. injection H as <-. now rewrite (IH _ _ E). }
  assert (Hcons : forall r t rs ts,
             Denotes hp lo hi r t ->
             (forall fuel t', resolveSub fuel hp r = Some t' -> t' = t) ->
             DenotesAll hp lo hi rs ts ->
             (forall fuel ts', mapOpt (resolveSub fuel hp) rs = Some ts' -> ts' = ts) ->
             forall fuel ts', mapOpt (resolveSub fuel hp) (r :: rs) = Some ts' -> ts' = t :: ts).
  { intros r t rs ts _ IH1 _ IH2 fuel ts'. simpl.
    destruct (resolveSub fuel hp r) as [t0|] eqn:E1; [ | discriminate].
    destruct (mapOpt (resolveSub fuel hp) rs) as [ts0|] eqn:E2; [ | discriminate].
    intros H. injection H as <-. now rewrite (IH1 _ _ E1), (IH2 _ _ E2). }
  assert (Hnil : forall fuel ts', mapOpt (resolveSub fuel hp) [] = Some ts' -> ts' = []).
  { intros fuel ts' H. now injection H as <-. }
  split.
  - exact (Denotes_mut hp lo hi _ _ Hnode Hnil Hcons).
  - exact (DenotesAll_mut hp lo hi _ _ Hnode Hnil Hcons).
Qed.

Lemma Spine_denotes (hp : list SubNode) (lo : nat) (refs stack : list nat)
    (F : list Subsection) :
  Spine hp lo refs stack F -> DenotesAll hp lo (List.length hp) refs F.
Proof.
  induction 1 as [lo | lo init s stack node Finit Fkids Hlo Hinit Hn _ IH]; [constructor | ].
  assert (Hs : s < List.length hp) by (apply nth_error_Some; congruence).
  apply DenotesAll_app.
  - apply (DenotesAll_weaken hp lo s lo (List.length hp)); [lia | lia | exact Hinit].
  - constructor; [ | constructor]. constructor; try assumption.
    apply (DenotesAll_weaken hp (S s) (List.length hp) lo (List.length hp));
      [lia | lia | exact IH].
Qed.

Lemma Spine_bounds (hp : list SubNode) (lo : nat) (refs stack : list nat)
    (F : list Subsection) :
  Spine hp lo refs stack F -> Forall (fun s => lo <= s /\ s < List.length hp) stack.
Proof.
  induction 1 as [lo | lo init s stack node Finit Fkids Hlo Hinit Hn _ IH]; constructor.
  - split; [exact Hlo | ]. apply nth_error_Some. congruence.
  - eapply Forall_impl; [ | exact IH]. simpl. intros x. lia.
Qed.

Lemma Spine_ascending (hp : list SubNode) :
  levelsOk hp ->
  forall lo refs stack F,
    Spine hp lo refs stack F ->
    forall lower,
      (forall r node, In r refs -> nth_error hp r = Some node -> lower <= sn_level node) ->
      ascending hp lower stack.
Proof.
  intros Hl. induction 1 as [lo | lo init s stack node Finit Fkids Hlo Hinit Hn _ IH];
    intros lower Hlower; simpl; [exact I | ].
  exists node. split; [exact Hn | ]. split.
  - apply (Hlower s); [apply in_or_app; right; now left | exact Hn].
  - apply IH. intros r cnode Hr Hc. exact (Hl s node r cnode Hn Hr Hc).
Qed.

Lemma popStack_all (hp : list SubNode) (level : nat) :
  forall stack lower acc,
    ascending hp lower stack -> level <= lower ->
    popStack hp level (List.app (rev stack) acc) = popStack hp level acc.
Proof.
  induction stack as [|s rest IH]; intros lower acc Ha Hl; [reflexivity | ].
  destruct Ha as [node [Hn [Hlow Ha]]]. simpl rev. rewrite <- app_assoc. simpl.
  rewrite (IH (S (sn_level node)) (s :: acc) Ha) by lia.
  simpl. rewrite Hn. replace (Nat.leb level (sn_level node)) with true; [reflexivity | ].
  symmetry. apply Nat.leb_le. lia.
Qed.

Lemma pop_keep (hp : list SubNode) (level : nat) :
  forall stack lower acc,
    ascending hp lower stack ->
    popStack hp level (List.app (rev stack) acc)
    = match keepOf hp level stack with
      | [] => popStack hp level acc
      | _ :: _ => Some (List.app (rev (keepOf hp level stack)) acc)
      end.
Proof.
  induction stack as [|s rest IH]; intros lower acc Ha; [reflexivity | ].
  destruct Ha as [node [Hn [Hlow Ha]]]. simpl rev. rewrite <- app_assoc.
  cbn [keepOf]. rewrite Hn. destruct (Nat.ltb (sn_level node) level) eqn:E.
  - apply Nat.ltb_lt in E. rewrite (IH _ _ Ha). simpl List.app.
    destruct (keepOf hp level rest) as [|x k'] eqn:K.
    + simpl. rewrite Hn. replace (Nat.leb level (sn_level node)) with false; [reflexivity | ].
      symmetry. apply Nat.leb_gt. exact E.
    + simpl. now rewrite <- !app_assoc.
  - apply Nat.ltb_ge in E. rewrite (popStack_all hp level rest _ _ Ha) by lia.
    simpl. rewrite Hn. replace (Nat.leb level (sn_level node)) with true; [reflexivity | ].
    symmetry. now apply Nat.leb_le.
Qed.

Lemma keepOf_incl (hp : list SubNode) (level : nat) (stack : list nat) (x : nat) :
  In x (keepOf hp level stack) -> In x stack.
Proof.
  induction stack as [|s rest IH]; simpl; [easy | ].
  destruct (nth_error hp s) as [node|]; [ | easy].
  destruct (Nat.ltb (sn_level node) level); [ | easy].
  intros [<- | H]; [now left | right; now apply IH].
Qed.

Lemma keepOf_agree (hp hp' : list SubNode) (level : nat) (stack : list nat) :
  Forall (fun s => nth_error hp' s = nth_error hp s) stack ->
  keepOf hp' level stack = keepOf hp level stack.
Proof.
  induction 1 as [|s rest Hs _ IH]; simpl; [reflexivity | ]. now rewrite Hs, IH.
Qed.

Lemma ascending_agree (hp hp' : list SubNode) :
  forall stack lower,
    Forall (fun s => nth_error hp' s = nth_error hp s) stack ->
    ascending hp lower stack -> ascending hp' lower stack.
Proof.
  induction stack as [|s rest IH]; intros lower Hs Ha; [exact I | ].
  inversion Hs as [|? ? E Hrest]; subst. destruct Ha as [node [Hn [Hlow Ha]]].
  exists node. rewrite E. split; [exact Hn | ]. split; [exact Hlow | now apply IH].
Qed.

Lemma last_in {A : Type} (x : A) (l : list A) (d : A) : In (last (x :: l) d) (x :: l).
Proof.
  revert x. induction l as [|y l IH]; intros x; [now left | ].
  right. exact (IH y).
Qed.

(** Allocating the node of a heading and hanging it below the entry that
    the pop loop leaves on top (or beside the roots when it leaves none)
    places the heading in the forest. *)
Lemma attach_spine (hp : list SubNode) (nd : SubNode) :
  sn_children nd = [] ->
  forall lo refs stack F,
    Spine hp lo refs stack F ->
    forall (hp' : list SubNode) (above : option nat),
      lo <= List.length hp ->
      (forall q, above = Some q -> q < lo) ->
      nth_error hp' (List.length hp) = Some nd ->
      (forall i, i < List.length hp ->
         match keepOf hp (sn_level nd) stack with
         | [] => above
         | x :: k => Some (last (x :: k) 0)
         end <> Some i ->
         nth_error hp' i = nth_error hp i) ->
      (forall q node,
         match keepOf hp (sn_level nd) stack with
         | [] => above
         | x :: k => Some (last (x :: k) 0)
         end = Some q ->
         nth_error hp q = Some node ->
         nth_error hp' q = Some (addChild (List.length hp) node)) ->
      Spine hp' lo
        (match keepOf hp (sn_level nd) stack with
         | [] => List.app refs [List.length hp]
         | _ :: _ => refs
         end)
        (List.app (keepOf hp (sn_level nd) stack) [List.length hp])
        (insertHeading (mkSubsection (sn_id nd) (sn_level nd) (sn_title nd) []) F).
Proof.
  intros Hleaf.
  induction 1 as [lo | lo init s stack node Finit Fkids Hlo Hinit Hn Hsub IH];
    intros hp' above Hlen Habove Hnew Hsame Hupd.
  - simpl. apply (Spine_step hp' lo [] (List.length hp) [] nd [] []);
      [exact Hlen | constructor | exact Hnew | rewrite Hleaf; constructor].
  - assert (Hs : s < List.length hp) by (apply nth_error_Some; congruence).
    pose proof (Spine_bounds _ _ _ _ _ Hsub) as Hb. rewrite Forall_forall in Hb.
    cbn [keepOf] in *. rewrite Hn in *.
    destruct (Nat.ltb (sn_level node) (sn_level nd)) eqn:E.
    + rewrite insertHeading_snoc. cbn [sub_level]. rewrite E, placeBelow_eq.
      assert (Hq : exists q, Some (last (s :: keepOf hp (sn_level nd) stack) 0) = Some q
                             /\ s <= q).
      { eexists. split; [reflexivity | ].
        destruct (keepOf hp (sn_level nd) stack) as [|x k] eqn:K; [simpl; lia | ].
        change (last (s :: x :: k) 0) with (last (x :: k) 0).
        pose proof (last_in x k 0) as Hin. rewrite <- K in Hin at 2.
        apply keepOf_incl, Hb in Hin. lia. }
      destruct Hq as [q [Hq Hsq]].
      assert (Hinit' : DenotesAll hp' lo s init Finit).
      { apply (DenotesAll_stable hp hp' lo s); [ | exact Hinit].
        intros i _ Hi. apply Hsame; [lia | ]. rewrite Hq. intros H. injection H as H. lia. }
      assert (Hsub' : Spine hp' (S s)
                        (match keepOf hp (sn_level nd) stack with
                         | [] => List.app (sn_children node) [List.length hp]
                         | _ :: _ => sn_children node
                         end)
                        (List.app (keepOf hp (sn_level nd) stack) [List.length hp])
                        (insertHeading (mkSubsection (sn_id nd) (sn_level nd) (sn_title nd) [])
                           Fkids)).
      { apply (IH hp' (Some s)); [lia | intros q' H; injection H as <-; lia | exact Hnew | | ].
        - intros i Hi Hne. apply Hsame; [exact Hi | ].
          destruct (keepOf hp (sn_level nd) stack) as [|x k]; [exact Hne | exact Hne].
        - intros q' node' Hq' Hn'. apply Hupd; [ | exact Hn'].
          destruct (keepOf hp (sn_level nd) stack) as [|x k]; [exact Hq' | exact Hq']. }
      simpl List.app.
      destruct (keepOf hp (sn_level nd) stack) as [|x k] eqn:K.
      * simpl in Hq. injection Hq as <-.
        pose proof (Hupd s node eq_refl Hn) as Hs'.
        exact (Spine_step hp' lo init s _ (addChild (List.length hp) node) Finit _
                 Hlo Hinit' Hs' Hsub').
      * assert (Hs' : nth_error hp' s = Some node).
        { rewrite <- Hn. apply Hsame; [exact Hs | ].
          change (last (s :: x :: k) 0) with (last (x :: k) 0).
          pose proof (last_in x k 0) as Hin. rewrite <- K in Hin at 2.
          apply keepOf_incl, Hb in Hin. intros H.
          assert (Heq : last (x :: k) 0 = s) by (now injection H).
          lia. }
        exact (Spine_step hp' lo init s _ node Finit _ Hlo Hinit' Hs' Hsub').
    + rewrite insertHeading_snoc. cbn [sub_level]. rewrite E. simpl List.app.
      apply (Spine_step hp' lo (List.app init [s]) (List.length hp) [] nd
               (List.app Finit [mkSubsection (sn_id node) (sn_level node) (sn_title node) Fkids])
               []);
        [exact Hlen | | exact Hnew | rewrite Hleaf; constructor].
      apply (DenotesAll_stable hp hp' lo (List.length hp)).
      * intros i Hi1 Hi2. apply Hsame; [exact Hi2 | ].
        intros H. apply Habove in H. lia.
      * apply Spine_denotes
          with (stack := s :: stack).
        now apply Spine_step.
Qed.

Lemma updateAt_some {A : Type} (f : A -> A) :
  forall n l l', updateAt n f l = Some l' -> n < List.length l.
Proof.
  induction n as [|n IH]; intros [|x l] l'; simpl; try discriminate; [lia | ].
  destruct (updateAt n f l) as [r|] eqn:E; [ | discriminate].
  intros _. apply IH in E. lia.
Qed.

Lemma rev_head_last {A : Type} (l : list A) (p : A) (b : list A) (d : A) :
  rev l = p :: b -> last l d = p.
Proof.
  intros H. apply (f_equal (@rev A)) in H. rewrite rev_involutive in H. subst l.
  simpl. apply last_last.
Qed.

Lemma sectionHeadings_app (a b : list Block) :
  sectionHeadings (List.app a b) = List.app (sectionHeadings a) (sectionHeadings b).
Proof. unfold sectionHeadings. apply flat_map_app. Qed.

Lemma forestsOk_initial : forestsOk initialState.
Proof.
  exists 0. split; [apply le_n | ]. split.
  - intros k c H. now destruct k.
  - intros a c H. discriminate H.
Qed.

(** A block that is no subsection heading, or a block of the intro, leaves
    the forests as they are. *)
Lemma forestsOk_pushBlock (block : Block) (st st' : ParseState) :
  forestsOk st ->
  activeChapter st = None \/ sectionHeadings [block] = [] ->
  pushBlock block st = Some st' -> forestsOk st'.
Proof.
  intros [bound [Hb [Hclosed Hactive]]] Hcase. unfold pushBlock.
  destruct (activeChapter st) as [a|] eqn:Ea.
  - destruct Hcase as [Hcase | Hcase]; [discriminate | ].
    destruct (updateAt a (addBlock block) (chapters st)) as [chs|] eqn:E; [ | discriminate].
    intros H. injection H as <-. exists bound. cbn. split; [exact Hb | ].
    pose proof (updateAt_nth _ _ _ _ E) as Hnth. split.
    + intros k c Hk Hne. rewrite Hnth in Hk.
      destruct (Nat.eqb k a) eqn:Ek; [apply Nat.eqb_eq in Ek; congruence | ].
      apply (Hclosed k c Hk). congruence.
    + intros a' c Ha' Hc. injection Ha' as <-.
      rewrite Hnth, Nat.eqb_refl in Hc.
      destruct (nth_error (chapters st) a) as [c0|] eqn:E0; [ | discriminate].
      injection Hc as <-. simpl.
      rewrite sectionHeadings_app, Hcase, app_nil_r. now apply (Hactive a c0).
  - intros H. injection H as <-. exists bound. cbn. split; [exact Hb | ].
    split; [intros k c Hk _; apply (Hclosed k c Hk); congruence | ].
    intros a c Ha. discriminate.
Qed.

(** A new chapter closes the active one. *)
Lemma forestsOk_newChapter (st : ParseState) (ib : list Block) (used : list string)
    (title id : string) :
  forestsOk st ->
  forestsOk (mkParseState ib (List.app (chapters st) [mkChapterCell title id [] []])
               used (Some (List.length (chapters st))) [] (heap st)).
Proof.
  intros [bound [Hb [Hclosed Hactive]]]. exists (List.length (heap st)). cbn.
  split; [apply le_n | ]. split.
  - intros k c Hk Hne. rewrite nth_error_snoc in Hk.
    destruct (Nat.ltb k (List.length (chapters st))) eqn:L.
    + destruct (activeChapter st) as [a|] eqn:Ea.
      * destruct (Nat.eq_dec a k) as [-> | Hak].
        -- apply (DenotesAll_weaken _ bound (List.length (heap st))); [lia | lia | ].
           apply Spine_denotes with (stack := rev (subsectionStack st)).
           now apply (Hactive k c).
        -- apply (DenotesAll_weaken _ 0 bound); [lia | lia | ].
           apply (Hclosed k c Hk). congruence.
      * apply (DenotesAll_weaken _ 0 bound); [lia | lia | ].
        apply (Hclosed k c Hk). discriminate.
    + destruct (Nat.eqb k (List.length (chapters st))) eqn:Ek; [ | discriminate].
      apply Nat.eqb_eq in Ek. subst k. now elim Hne.
  - intros a c Ha Hc. injection Ha as <-. rewrite nth_error_snoc, Nat.ltb_irrefl, Nat.eqb_refl in Hc.
    injection Hc as <-. simpl. constructor.
Qed.

(** A subsection heading under a chapter is placed in the chapter's
    forest. *)
Lemma forestsOk_attach (a : nat) (id : string) (level : nat) (text : string)
    (st st1 st2 : ParseState) :
  levelsOk (heap st) -> forestsOk st ->
  activeChapter st = Some a -> 3 <= level ->
  attachSubsection a id level text st = Some st1 ->
  pushBlock (BHeading level text id) st1 = Some st2 ->
  forestsOk st2.
Proof.
  intros Hlev [bound [Hb [Hclosed Hactive]]] Ha H3. unfold attachSubsection.
  set (nd := mkSubNode id level text []).
  set (hp := heap st) in *. set (hpx := List.app hp [nd]).
  assert (Hhead : sectionHeadings [BHeading level text id] = [mkSubsection id level text []]).
  { unfold sectionHeadings. cbn [flat_map].
    now rewrite (proj2 (Nat.leb_le 3 level) H3). }
  assert (Hx : forall i, i < List.length hp -> nth_error hpx i = nth_error hp i).
  { intros i Hi. unfold hpx. rewrite nth_error_snoc.
    apply Nat.ltb_lt in Hi. now rewrite Hi. }
  assert (Hxn : nth_error hpx (List.length hp) = Some nd).
  { unfold hpx. now rewrite nth_error_snoc, Nat.ltb_irrefl, Nat.eqb_refl. }
  assert (Hstack : forall c, nth_error (chapters st) a = Some c ->
             Forall (fun s => bound <= s /\ s < List.length hp) (rev (subsectionStack st))
             /\ popStack hpx level (subsectionStack st)
                = Some (rev (keepOf hp level (rev (subsectionStack st))))).
  { intros c Hc. pose proof (Hactive a c Ha Hc) as Hsp.
    pose proof (Spine_bounds _ _ _ _ _ Hsp) as Hbd. split; [exact Hbd | ].
    assert (Hagree : Forall (fun s => nth_error hpx s = nth_error hp s)
                       (rev (subsectionStack st))).
    { eapply Forall_impl; [ | exact Hbd]. intros s [_ Hs]. now apply Hx. }
    assert (Hasc : ascending hpx 0 (rev (subsectionStack st))).
    { apply (ascending_agree hp hpx _ _ Hagree).
      apply (Spine_ascending hp Hlev _ _ _ _ Hsp). intros; lia. }
    pose proof (pop_keep hpx level _ 0 [] Hasc) as Hpop.
    rewrite rev_involutive, app_nil_r, (keepOf_agree hp hpx _ _ Hagree) in Hpop.
    rewrite Hpop. destruct (keepOf hp level (rev (subsectionStack st))); [reflexivity | ].
    now rewrite app_nil_r. }
  destruct (popStack hpx level (subsectionStack st)) as [stack'|] eqn:Epop; [ | discriminate].
  destruct stack' as [|parent below].
  - destruct (updateAt a (addSubsection (List.length hp)) (chapters st)) as [chs1|] eqn:E1;
      [ | discriminate].
    intros H. injection H as <-. unfold pushBlock. cbn [activeChapter chapters]. rewrite Ha.
    destruct (updateAt a (addBlock (BHeading level text id)) chs1) as [chs2|] eqn:E2;
      [ | discriminate].
    intros H. injection H as <-. exists bound. cbn.
    pose proof (updateAt_nth _ _ _ _ E1) as N1. pose proof (updateAt_nth _ _ _ _ E2) as N2.
    split; [unfold hpx; rewrite length_app; simpl; lia | ]. split.
    + intros k c Hk Hne. rewrite N2, N1 in Hk.
      destruct (Nat.eqb k a) eqn:Ek; [apply Nat.eqb_eq in Ek; congruence | ].
      apply (DenotesAll_stable hp hpx 0 bound); [intros i _ Hi; apply Hx; lia | ].
      apply (Hclosed k c Hk). congruence.
    + intros a' c Ha' Hc. injection Ha' as <-. rewrite N2, N1, Nat.eqb_refl in Hc.
      destruct (nth_error (chapters st) a) as [c0|] eqn:E0; [ | discriminate].
      injection Hc as <-. simpl.
      destruct (Hstack c0 eq_refl) as [Hbd Hk]. injection Hk as Hk.
      assert (Hkeep : keepOf hp level (rev (subsectionStack st)) = []).
      { destruct (keepOf hp level (rev (subsectionStack st))) as [|x k] eqn:K;
          [reflexivity | ].
        apply (f_equal (@List.length nat)) in Hk. simpl in Hk.
        rewrite length_app in Hk. simpl in Hk. lia. }
      rewrite sectionHeadings_app, Hhead, forestOf_snoc.
      pose proof (attach_spine hp nd eq_refl _ _ _ _ (Hactive a c0 Ha E0) hpx None
                    Hb (fun q H => match H with end) Hxn) as Hsp.
      cbn [sn_level sn_id sn_title nd] in Hsp. rewrite Hkeep in Hsp. simpl in Hsp.
      apply Hsp; [intros i Hi _; now apply Hx | intros q node H; discriminate H].
  - destruct (updateAt parent (addChild (List.length hp)) hpx) as [hp'|] eqn:E1;
      [ | discriminate].
    intros H. injection H as <-. unfold pushBlock. cbn [activeChapter chapters]. rewrite Ha.
    destruct (updateAt a (addBlock (BHeading level text id)) (chapters st)) as [chs2|] eqn:E2;
      [ | discriminate].
    intros H. injection H as <-. exists bound. cbn.
    pose proof (updateAt_nth _ _ _ _ E1) as N1. pose proof (updateAt_nth _ _ _ _ E2) as N2.
    pose proof (updateAt_length _ _ _ _ E1) as L1.
    assert (Hc0 : exists c0, nth_error (chapters st) a = Some c0).
    { apply updateAt_some in E2. destruct (nth_error (chapters st) a) as [c0|] eqn:E0;
        [now exists c0 | ]. apply nth_error_None in E0. lia. }
    destruct Hc0 as [c0 Hc0]. destruct (Hstack c0 Hc0) as [Hbd Hk]. injection Hk as Hk.
    rewrite Forall_forall in Hbd.
    assert (Hkeep : exists x k, keepOf hp level (rev (subsectionStack st)) = x :: k
                                /\ last (x :: k) 0 = parent).
    { destruct (keepOf hp level (rev (subsectionStack st))) as [|x k] eqn:K;
        [discriminate Hk | ].
      exists x, k. split; [reflexivity | ]. apply rev_head_last with (b := below).
      now symmetry. }
    destruct Hkeep as [x [k [Hkeep Hlast]]].
    assert (Hpar : bound <= parent /\ parent < List.length hp).
    { apply Hbd. apply (keepOf_incl hp level). rewrite Hkeep, <- Hlast. apply last_in. }
    split; [rewrite L1; unfold hpx; rewrite length_app; simpl; lia | ]. split.
    + intros k0 c Hk0 Hne. rewrite N2 in Hk0.
      destruct (Nat.eqb k0 a) eqn:Ek; [apply Nat.eqb_eq in Ek; congruence | ].
      apply (DenotesAll_stable hp hp' 0 bound).
      * intros i _ Hi. rewrite N1.
        replace (Nat.eqb i parent) with false by (symmetry; apply Nat.eqb_neq; lia).
        apply Hx. lia.
      * apply (Hclosed k0 c Hk0). congruence.
    + intros a' c Ha' Hc. injection Ha' as <-. rewrite N2, Nat.eqb_refl, Hc0 in Hc.
      injection Hc as <-. simpl.
      rewrite sectionHeadings_app, Hhead, forestOf_snoc.
      pose proof (attach_spine hp nd eq_refl _ _ _ _ (Hactive a c0 Ha Hc0) hp' None
                    Hb (fun q H => match H with end)) as Hsp.
      cbn [sn_level sn_id sn_title nd] in Hsp. rewrite Hkeep in Hsp.
      assert (Hrv : List.app (rev below) [parent] = x :: k).
      { change (rev (parent :: below) = x :: k). now rewrite Hk, rev_involutive. }
      rewrite Hrv. apply Hsp.
      * rewrite N1. replace (Nat.eqb (List.length hp) parent) with false
          by (symmetry; apply Nat.eqb_neq; lia). exact Hxn.
      * intros i Hi Hne. rewrite Hlast in Hne. rewrite N1.
        replace (Nat.eqb i parent) with false
          by (symmetry; apply Nat.eqb_neq; intros ->; now apply Hne).
        now apply Hx.
      * intros q node Hq Hn. rewrite Hlast in Hq. injection Hq as <-.
        rewrite N1, Nat.eqb_refl, Hx, Hn by lia. reflexivity.
Qed.

Lemma forestsOk_processHeading (i level : nat) (text : string) (st st' : ParseState) :
  WF st -> forestsOk st ->
  processHeading i level text st = Some st' -> forestsOk st'.
Proof.
  intros W HF. unfold processHeading. destruct (Nat.eqb level 2) eqn:L2.
  - destruct (uniqueId _ _ _ _) as [[id used']|]; [ | discriminate].
    intros H. injection H as <-. now apply forestsOk_newChapter.
  - destruct (uniqueId _ _ _ _) as [[id used']|]; [ | discriminate].
    cbn [activeChapter].
    set (st1 := mkParseState (introBlocks st) (chapters st) used' (activeChapter st)
                  (subsectionStack st) (heap st)).
    assert (HF1 : forestsOk st1) by exact HF.
    destruct (activeChapter st) as [a|] eqn:Ea.
    + destruct (Nat.leb 3 level) eqn:L3.
      * destruct (attachSubsection a id level text st1) as [st2|] eqn:A; [ | discriminate].
        intros H. apply Nat.leb_le in L3.
        apply (forestsOk_attach a id level text st1 st2 st'); try assumption.
        -- exact (wf_levels _ W).
        -- reflexivity.
      * intros H. apply (forestsOk_pushBlock (BHeading level text id) st1 st' HF1);
          [ | exact H].
        right. unfold sectionHeadings. cbn [flat_map]. now rewrite L3.
    + intros H. apply (forestsOk_pushBlock (BHeading level text id) st1 st' HF1);
        [ | exact H].
      left. reflexivity.
Qed.

Lemma forestsOk_parseStep (i : nat) (raw : string) (rest : list string)
    (st st' : ParseState) (n : nat) :
  WF st -> forestsOk st ->
  parseStep i raw rest st = Some (n, st') -> forestsOk st'.
Proof.
  intros W HF. unfold parseStep.
  destruct (isEmpty (trim raw)); [intros H; now injection H as _ <- | ].
  destruct (matchHeading (trim raw)) as [[level text]|].
  - destruct (processHeading i level (trim text) st) as [st1|] eqn:E; [ | discriminate].
    intros H. injection H as _ <-. exact (forestsOk_processHeading _ _ _ _ _ W HF E).
  - assert (Hplain : forall block k,
               sectionHeadings [block] = [] ->
               match pushBlock block st with
               | Some st1 => Some (k, st1)
               | None => None
               end = Some (n, st') -> forestsOk st').
    { intros block k Hb. destruct (pushBlock block st) as [st1|] eqn:E; [ | discriminate].
      intros H. injection H as _ <-. apply (forestsOk_pushBlock block st st1 HF); [ | exact E].
      now right. }
    destruct (testFence (trim raw)); [now apply Hplain | ].
    destruct (testBullet (trim raw)); [now apply Hplain | ].
    destruct (testOrdered (trim raw)); [now apply Hplain | ].
    destruct (testQuote (trim raw)); [now apply Hplain | ].
    destruct (paragraphLines rest) as [more blank]. now apply Hplain.
Qed.

(** In every outline the subsection tree of a chapter is the forest of the
    chapter's headings. *)
Lemma outline_forests (markdown : string) (o : Outline) :
  parseMarkdown markdown = Some o ->
  Forall (fun ch => ch_subsections ch = forestOf (sectionHeadings (ch_blocks ch)))
    (o_chapters o).
Proof.
  intros Ho. destruct (parseMarkdown_inv _ _ Ho) as [st [Hst [W [_ Hc]]]].
  assert (HJ : WF st /\ forestsOk st).
  { unfold parseState in Hst.
    refine (parseLoop_invariant (fun s => WF s /\ forestsOk s) _
              (bodyLines markdown) 0 0 initialState st _ Hst).
    - intros i raw rest s n s' [Ws Hs] Hstep. split.
      + destruct (parseStep_wf i raw rest s Ws) as [n' [s1 [E [W1 _]]]].
        rewrite Hstep in E. now injection E as _ <-.
      + exact (forestsOk_parseStep _ _ _ _ _ _ Ws Hs Hstep).
    - split; [exact initialState_wf | exact forestsOk_initial]. }
  destruct HJ as [_ [bound [Hb [Hclosed Hactive]]]].
  assert (Hall : forall k c, nth_error (chapters st) k = Some c ->
             DenotesAll (heap st) 0 (List.length (heap st)) (cc_subsections c)
               (forestOf (sectionHeadings (cc_blocks c)))).
  { intros k c Hk. destruct (activeChapter st) as [a|] eqn:Ea.
    - destruct (Nat.eq_dec a k) as [-> | Hne].
      + apply (DenotesAll_weaken _ bound (List.length (heap st))); [lia | lia | ].
        apply Spine_denotes with (stack := rev (subsectionStack st)).
        now apply (Hactive k c).
      + apply (DenotesAll_weaken _ 0 bound); [lia | lia | ].
        apply (Hclosed k c Hk). congruence.
    - apply (DenotesAll_weaken _ 0 bound); [lia | lia | ].
      apply (Hclosed k c Hk). discriminate. }
  clear -Hc Hall. revert Hall.
  induction Hc as [|c ch cells chs H _ IH]; intros Hall; constructor.
  - apply resolveChapter_fields in H as [_ [_ [Hblocks Hs]]]. rewrite Hblocks.
    exact (proj2 (Denotes_resolve _ _ _) _ _ (Hall 0 c eq_refl) _ _ Hs).
  - apply IH. intros k c' Hk. exact (Hall (S k) c' Hk).
Qed.

(** ** Rendered text stays on its line *)

Lemma string_of_uint_digits (d : Decimal.uint) :
  sforallb isDigit (NilEmpty.string_of_uint d) = true.
Proof. induction d; simpl; try reflexivity; exact IHd. Qed.

Lemma showNat_noLF (n : nat) : noChar 10 (showNat n).
Proof.
  unfold noChar, showNat. apply (sforallb_impl isDigit); [ | apply string_of_uint_digits].
  intros c H. unfold notCode. now rewrite (isDigit_not_code 10 c H) by lia.
Qed.

Lemma escapeHtml_noLF (s : string) : noChar 10 s -> noChar 10 (escapeHtml s).
Proof.
  intros H. unfold escapeHtml.
  repeat (apply replaceAllChar_keeps; [reflexivity | ]). exact H.
Qed.

Lemma replaceG_keeps (Q : ascii -> bool) (m : string -> option (string * nat)) :
  (forall t rep n, sforallb Q t = true -> m t = Some (rep, n) -> sforallb Q rep = true) ->
  forall s k, sforallb Q s = true -> sforallb Q (replaceG m k s) = true.
Proof.
  intros Hm. induction s as [|c s IH]; intros k H; [reflexivity | ].
  pose proof H as Hcs. simpl in H. apply andb_true_iff in H as [Hc Hs].
  destruct k as [|k]; cbn [replaceG]; [ | now apply IH].
  destruct (m (String c s)) as [[rep n]|] eqn:E.
  - rewrite sforallb_app, (Hm _ _ _ Hcs E). now apply IH.
  - simpl. rewrite Hc. now apply IH.
Qed.

Lemma replaceGSt_keeps {St : Type} (Q : ascii -> bool) (I : St -> Prop)
    (m : St -> string -> option (string * nat * St)) :
  (forall st t rep n st',
      I st -> sforallb Q t = true -> m st t = Some (rep, n, st') ->
      sforallb Q rep = true /\ I st') ->
  forall s k st,
    I st -> sforallb Q s = true ->
    sforallb Q (fst (replaceGSt m k st s)) = true /\ I (snd (replaceGSt m k st s)).
Proof.
  intros Hm. induction s as [|c s IH]; intros k st HI H; [now split | ].
  pose proof H as Hcs. simpl in H. apply andb_true_iff in H as [Hc Hs].
  destruct k as [|k]; cbn [replaceGSt]; [ | now apply IH].
  destruct (m st (String c s)) as [[[rep n] st']|] eqn:E.
  - destruct (Hm _ _ _ _ _ HI Hcs E) as [Hrep HI'].
    destruct (IH (n - 1) st' HI' Hs) as [H1 H2].
    destruct (replaceGSt m (n - 1) st' s) as [out st'']. simpl in *.
    now rewrite sforallb_app, Hrep, H1.
  - destruct (IH 0 st HI Hs) as [H1 H2].
    destruct (replaceGSt m 0 st s) as [out st'']. simpl in *. now rewrite Hc, H1.
Qed.

Lemma sforallb_sub (Q : ascii -> bool) (t : string) (a b : nat) :
  sforallb Q t = true -> sforallb Q (stake a (sdrop b t)) = true.
Proof. intros H. now apply sforallb_stake, sforallb_sdrop. Qed.

Ltac lineSafe :=
  repeat match goal with
         | |- sforallb _ EmptyString = true => reflexivity
         | |- sforallb _ QUOT = true => reflexivity
         | |- sforallb ?p (String ?c ?s) = true =>
             change (p c && sforallb p s = true);
             apply andb_true_intro; split; [reflexivity | ]
         | |- sforallb _ (_ ++ _) = true =>
             rewrite sforallb_app; apply andb_true_intro; split
         | |- sforallb _ (stake _ _) = true => apply sforallb_stake
         | |- sforallb _ (sdrop _ _) = true => apply sforallb_sdrop
         | |- sforallb _ (match ?t with EmptyString => _ | String _ _ => _ end) = true =>
             first [apply (sforallb_sdrop _ t 1) | apply (sforallb_sdrop _ t 2)]
         | |- sforallb _ (showNat _) = true => apply showNat_noLF
         | |- sforallb _ (escapeAttr _) = true => apply escapeHtml_noLF; unfold noChar
         | |- sforallb _ _ = true => assumption
         end.

Lemma renderInline_noLF (s : string) : noChar 10 s -> noChar 10 (renderInline s).
Proof.
  unfold noChar. intros H. unfold renderInline.
  pose proof (replaceGSt_keeps (notCode 10)
                (fun snippets => Forall (fun x => sforallb (notCode 10) x = true) snippets)
                codeSpanMatch) as Hcode.
  destruct (Hcode) with (s := escapeHtml s) (k := 0) (st := @nil string) as [H1 H2].
  - intros st t rep n st' HI Ht. unfold codeSpanMatch.
    destruct (startsWith "`" t); [ | discriminate].
    destruct (negb (Nat.eqb (spanLen (notCode 96) (sdrop 1 t)) 0)
              && startsWith "`" (sdrop (spanLen (notCode 96) (sdrop 1 t)) (sdrop 1 t)));
      [ | discriminate].
    intros E. injection E as <- _ <-. split.
    + lineSafe.
    + apply Forall_app. split; [exact HI | ]. constructor; [ | constructor]. lineSafe.
  - constructor.
  - now apply escapeHtml_noLF.
  - destruct (replaceGSt codeSpanMatch 0 [] (escapeHtml s)) as [escaped snippets].
    simpl in H1, H2.
    apply replaceG_keeps.
    { intros t rep n Ht. unfold restoreMatch.
      destruct (startsWith "__CODE_" t); [ | discriminate].
      destruct (negb (Nat.eqb (spanLen isDigit (sdrop 7 t)) 0)
                && startsWith "__" (sdrop (spanLen isDigit (sdrop 7 t)) (sdrop 7 t)));
        [ | discriminate].
      intros E. injection E as <- _.
      destruct (nth_error snippets _) as [snippet|] eqn:N; [ | reflexivity].
      rewrite Forall_forall in H2. apply H2. eapply nth_error_In. exact N. }
    apply replaceG_keeps.
    { intros t rep n Ht. unfold italicMatch.
      destruct (startsWith "*" t); [ | discriminate].
      destruct (negb (Nat.eqb (spanLen (notCode 42) (sdrop 1 t)) 0)
                && startsWith "*" (sdrop (spanLen (notCode 42) (sdrop 1 t)) (sdrop 1 t)));
        [ | discriminate].
      intros E. injection E as <- _. lineSafe. }
    apply replaceG_keeps.
    { intros t rep n Ht. unfold boldMatch.
      destruct (startsWith "**" t); [ | discriminate].
      destruct (negb (Nat.eqb (spanLen (notCode 42) (sdrop 2 t)) 0)
                && startsWith "**" (sdrop (spanLen (notCode 42) (sdrop 2 t)) (sdrop 2 t)));
        [ | discriminate].
      intros E. injection E as <- _. lineSafe. }
    apply replaceG_keeps; [ | exact H1].
    intros t rep n Ht. unfold linkMatch.
    repeat match goal with
           | |- context [if ?b then _ else None] => destruct b; [ | discriminate]
           end.
    intros E.
    apply (f_equal (fun o => match o with Some (r, _) => r | None => EmptyString end)) in E.
    cbv beta iota zeta in E. subst rep. lineSafe.
Qed.

(** ** Ids and titles of subsections hold no line feed *)

Lemma matchHeading_noLF (line : string) (level : nat) (text : string) :
  matchHeading line = Some (level, text) -> noChar 10 text.
Proof.
  unfold matchHeading, noChar.
  assert (Hlt : forall s, sexistsb isLineTerminator s = false -> sforallb (notCode 10) s = true).
  { induction s as [|c s IH]; [reflexivity | ]. simpl. intros H.
    apply orb_false_iff in H as [Hc Hs]. rewrite (IH Hs), andb_true_r.
    unfold isLineTerminator in Hc. apply orb_false_iff in Hc as [Hc _].
    unfold notCode. now rewrite Hc. }
  intros H.
  repeat match type of H with
         | context [if ?b then _ else _] => destruct b eqn:?; try discriminate H
         end;
    injection H as _ <-; apply Hlt;
    repeat match goal with
           | E : negb _ = true |- _ => apply negb_true_iff in E
           | E : _ && _ = true |- _ => apply andb_true_iff in E as [? ?]
           end; assumption.
Qed.

Lemma slugify_noLF (value : string) : noChar 10 (slugify value).
Proof.
  unfold noChar. apply (sforallb_impl isSlugOut); [ | apply slugify_chars].
  intros c H. unfold notCode. destruct (codeIs 10 c) eqn:E; [ | reflexivity].
  apply codeIs_true in E. subst c. discriminate H.
Qed.

Lemma section_id_noLF (id text fallback : string) :
  noChar 10 fallback -> idHasBase id (idBase "section" text fallback) -> noChar 10 id.
Proof.
  unfold noChar. intros Hf Hid.
  assert (Hb : sforallb (notCode 10) (idBase "section" text fallback) = true).
  { unfold idBase. rewrite !sforallb_app.
    destruct (isEmpty (slugify text)); [now rewrite Hf | now rewrite slugify_noLF]. }
  destruct Hid as [-> | [k [_ ->]]]; [exact Hb | ].
  now rewrite !sforallb_app, Hb, (showNat_noLF k).
Qed.

Lemma processHeading_nodes (i level : nat) (text : string) (st st' : ParseState) :
  processHeading i level text st = Some st' ->
  forall P : SubNode -> Prop,
    (forall n r, P n -> P (addChild r n)) ->
    (forall id, idHasBase id (idBase "section" text (showNat (i + 1))) ->
                P (mkSubNode id level text [])) ->
    Forall P (heap st) -> Forall P (heap st').
Proof.
  unfold processHeading. destruct (Nat.eqb level 2).
  - destruct (uniqueId _ _ _ _) as [[id used']|]; [ | discriminate].
    intros H. now injection H as <-.
  - destruct (uniqueId _ _ _ _) as [[id used']|] eqn:U; [ | discriminate].
    apply uniqueId_spec in U. cbn [activeChapter]. intros H P Hadd Hnew Hall.
    assert (Hid : P (mkSubNode id level text [])) by (apply Hnew; tauto).
    destruct (activeChapter st) as [a|].
    + destruct (Nat.leb 3 level).
      * destruct (attachSubsection a id level text _) as [st2|] eqn:A; [ | discriminate].
        apply attachSubsection_frame in A as [_ Hp].
        apply pushBlock_frame in H as [_ [Hheap _]]. rewrite Hheap.
        now apply Hp.
      * apply pushBlock_frame in H as [_ [Hheap _]]. now rewrite Hheap.
    + apply pushBlock_frame in H as [_ [Hheap _]]. now rewrite Hheap.
Qed.

Lemma parseStep_nodes (i : nat) (raw : string) (rest : list string)
    (st st' : ParseState) (n : nat) :
  parseStep i raw rest st = Some (n, st') ->
  Forall (fun node => onOneLine (sn_id node) (sn_title node)) (heap st) ->
  Forall (fun node => onOneLine (sn_id node) (sn_title node)) (heap st').
Proof.
  unfold parseStep.
  destruct (isEmpty (trim raw)); [intros H; now injection H as _ <- | ].
  destruct (matchHeading (trim raw)) as [[level text]|] eqn:M.
  - destruct (processHeading i level (trim text) st) as [st1|] eqn:E; [ | discriminate].
    intros H. injection H as _ <-. apply matchHeading_noLF in M.
    apply (processHeading_nodes _ _ _ _ _ E); [now intros node r | ].
    intros id Hid. split; simpl.
    + exact (section_id_noLF _ _ _ (showNat_noLF _) Hid).
    + now apply sforallb_trim.
  - assert (Hplain : forall block k,
               match pushBlock block st with
               | Some st1 => Some (k, st1)
               | None => None
               end = Some (n, st') ->
               Forall (fun node => onOneLine (sn_id node) (sn_title node)) (heap st) ->
               Forall (fun node => onOneLine (sn_id node) (sn_title node)) (heap st')).
    { intros block k. destruct (pushBlock block st) as [st1|] eqn:E; [ | discriminate].
      intros H. injection H as _ <-. apply pushBlock_frame in E as [_ [Hheap _]].
      now rewrite Hheap. }
    destruct (testFence (trim raw)); [apply Hplain | ].
    destruct (testBullet (trim raw)); [apply Hplain | ].
    destruct (testOrdered (trim raw)); [apply Hplain | ].
    destruct (testQuote (trim raw)); [apply Hplain | ].
    destruct (paragraphLines rest) as [more blank]. apply Hplain.
Qed.

Lemma resolveSub_nodes (hp : list SubNode) (Q : string -> string -> Prop) :
  Forall (fun node => Q (sn_id node) (sn_title node)) hp ->
  forall fuel r t, resolveSub fuel hp r = Some t ->
    AllNodes (fun s => Q (sub_id s) (sub_title s)) t.
Proof.
  intros Hhp. induction fuel as [|fuel IH]; intros r t; simpl; [discriminate | ].
  destruct (nth_error hp r) as [node|] eqn:E; [ | discriminate].
  destruct (mapOpt (resolveSub fuel hp) (sn_children node)) as [cs|] eqn:Ec; [ | discriminate].
  intros H. injection H as <-. constructor.
  - simpl. rewrite Forall_forall in Hhp. apply Hhp. eapply nth_error_In; exact E.
  - apply mapOpt_Forall2 in Ec. clear E.
    induction Ec as [|c t cs' ts Hct _ IHc]; constructor; [now apply (IH _ _ Hct) | exact IHc].
Qed.

Lemma outline_nodes_onOneLine (markdown : string) (o : Outline) (ch : Chapter) :
  parseMarkdown markdown = Some o -> In ch (o_chapters o) ->
  Forall (AllNodes (fun s => onOneLine (sub_id s) (sub_title s))) (ch_subsections ch).
Proof.
  intros Ho Hin. destruct (parseMarkdown_inv _ _ Ho) as [st [Hst [_ [_ Hc]]]].
  assert (Hheap : Forall (fun node => onOneLine (sn_id node) (sn_title node)) (heap st)).
  { unfold parseState in Hst.
    refine (parseLoop_invariant
              (fun s => Forall (fun node => onOneLine (sn_id node) (sn_title node)) (heap s))
              _ (bodyLines markdown) 0 0 initialState st _ Hst).
    - intros i raw rest s k s' Hs Hstep. exact (parseStep_nodes _ _ _ _ _ _ Hstep Hs).
    - constructor. }
  destruct (Forall2_in_r _ _ _ _ Hc Hin) as [c [_ H]].
  apply resolveChapter_fields in H as [_ [_ [_ Hs]]]. apply mapOpt_Forall2 in Hs.
  eapply Forall2_Forall_r; [exact Hs | ]. intros r t Hr. simpl in Hr.
  exact (resolveSub_nodes _ onOneLine Hheap _ _ _ Hr).
Qed.

(** ** The lines of the rendered table of contents *)

Lemma splitLines_nonempty (s : string) : splitLines s <> [].
Proof.
  induction s as [|c s IH]; simpl; [discriminate | ].
  destruct (codeIs 10 c); [discriminate | ]. now destruct (splitLines s).
Qed.

Lemma splitLines_sep (a b : string) :
  splitLines (a ++ LF ++ b) = List.app (splitLines a) (splitLines b).
Proof.
  induction a as [|c a IH]; [reflexivity | ].
  cbn [String.append splitLines]. rewrite IH.
  destruct (codeIs 10 c); [reflexivity | ].
  pose proof (splitLines_nonempty a) as Hne.
  destruct (splitLines a) as [|l rest]; [now elim Hne | reflexivity].
Qed.

Lemma splitLines_joined (items : list string) :
  items <> [] -> splitLines (join LF items) = flat_map splitLines items.
Proof.
  induction items as [|x rest IH]; intros Hne; [now elim Hne | ].
  destruct rest as [|y rest].
  - simpl. now rewrite app_nil_r.
  - rewrite join_cons, splitLines_sep. cbn [flat_map]. f_equal. now apply IH.
Qed.

Lemma flat_map_one {A B : Type} (f : A -> list B) (x : A) : flat_map f [x] = f x.
Proof. simpl. apply app_nil_r. Qed.

Lemma Subsection_forest_ind (P : Subsection -> Prop) :
  (forall id level title children,
      Forall P children -> P (mkSubsection id level title children)) ->
  forall t, P t.
Proof.
  intros H. fix IH 1. intros [id level title children]. apply H.
  induction children as [|c cs IHc]; constructor; [apply IH | exact IHc].
Qed.

Lemma tocOlOpen_line (depth : nat) : tocOlOpen depth = tocListLine depth.
Proof. reflexivity. Qed.

Lemma tocLiOpen_line (level : nat) : tocLiOpen level = tocItemLine (Nat.min level 6).
Proof. reflexivity. Qed.

Lemma tocLink_line (id title : string) : tocLink id title = tocLinkLine id title.
Proof. reflexivity. Qed.

Lemma tocOlOpen_noLF (depth : nat) : noChar 10 (tocOlOpen depth).
Proof. rewrite tocOlOpen_line. unfold noChar, tocListLine. lineSafe. Qed.

Lemma tocLiOpen_noLF (level : nat) : noChar 10 (tocLiOpen level).
Proof. rewrite tocLiOpen_line. unfold noChar, tocItemLine. lineSafe. Qed.

Lemma tocLink_noLF (id title : string) :
  onOneLine id title -> noChar 10 (tocLink id title).
Proof.
  intros [Hi Ht]. rewrite tocLink_line. unfold noChar, tocLinkLine. lineSafe.
  now apply renderInline_noLF.
Qed.

(** Splitting what a subsection contributes into lines gives [tocFlat]. *)
Lemma tocFlat_lines (node : Subsection) :
  AllNodes (fun s => onOneLine (sub_id s) (sub_title s)) node ->
  forall depth, flat_map splitLines (tocNodeLines depth node) = tocFlat depth node.
Proof.
  induction node as [id level title children IH] using Subsection_forest_ind.
  intros Hall depth. apply AllNodes_here in Hall as [Hn Hc]. simpl in Hn, Hc.
  assert (Hkids : forall d, flat_map splitLines (flat_map (tocNodeLines d) children)
                            = flat_map (tocFlat d) children).
  { intros d. clear Hn. induction children as [|c cs IHc]; [reflexivity | ].
    inversion IH; subst. inversion Hc; subst. cbn [flat_map].
    rewrite flat_map_app. f_equal; [now apply H1 | now apply IHc]. }
  assert (Hnest : forall d,
             flat_map splitLines
               (List.app (tocOlOpen d :: flat_map (tocNodeLines d) children) [tocOlClose])
             = List.app (tocOlOpen d :: flat_map (tocFlat d) children) [tocOlClose]).
  { intros d. rewrite <- Hkids. generalize (flat_map (tocNodeLines d) children) as items.
    intros items. cbn [List.app flat_map].
    rewrite (splitLines_one _ (tocOlOpen_noLF d)), flat_map_app. reflexivity. }
  cbn [tocNodeLines tocFlat]. rewrite flat_map_app. cbn [flat_map].
  rewrite (splitLines_one _ (tocLiOpen_noLF level)), (splitLines_one _ (tocLink_noLF _ _ Hn)).
  rewrite app_nil_r. change (splitLines tocLiClose) with [tocLiClose].
  cbn [List.app]. f_equal. f_equal. f_equal.
  destruct children as [|c cs]; [reflexivity | ].
  rewrite flat_map_one, splitLines_joined by discriminate. apply Hnest.
Qed.

Lemma renderTocSubsections_lines (forest : list Subsection) (depth : nat) :
  forest <> [] ->
  Forall (AllNodes (fun s => onOneLine (sub_id s) (sub_title s))) forest ->
  splitLines (renderTocSubsections forest depth)
  = List.app (tocOlOpen depth :: flat_map (tocFlat depth) forest) [tocOlClose].
Proof.
  intros Hne Hall. rewrite renderTocSubsections_eq by exact Hne.
  rewrite splitLines_joined by discriminate.
  rewrite flat_map_app. cbn [flat_map].
  rewrite (splitLines_one _ (tocOlOpen_noLF depth)). cbn [List.app]. f_equal. f_equal.
  clear Hne. induction Hall as [|c cs Hc _ IHc]; [reflexivity | ].
  cbn [flat_map]. rewrite flat_map_app. f_equal; [now apply tocFlat_lines | exact IHc].
Qed.

(** ** Lists open at an entry *)

Lemma olStep_open (stack : list string) (depth : nat) :
  olStep stack (tocOlOpen depth) = tocOlOpen depth :: stack.
Proof. reflexivity. Qed.

Lemma olStep_close (stack : list string) : olStep stack tocOlClose = tl stack.
Proof. reflexivity. Qed.

Lemma olStep_item (stack : list string) (level : nat) : olStep stack (tocLiOpen level) = stack.
Proof. reflexivity. Qed.

Lemma olStep_link (stack : list string) (id title : string) :
  olStep stack (tocLink id title) = stack.
Proof. reflexivity. Qed.

Lemma olStep_item_end (stack : list string) : olStep stack tocLiClose = stack.
Proof. reflexivity. Qed.

(** The lines of a subsection close every list that they open. *)
Lemma tocFlat_balanced (node : Subsection) :
  forall depth stack, fold_left olStep (tocFlat depth node) stack = stack.
Proof.
  induction node as [id level title children IH] using Subsection_forest_ind.
  intros depth stack.
  assert (Hkids : forall d stk, fold_left olStep (flat_map (tocFlat d) children) stk = stk).
  { intros d. induction IH as [|c cs Hc _ IHc]; intros stk; [reflexivity | ].
    cbn [flat_map]. now rewrite fold_left_app, Hc, IHc. }
  cbn [tocFlat]. rewrite fold_left_app. cbn [fold_left].
  rewrite olStep_item, olStep_link.
  destruct children as [|c cs]; [now rewrite olStep_item_end | ].
  cbn [List.app fold_left]. rewrite olStep_open, fold_left_app, Hkids. cbn [fold_left].
  now rewrite olStep_close, olStep_item_end.
Qed.

Lemma forest_balanced (forest : list Subsection) (depth : nat) (stack : list string) :
  fold_left olStep (flat_map (tocFlat depth) forest) stack = stack.
Proof.
  revert stack. induction forest as [|c cs IH]; intros stack; [reflexivity | ].
  cbn [flat_map]. now rewrite fold_left_app, tocFlat_balanced, IH.
Qed.

Lemma tocFlat_eq (depth : nat) (node : Subsection) :
  tocFlat depth node
  = tocLiOpen (sub_level node) :: tocLink (sub_id node) (sub_title node)
      :: List.app (match sub_children node with
                   | [] => []
                   | _ :: _ =>
                       List.app (tocOlOpen (S depth)
                                   :: flat_map (tocFlat (S depth)) (sub_children node))
                                [tocOlClose]
                   end) [tocLiClose].
Proof. destruct node as [id level title [|c cs]]; reflexivity. Qed.

(** The entry lines of a subsection at tree depth [d] come after lines that
    leave open exactly the lists of depth [k], ..., [k + d - 1], on top of
    what was open before. *)
Lemma entry_nesting (d : nat) (n : Subsection) (forest : list Subsection) :
  AtDepth d n forest ->
  forall k stack, exists before after,
    List.app (tocOlOpen k :: flat_map (tocFlat k) forest) [tocOlClose]
    = List.app before
        (tocLiOpen (sub_level n) :: tocLink (sub_id n) (sub_title n) :: after)
    /\ fold_left olStep before stack
       = List.app (map tocOlOpen (rev (seq k d))) stack.
Proof.
  induction 1 as [n forest Hin | d n m forest Hm Hbelow IH]; intros k stack.
  - destruct (in_split _ _ Hin) as [l1 [l2 ->]].
    exists (tocOlOpen k :: flat_map (tocFlat k) l1). eexists. split.
    + rewrite flat_map_app. cbn [flat_map]. rewrite (tocFlat_eq k n).
      cbn [List.app]. rewrite <- !app_assoc. cbn [List.app]. reflexivity.
    + cbn [fold_left]. now rewrite olStep_open, forest_balanced.
  - destruct (IH (S k) (tocOlOpen k :: stack)) as [before [after [Heq Hfold]]].
    destruct (in_split _ _ Hm) as [l1 [l2 ->]].
    pose proof (AtDepth_nonempty _ _ _ Hbelow) as Hne.
    exists (tocOlOpen k
              :: List.app (flat_map (tocFlat k) l1)
                   (tocLiOpen (sub_level m) :: tocLink (sub_id m) (sub_title m) :: before)).
    eexists. split.
    + rewrite flat_map_app. cbn [flat_map]. rewrite (tocFlat_eq k m).
      destruct (sub_children m) as [|c cs]; [now elim Hne | ].
      rewrite Heq. cbn [List.app]. rewrite <- !app_assoc. cbn [List.app].
      rewrite <- !app_assoc. cbn [List.app]. reflexivity.
    + cbn [fold_left]. rewrite olStep_open, fold_left_app, forest_balanced.
      cbn [fold_left]. rewrite olStep_item, olStep_link, Hfold.
      cbn [seq rev]. rewrite map_app, <- app_assoc. reflexivity.
Qed.

Lemma outline_levels (markdown : string) (o : Outline) (ch : Chapter) :
  parseMarkdown markdown = Some o -> In ch (o_chapters o) ->
  Forall (AllNodes (fun s => 3 <= sub_level s <= 6)) (ch_subsections ch).
Proof.
  intros Ho Hin. destruct (parseMarkdown_inv _ _ Ho) as [st [Hst [_ [_ Hc]]]].
  assert (Hheap : Forall (fun node => 3 <= sn_level node <= 6) (heap st)).
  { unfold parseState in Hst.
    refine (parseLoop_invariant
              (fun s => Forall (fun node => 3 <= sn_level node <= 6) (heap s))
              _ (bodyLines markdown) 0 0 initialState st _ Hst).
    - intros i raw rest s k s' Hs Hstep.
      now apply (proj2 (parseStep_frame _ _ _ _ _ _ Hstep)).
    - constructor. }
  destruct (Forall2_in_r _ _ _ _ Hc Hin) as [c [_ H]].
  apply resolveChapter_fields in H as [_ [_ [_ Hs]]]. apply mapOpt_Forall2 in Hs.
  eapply Forall2_Forall_r; [exact Hs | ]. intros r t Hr. simpl in Hr.
  exact (resolveSub_all _ (fun l => 3 <= l <= 6) Hheap _ _ _ Hr).
Qed.

(** C3.  Every body has an outline, and in every chapter of it:

    - the subsection tree is the forest of the chapter's headings of level
      3 and more, in the order of the blocks ([forestOf]): the parent of a
      heading is the nearest heading before it with a smaller level, which
      is what popping the stack while its top has a level greater than or
      equal to the incoming one leaves on top, and a heading with no such
      predecessor is a root;
    - the level of a subsection is strictly greater than the level of its
      parent, at every depth of the tree;
    - the table of contents of the page contains the list rendered for the
      subsections of the chapter, and among the lines of that list the two
      entry lines of a subsection at depth [d] of the tree (the [li] line
      carrying its level and the [a] line carrying its id and title) come
      directly one after the other, after lines that leave exactly [d]
      lists open: those of class [depth-d], ..., [depth-1], the innermost
      first. *)
Theorem subsection_levels_and_toc_depth :
  forall markdown, exists o,
    parseMarkdown markdown = Some o
    /\ forall ch, In ch (o_chapters o) ->
         ch_subsections ch = forestOf (sectionHeadings (ch_blocks ch))
         /\ Forall LevelsIncrease (ch_subsections ch)
         /\ (forall post,
                Contains (renderTocSubsections (ch_subsections ch) 1) (tocHtml post o))
         /\ forall d n, AtDepth d n (ch_subsections ch) ->
              exists before after,
                splitLines (renderTocSubsections (ch_subsections ch) 1)
                = List.app before
                    (tocItemLine (sub_level n)
                       :: tocLinkLine (sub_id n) (sub_title n) :: after)
                /\ openLists before = map tocListLine (rev (seq 1 d))
                /\ List.length (openLists before) = d.
Proof.
  intros markdown.
  destruct (parseMarkdown_total markdown) as [st [o [_ [W [Ho [_ Hc]]]]]].
  exists o. split; [exact Ho | ]. intros ch Hin.
  pose proof (resolved_levels st _ W Hc) as Hl. rewrite Forall_forall in Hl.
  pose proof (outline_forests _ _ Ho) as Hf. rewrite Forall_forall in Hf.
  split; [now apply Hf | ]. split; [now apply Hl | ].
  split; [intros post; now apply toc_shows_subsections | ].
  intros d n Hd.
  pose proof (outline_nodes_onOneLine _ _ _ Ho Hin) as Hlines.
  pose proof (AtDepth_all _ _ _ _ Hd (outline_levels _ _ _ Ho Hin)) as Hlevel.
  simpl in Hlevel.
  destruct (entry_nesting _ _ _ Hd 1 []) as [before [after [Heq Hfold]]].
  exists before, after.
  rewrite (renderTocSubsections_lines _ 1 (AtDepth_nonempty _ _ _ Hd) Hlines), Heq.
  rewrite tocLiOpen_line, tocLink_line, Nat.min_l by lia.
  split; [reflexivity | ]. unfold openLists. rewrite Hfold, app_nil_r.
  split; [reflexivity | ]. now rewrite length_map, length_rev, length_seq.
Qed.

Lemma subsection_levels_and_toc_depth_witness :
  exists o ch n before after,
    parseMarkdown ("## C" ++ LF ++ "### A" ++ LF ++ "#### B" ++ LF ++ "### D") = Some o
    /\ In ch (o_chapters o)
    /\ ch_subsections ch
       = [mkSubsection "section-a" 3 "A" [mkSubsection "section-b" 4 "B" []];
          mkSubsection "section-d" 3 "D" []]
    /\ AtDepth 2 n (ch_subsections ch)
    /\ sub_id n = "section-b"
    /\ Forall LevelsIncrease (ch_subsections ch)
    /\ splitLines (renderTocSubsections (ch_subsections ch) 1)
       = List.app before
           (tocItemLine 4 :: tocLinkLine "section-b" "B" :: after)
    /\ openLists before = [tocListLine 2; tocListLine 1].
Proof.
  destruct (subsection_levels_and_toc_depth
              ("## C" ++ LF ++ "### A" ++ LF ++ "#### B" ++ LF ++ "### D"))
    as [o [Ho H]].
  assert (Hc : o = mkOutline []
                 [mkChapter "C" "chapter-1-c"
                    [BHeading 3 "A" "section-a"; BHeading 4 "B" "section-b";
                     BHeading 3 "D" "section-d"]
                    [mkSubsection "section-a" 3 "A" [mkSubsection "section-b" 4 "B" []];
                     mkSubsection "section-d" 3 "D" []]]).
  { vm_compute in Ho. now injection Ho as <-. }
  assert (Hin : In (mkChapter "C" "chapter-1-c"
                      [BHeading 3 "A" "section-a"; BHeading 4 "B" "section-b";
                       BHeading 3 "D" "section-d"]
                      [mkSubsection "section-a" 3 "A" [mkSubsection "section-b" 4 "B" []];
                       mkSubsection "section-d" 3 "D" []])
                   (o_chapters o)) by (rewrite Hc; now left).
  assert (Hd : AtDepth 2 (mkSubsection "section-b" 4 "B" [])
                 [mkSubsection "section-a" 3 "A" [mkSubsection "section-b" 4 "B" []];
                  mkSubsection "section-d" 3 "D" []]).
  { eapply AtDepth_below; [now left | ]. apply AtDepth_root. now left. }
  destruct (H _ Hin) as [_ [Hl [_ Ht]]].
  destruct (Ht 2 _ Hd) as [before [after [Heq [Hopen _]]]].
  exists o, (mkChapter "C" "chapter-1-c"
               [BHeading 3 "A" "section-a"; BHeading 4 "B" "section-b";
                BHeading 3 "D" "section-d"]
               [mkSubsection "section-a" 3 "A" [mkSubsection "section-b" 4 "B" []];
                mkSubsection "section-d" 3 "D" []]),
    (mkSubsection "section-b" 4 "B" []), before, after.
  split; [exact Ho | ]. split; [exact Hin | ]. split; [reflexivity | ].
  split; [exact Hd | ]. split; [reflexivity | ]. split; [exact Hl | ].
  split; [exact Heq | exact Hopen].
Defined.
